(** * Tournament scheduler: schedule generation, travel cost, validators,
      move primitives and local-search optimizers.

    A shallow embedding of [core/tourney_starter.py], [validators.py] and
    [core/optimizers.py].

    Modelling conventions.
    - Python [int] is [Z]; list positions produced by [range] are [nat].
    - Python [float] distances and scores are exact rationals [Q]; rounding,
      infinities and NaN are outside the model.
    - A raised exception ([IndexError], [ValueError], [NameError]) is [None].
    - A Python [set] is a [gset]; a violation message is a [reason] value
      that keeps the data of the formatted text.
    - The global [random] generator is a tape of raw draws read in order.
    - The functions work on schedule values; [Module Store] gives the move
      primitives a second time on a store of mutable list objects, where
      [copy.deepcopy] and item assignment are what they are in Python. *)

From Stdlib Require Import ZArith QArith List Lia Bool.
From stdpp Require Import base option list strings gmap.
Import ListNotations.

Local Open Scope Z_scope.

(** ** Python list indexing *)

Module Py.

(** [l[i]] accepts [-len <= i < len]; a negative index counts from the
    end, anything else raises [IndexError]. *)
Definition norm (len : nat) (i : Z) : option nat :=
  if (0 <=? i) && (i <? Z.of_nat len) then Some (Z.to_nat i)
  else if (i <? 0) && (- Z.of_nat len <=? i) then Some (Z.to_nat (Z.of_nat len + i))
  else None.

Definition get {A} (l : list A) (i : Z) : option A :=
  k ← norm (length l) i; l !! k.

Definition set {A} (l : list A) (i : Z) (x : A) : option (list A) :=
  k ← norm (length l) i; Some (<[k := x]> l).

(** [for x in xs: st = f st x], where [f] may raise. *)
Fixpoint for_each {S B} (f : S → B → option S) (xs : list B) (st : S) : option S :=
  match xs with
  | [] => Some st
  | x :: rest => st' ← f st x; for_each f rest st'
  end.

(** [enumerate(xs)] *)
Definition enumerate {A} (xs : list A) : list (nat * A) :=
  zip (seq 0 (length xs)) xs.

(** [range(n)] for a Python int [n]: empty when [n <= 0]. *)
Definition range (n : Z) : list nat := seq 0 (Z.to_nat n).

End Py.

(** ** Data model *)

(** A match is the tuple [(home_id, away_id)]; [-1] is the bye marker. *)
Abbreviation Game := (Z * Z)%type (only parsing).
Abbreviation Round := (list Game) (only parsing).
Abbreviation Schedule := (list Round) (only parsing).

Record Team := mkTeam { id : Z; name : string; lat : Q; lon : Q }.

(** ** tourney_starter.py *)

(** [[ids[0]] + [ids[-1]] + ids[1:-1]]; the loop that calls it runs
    [m-1] times, so it is never reached with an empty list. *)
Definition rotate (ids : list Z) : list Z :=
  match ids with
  | [] => []
  | first :: _ => [first] ++ [List.last ids first] ++ removelast (tl ids)
  end.

(** One pass of the inner loop [for i in range(m//2)]. *)
Definition rr_inner (ids : list Z) (m r : nat) (pairs : Round) (i : nat) : Round :=
  let a := nth i ids 0 in
  let b := nth (m - 1 - i) ids 0 in
  if (a =? -1) || (b =? -1) then pairs
  else if (r mod 2 =? 0)%nat then pairs ++ [(a, b)]
  else pairs ++ [(b, a)].

(** One pass of the outer loop [for r in range(m-1)] on [(ids, rounds)]. *)
Definition rr_outer (m : nat) (st : list Z * Schedule) (r : nat) : list Z * Schedule :=
  let '(ids, rounds) := st in
  let pairs := fold_left (rr_inner ids m r) (seq 0 (m / 2)) [] in
  (rotate ids, rounds ++ [pairs]).

Definition round_robin_pairs (teams : list Team) : Schedule :=
  let n := length teams in
  let ids := map Z.of_nat (seq 0 n) in
  let ids := if (n mod 2 =? 1)%nat then ids ++ [-1] else ids in
  let m := length ids in
  snd (fold_left (rr_outer m) (seq 0 (m - 1)) (ids, [])).

(** [round_loc[home] = home; round_loc[away] = home] *)
Definition place_match (round_loc : list (option Z)) (g : Game) : option (list (option Z)) :=
  let '(home, away) := g in
  rl ← Py.set round_loc home (Some home);
  Py.set rl away (Some home).

(** [if round_loc[t] is None: round_loc[t] = loc[t]] *)
Definition stay_put (loc : list Z) (round_loc : list (option Z)) (t : nat)
  : option (list (option Z)) :=
  cur ← round_loc !! t;
  match cur with
  | None => l ← loc !! t; Some (<[t := Some l]> round_loc)
  | Some _ => Some round_loc
  end.

(** [if loc[t] != round_loc[t]: tot_team[t] += D[loc[t]][round_loc[t]];
    loc[t] = round_loc[t]] *)
Definition move_team (D : list (list Q)) (round_loc : list (option Z))
    (st : list Z * list Q) (t : nat) : option (list Z * list Q) :=
  let '(loc, tot_team) := st in
  l ← loc !! t;
  cur ← round_loc !! t;
  dest ← cur;
  if l =? dest then Some (loc, tot_team)
  else
    row ← Py.get D l;
    dist ← Py.get row dest;
    tot ← tot_team !! t;
    Some (<[t := dest]> loc, <[t := (tot + dist)%Q]> tot_team).

Definition travel_round (n : nat) (D : list (list Q))
    (st : list Z * list Q) (rnd : Round) : option (list Z * list Q) :=
  round_loc ← Py.for_each place_match rnd (replicate n None);
  round_loc ← Py.for_each (stay_put st.1) (seq 0 n) round_loc;
  Py.for_each (move_team D round_loc) (seq 0 n) st.

(** [if loc[t] != t: tot_team[t] += D[loc[t]][t]; loc[t] = t] *)
Definition return_home (D : list (list Q)) (st : list Z * list Q) (t : nat)
  : option (list Z * list Q) :=
  let '(loc, tot_team) := st in
  l ← loc !! t;
  if l =? Z.of_nat t then Some (loc, tot_team)
  else
    row ← Py.get D l;
    dist ← Py.get row (Z.of_nat t);
    tot ← tot_team !! t;
    Some (<[t := Z.of_nat t]> loc, <[t := (tot + dist)%Q]> tot_team).

(** [sum(tot_team)]: starts from [0] and adds from the left. *)
Definition py_sum (xs : list Q) : Q := fold_left Qplus xs 0%Q.

Definition evaluate_schedule_travel (rounds : Schedule) (teams : list Team)
    (D : list (list Q)) : option (list Q * Q) :=
  let n := length teams in
  let loc := map Z.of_nat (seq 0 n) in
  let tot_team := replicate n 0%Q in
  st ← Py.for_each (travel_round n D) rounds (loc, tot_team);
  st ← Py.for_each (return_home D) (seq 0 n) st;
  Some (st.2, py_sum st.2).

Definition mk_teams (n : nat) : list Team :=
  map (fun i => mkTeam (Z.of_nat i) EmptyString 0%Q 0%Q) (seq 0 n).

(** ** validators.py *)

(** The data of one violation message. *)
Inductive reason :=
| EmptySchedule
| InvalidTeamId (round_idx match_idx : nat) (team_id n_teams : Z)
| AppearsMultipleTimes (round_idx : nat) (team_id : Z)
| CannotPlayItself (round_idx match_idx : nat) (team_id : Z)
| ConsecutiveAways (team_id : nat) (streak : Z) (start : option nat) (k : Z)
| RepeaterDetected (round_idx : nat) (home_id away_id : Z)
| Imbalance (team_id : nat) (home away diff : Z).

(** Body of [for match_idx, match in enumerate(round_matches)]; the state is
    [(teams_in_round, reasons)]. Every match of a [round] is a 2-tuple, so
    the format check never fires. *)
Definition validate_match (n_teams : Z) (round_idx : nat)
    (st : gset Z * list reason) (im : nat * Game) : gset Z * list reason :=
  let '(teams_in_round, reasons) := st in
  let '(match_idx, (home_id, away_id)) := im in
  let reasons :=
    if negb (home_id =? -1) && ((home_id <? 0) || (n_teams <=? home_id))
    then reasons ++ [InvalidTeamId round_idx match_idx home_id n_teams] else reasons in
  let reasons :=
    if negb (away_id =? -1) && ((away_id <? 0) || (n_teams <=? away_id))
    then reasons ++ [InvalidTeamId round_idx match_idx away_id n_teams] else reasons in
  let '(teams_in_round, reasons) :=
    if negb (home_id =? -1) then
      (({[home_id]} ∪ teams_in_round),
       if bool_decide (home_id ∈ teams_in_round)
       then reasons ++ [AppearsMultipleTimes round_idx home_id] else reasons)
    else (teams_in_round, reasons) in
  let '(teams_in_round, reasons) :=
    if negb (away_id =? -1) then
      (({[away_id]} ∪ teams_in_round),
       if bool_decide (away_id ∈ teams_in_round)
       then reasons ++ [AppearsMultipleTimes round_idx away_id] else reasons)
    else (teams_in_round, reasons) in
  let reasons :=
    if (home_id =? away_id) && negb (home_id =? -1)
    then reasons ++ [CannotPlayItself round_idx match_idx home_id] else reasons in
  (teams_in_round, reasons).

(** Body of [for round_idx, round_matches in enumerate(schedule)]. *)
Definition validate_round (n_teams : Z) (reasons : list reason)
    (ir : nat * Round) : list reason :=
  let '(round_idx, round_matches) := ir in
  snd (fold_left (validate_match n_teams round_idx)
         (Py.enumerate round_matches) (∅, reasons)).

Definition validate_schedule (schedule : Schedule) (n_teams : Z) : bool * list reason :=
  match schedule with
  | [] => (false, [EmptySchedule])
  | _ =>
    let reasons := fold_left (validate_round n_teams) (Py.enumerate schedule) [] in
    ((length reasons =? 0)%nat, reasons)
  end.

(** [max_team_id] scan of [check_max_consecutive_aways]. *)
Definition max_id_match (max_team_id : Z) (g : Game) : Z :=
  let '(home_id, away_id) := g in
  let max_team_id := if negb (home_id =? -1) then Z.max max_team_id home_id else max_team_id in
  if negb (away_id =? -1) then Z.max max_team_id away_id else max_team_id.

(** The inner search with [break]: the first match naming the team decides. *)
Fixpoint is_away_in (team_id : Z) (round_matches : Round) : bool :=
  match round_matches with
  | [] => false
  | (home_id, away_id) :: rest =>
    if away_id =? team_id then true
    else if home_id =? team_id then false
    else is_away_in team_id rest
  end.

Record away_state := AwayState {
  consecutive_aways : Z;
  max_consecutive : Z;
  violation_start_round : option nat;
  away_reasons : list reason }.

Definition away_round (team_id : nat) (k : Z) (st : away_state)
    (ir : nat * Round) : away_state :=
  let '(round_idx, round_matches) := ir in
  let st :=
    if is_away_in (Z.of_nat team_id) round_matches then
      let c := consecutive_aways st + 1 in
      AwayState c
        (if max_consecutive st <? c then c else max_consecutive st)
        (if c =? 1 then Some round_idx else violation_start_round st)
        (away_reasons st)
    else AwayState 0 (max_consecutive st) None (away_reasons st) in
  if k <? consecutive_aways st then
    AwayState 0 (max_consecutive st) (violation_start_round st)
      (away_reasons st ++
         [ConsecutiveAways team_id (consecutive_aways st) (violation_start_round st) k])
  else st.

Definition away_team (schedule : Schedule) (k : Z) (reasons : list reason)
    (team_id : nat) : list reason :=
  away_reasons
    (fold_left (away_round team_id k) (Py.enumerate schedule)
       (AwayState 0 0 None reasons)).

Definition check_max_consecutive_aways (schedule : Schedule) (k : Z) : bool * list reason :=
  match schedule with
  | [] => (true, [])
  | _ =>
    let max_team_id :=
      fold_left (fun acc round_matches => fold_left max_id_match round_matches acc)
        schedule (-1) in
    let n_teams := if 0 <=? max_team_id then max_team_id + 1 else 0 in
    if n_teams =? 0 then (true, [])
    else
      let reasons := fold_left (away_team schedule k) (Py.range n_teams) [] in
      ((length reasons =? 0)%nat, reasons)
  end.

(** [current_pairs] of [check_repeaters]. *)
Definition add_pair (current_pairs : gset (Z * Z)) (g : Game) : gset (Z * Z) :=
  let '(home_id, away_id) := g in
  if negb (home_id =? -1) && negb (away_id =? -1)
  then {[(home_id, away_id)]} ∪ current_pairs else current_pairs.

Definition repeater_match (round_idx : nat) (current_pairs : gset (Z * Z))
    (reasons : list reason) (g : Game) : list reason :=
  let '(home_id, away_id) := g in
  if negb (home_id =? -1) && negb (away_id =? -1)
     && bool_decide ((away_id, home_id) ∈ current_pairs)
  then reasons ++ [RepeaterDetected round_idx home_id away_id] else reasons.

Definition repeater_round (schedule : Schedule) (reasons : list reason)
    (round_idx : nat) : list reason :=
  let current_round := nth round_idx schedule [] in
  let next_round := nth (round_idx + 1) schedule [] in
  let current_pairs := fold_left add_pair current_round ∅ in
  fold_left (repeater_match round_idx current_pairs) next_round reasons.

Definition check_repeaters (schedule : Schedule) : bool * list reason :=
  if (length schedule <? 2)%nat then (true, [])
  else
    let reasons := fold_left (repeater_round schedule) (seq 0 (length schedule - 1)) [] in
    ((length reasons =? 0)%nat, reasons).

(** [count[i] += 1] *)
Definition bump (count : list Z) (i : Z) : option (list Z) :=
  c ← Py.get count i; Py.set count i (c + 1).

Definition balance_match (n_teams : Z) (st : list Z * list Z) (g : Game)
  : option (list Z * list Z) :=
  let '(home_count, away_count) := st in
  let '(home_id, away_id) := g in
  home_count ← (if negb (home_id =? -1) && (home_id <? n_teams)
                then bump home_count home_id else Some home_count);
  away_count ← (if negb (away_id =? -1) && (away_id <? n_teams)
                then bump away_count away_id else Some away_count);
  Some (home_count, away_count).

Definition balance_team (home_count away_count : list Z) (reasons : list reason)
    (team_id : nat) : option (list reason) :=
  h ← home_count !! team_id;
  a ← away_count !! team_id;
  let diff := Z.abs (h - a) in
  Some (if 1 <? diff then reasons ++ [Imbalance team_id h a diff] else reasons).

(** The only validator that can raise: a team id below [-n_teams] passes
    its guard and indexes the count list. *)
Definition check_home_away_balance (schedule : Schedule) (n_teams : Z)
  : option (bool * list reason) :=
  match schedule with
  | [] => Some (true, [])
  | _ =>
    let zeros := replicate (Z.to_nat n_teams) 0 in
    counts ← Py.for_each
               (fun st round_matches => Py.for_each (balance_match n_teams) round_matches st)
               schedule (zeros, zeros);
    reasons ← Py.for_each (balance_team counts.1 counts.2) (Py.range n_teams) [];
    Some ((length reasons =? 0)%nat, reasons)
  end.

(** ** optimizers.py: move primitives

    On values [copy.deepcopy] is the identity; the primitives on a store of
    mutable lists are in [Module Store]. A result [None] is a raised
    exception. *)

(** [new_schedule[r][i] = g] *)
Definition set_item2 (s : Schedule) (r i : Z) (g : Game) : option Schedule :=
  rnd ← Py.get s r;
  rnd' ← Py.set rnd i g;
  Py.set s r rnd'.

(** [s[r1][i1], s[r2][i2] = s[r2][i2], s[r1][i1]] *)
Definition swap_items (s : Schedule) (r1 i1 r2 i2 : Z) : option Schedule :=
  rnd2 ← Py.get s r2;
  x ← Py.get rnd2 i2;
  rnd1 ← Py.get s r1;
  y ← Py.get rnd1 i1;
  s ← set_item2 s r1 i1 x;
  set_item2 s r2 i2 y.

Definition move_swap_rounds (schedule : Schedule) (r1 r2 : Z) : option (Schedule * bool) :=
  let len := Z.of_nat (length schedule) in
  if (r1 <? 0) || (r2 <? 0) || (len <=? r1) || (len <=? r2)
  then Some (schedule, false)
  else
    let new_schedule := schedule in
    x ← Py.get new_schedule r2;
    y ← Py.get new_schedule r1;
    new_schedule ← Py.set new_schedule r1 x;
    new_schedule ← Py.set new_schedule r2 y;
    Some (new_schedule, true).

(** [{match[0], match[1]}] *)
Definition teams_of (g : Game) : gset Z := {[g.1; g.2]}.

(** The team set of a round built by [add] over the matches whose index
    passes [keep]. *)
Definition round_teams (keep : nat → bool) (rnd : Round) : gset Z :=
  fold_left (fun acc im => if keep im.1 then {[im.2.2]} ∪ ({[im.2.1]} ∪ acc) else acc)
    (Py.enumerate rnd) ∅.

(** [{t for t in s if t != -1}] *)
Definition no_bye (s : gset Z) : gset Z := filter (fun t => t ≠ -1) s.

(** Truth value of a set: non-empty. *)
Definition truthy (s : gset Z) : bool := bool_decide (s ≠ ∅).

Definition move_swap_matches (schedule : Schedule) (r1 i1 r2 i2 : Z)
  : option (Schedule * bool) :=
  let len := Z.of_nat (length schedule) in
  if (r1 <? 0) || (r2 <? 0) || (len <=? r1) || (len <=? r2)
  then Some (schedule, false)
  else
    round1 ← Py.get schedule r1;
    round2 ← Py.get schedule r2;
    if (i1 <? 0) || (i2 <? 0) || (Z.of_nat (length round1) <=? i1)
       || (Z.of_nat (length round2) <=? i2)
    then Some (schedule, false)
    else
      match1 ← Py.get round1 i1;
      match2 ← Py.get round2 i2;
      let teams1 := teams_of match1 in
      let teams2 := teams_of match2 in
      let round1_teams := round_teams (fun idx => negb (Z.of_nat idx =? i1)) round1 in
      let round2_teams := round_teams (fun idx => negb (Z.of_nat idx =? i2)) round2 in
      let teams1_no_bye := no_bye teams1 in
      let teams2_no_bye := no_bye teams2 in
      if truthy (teams1_no_bye ∩ round2_teams) || truthy (teams2_no_bye ∩ round1_teams)
      then Some (schedule, false)
      else
        new_schedule ← swap_items schedule r1 i1 r2 i2;
        Some (new_schedule, true).

Definition move_flip_venue (schedule : Schedule) (round_idx match_idx : Z)
  : option (Schedule * bool) :=
  if (round_idx <? 0) || (Z.of_nat (length schedule) <=? round_idx)
  then Some (schedule, false)
  else
    rnd ← Py.get schedule round_idx;
    if (match_idx <? 0) || (Z.of_nat (length rnd) <=? match_idx)
    then Some (schedule, false)
    else
      '(home_id, away_id) ← Py.get rnd match_idx;
      new_schedule ← set_item2 schedule round_idx match_idx (away_id, home_id);
      Some (new_schedule, true).

(** First loop of [move_swap_pairings]. [Some None] is the early
    [return copy.deepcopy(schedule), False]. *)
Fixpoint collect_swap_teams (round1 round2 : Round) (pairs_to_swap : list (Z * Z))
    (st : gset Z * gset Z) : option (option (gset Z * gset Z)) :=
  match pairs_to_swap with
  | [] => Some (Some st)
  | (idx1, idx2) :: rest =>
    if (Z.of_nat (length round1) <=? idx1) || (Z.of_nat (length round2) <=? idx2)
    then Some None
    else
      match1 ← Py.get round1 idx1;
      match2 ← Py.get round2 idx2;
      collect_swap_teams round1 round2 rest
        ({[match1.2]} ∪ ({[match1.1]} ∪ st.1), {[match2.2]} ∪ ({[match2.1]} ∪ st.2))
  end.

Definition move_swap_pairings (schedule : Schedule) (r1 r2 : Z)
    (pairs_to_swap : list (Z * Z)) : option (Schedule * bool) :=
  let len := Z.of_nat (length schedule) in
  if (r1 <? 0) || (r2 <? 0) || (len <=? r1) || (len <=? r2)
  then Some (schedule, false)
  else
    round1 ← Py.get schedule r1;
    round2 ← Py.get schedule r2;
    collected ← collect_swap_teams round1 round2 pairs_to_swap (∅, ∅);
    match collected with
    | None => Some (schedule, false)
    | Some (r1_teams_to_swap, r2_teams_to_swap) =>
      let r1_swap_indices : gset Z := list_to_set (map fst pairs_to_swap) in
      let r1_other_teams :=
        round_teams (fun idx => bool_decide (Z.of_nat idx ∉ r1_swap_indices)) round1 in
      let r2_swap_indices : gset Z := list_to_set (map snd pairs_to_swap) in
      let r2_other_teams :=
        round_teams (fun idx => bool_decide (Z.of_nat idx ∉ r2_swap_indices)) round2 in
      let r1_teams_to_swap := no_bye r1_teams_to_swap in
      let r2_teams_to_swap := no_bye r2_teams_to_swap in
      let r1_other_teams := no_bye r1_other_teams in
      let r2_other_teams := no_bye r2_other_teams in
      if truthy (r1_teams_to_swap ∩ r2_other_teams)
         || truthy (r2_teams_to_swap ∩ r1_other_teams)
      then Some (schedule, false)
      else
        new_schedule ← Py.for_each
          (fun s p => swap_items s r1 p.1 r2 p.2) pairs_to_swap schedule;
        Some (new_schedule, true)
    end.

(** ** optimizers.py: the random source

    The module-level [random] generator is a tape of raw draws and a cursor.
    Every outcome the library can produce is the image of some tape, so a
    statement proved for all tapes covers every run. *)

Module Rand.

Definition tape : Type := nat → nat.

(** A computation that reads the tape from a cursor and may raise. *)
Definition M (A : Type) : Type := tape → nat → option (A * nat).

Definition ret {A} (a : A) : M A := fun _ pos => Some (a, pos).

Definition bind {A B} (m : M A) (k : A → M B) : M B :=
  fun tp pos => match m tp pos with
                | Some (a, pos') => k a tp pos'
                | None => None
                end.

Definition raise {A} : M A := fun _ _ => None.

Definition lift {A} (o : option A) : M A :=
  fun _ pos => match o with Some a => Some (a, pos) | None => None end.

Definition draw : M nat := fun tp pos => Some (tp pos, S pos).

End Rand.

#[global] Instance rand_ret : MRet Rand.M := @Rand.ret.
#[global] Instance rand_bind : MBind Rand.M := fun A B k m => Rand.bind m k.

(** [random.choice(xs)]; [IndexError] on an empty list. *)
Definition choice {A} (xs : list A) : Rand.M A :=
  k ← Rand.draw; Rand.lift (xs !! (k mod length xs)%nat).

(** [random.sample(range(n), 2)]: two distinct positions, in either order;
    [ValueError] when [n < 2]. *)
Definition sample2 (n : nat) : Rand.M (Z * Z) :=
  if (n <? 2)%nat then Rand.raise
  else
    a ← Rand.draw;
    b ← Rand.draw;
    let r1 := (a mod n)%nat in
    let k := (b mod (n - 1))%nat in
    Rand.ret (Z.of_nat r1, Z.of_nat (if (k <? r1)%nat then k else S k)).

(** [random.randint(lo, hi)]; [ValueError] on an empty range. *)
Definition randint (lo hi : Z) : Rand.M Z :=
  if hi <? lo then Rand.raise
  else k ← Rand.draw; Rand.ret (lo + Z.of_nat k mod (hi - lo + 1)).

(** The outcome of [random.random() < math.exp(-delta / T)]. The test is
    reached only with [delta >= 0] and [T > 0], where the exponential lies
    in (0, 1]; the model lets the tape decide either way. *)
Definition metropolis (delta T : Q) : Rand.M bool :=
  k ← Rand.draw; Rand.ret (Nat.odd k).

(** ** optimizers.py: hill climbing and simulated annealing *)

Definition Qltb (x y : Q) : bool := negb (Qle_bool y x).

(** The tolerance [1e-6]. *)
Definition eps : Q := 1 # 1000000.

Inductive move_func :=
| MoveSwapRounds
| MoveSwapMatches
| MoveFlipVenue
| MoveSwapPairings.

Definition move_func_eqb (a b : move_func) : bool :=
  match a, b with
  | MoveSwapRounds, MoveSwapRounds
  | MoveSwapMatches, MoveSwapMatches
  | MoveFlipVenue, MoveFlipVenue
  | MoveSwapPairings, MoveSwapPairings => true
  | _, _ => false
  end.

Definition default_moves : list move_func :=
  [MoveSwapRounds; MoveSwapMatches; MoveFlipVenue].

Definition _validate_schedule_constraints (schedule : Schedule) (n_teams : Z)
  : option (bool * list reason) :=
  let '(ok1, reasons1) := validate_schedule schedule n_teams in
  if negb ok1 then Some (false, reasons1)
  else
    let '(ok2, reasons2) := check_max_consecutive_aways schedule 3 in
    if negb ok2 then Some (false, reasons2)
    else
      let '(ok3, reasons3) := check_repeaters schedule in
      if negb ok3 then Some (false, reasons3)
      else
        '(ok4, reasons4) ← check_home_away_balance schedule n_teams;
        if negb ok4 then Some (false, reasons4)
        else Some (true, []).

(** The operand sampling and move application shared by both optimizers:
    [None] stands for a [continue] taken before any move is applied. *)
Definition propose (current_schedule : Schedule) (move : move_func)
  : Rand.M (option (Schedule * bool)) :=
  let len := length current_schedule in
  if move_func_eqb move MoveSwapRounds then
    if (len <? 2)%nat then Rand.ret None
    else
      '(r1, r2) ← sample2 len;
      res ← Rand.lift (move_swap_rounds current_schedule r1 r2);
      Rand.ret (Some res)
  else if move_func_eqb move MoveSwapMatches then
    if (len <? 2)%nat then Rand.ret None
    else
      '(r1, r2) ← sample2 len;
      round1 ← Rand.lift (Py.get current_schedule r1);
      round2 ← Rand.lift (Py.get current_schedule r2);
      if (length round1 =? 0)%nat || (length round2 =? 0)%nat then Rand.ret None
      else
        i1 ← randint 0 (Z.of_nat (length round1) - 1);
        i2 ← randint 0 (Z.of_nat (length round2) - 1);
        res ← Rand.lift (move_swap_matches current_schedule r1 i1 r2 i2);
        Rand.ret (Some res)
  else if move_func_eqb move MoveFlipVenue then
    r ← randint 0 (Z.of_nat len - 1);
    rnd ← Rand.lift (Py.get current_schedule r);
    if (length rnd =? 0)%nat then Rand.ret None
    else
      i ← randint 0 (Z.of_nat (length rnd) - 1);
      res ← Rand.lift (move_flip_venue current_schedule r i);
      Rand.ret (Some res)
  else Rand.ret None.

(** The validation of a candidate: [None] is a rejected candidate. *)
Definition vet_candidate (validate : bool) (n_teams : Z) (cand : option (Schedule * bool))
  : option (option Schedule) :=
  match cand with
  | None => Some None
  | Some (new_schedule, is_valid) =>
    if negb is_valid then Some None
    else if validate then
      '(ok, _) ← _validate_schedule_constraints new_schedule n_teams;
      if negb ok then Some None else Some (Some new_schedule)
    else Some (Some new_schedule)
  end.

Record hc_state := HcState {
  hc_current_schedule : Schedule;
  hc_current_score : Q;
  hc_best_schedule : Schedule;
  hc_best_score : Q;
  hc_improvements : list (nat * Q);
  hc_no_improve_count : Z }.

(** The telemetry dictionary; [time_elapsed] reads the wall clock and is
    left out. *)
Record log := Log {
  log_best_score : Q;
  log_iter : Z;
  log_improvements : list (nat * Q);
  log_final_temperature : option Q }.

(** One pass of the body of [for iteration in range(max_iters)] after the
    [break] test. *)
Definition hc_step (teams : list Team) (D : list (list Q)) (moves : list move_func)
    (validate : bool) (st : hc_state) (iteration : nat) : Rand.M hc_state :=
  let n_teams := Z.of_nat (length teams) in
  move ← choice moves;
  cand ← propose (hc_current_schedule st) move;
  accepted ← Rand.lift (vet_candidate validate n_teams cand);
  match accepted with
  | None => Rand.ret st
  | Some new_schedule =>
    '(_, new_score) ← Rand.lift (evaluate_schedule_travel new_schedule teams D);
    if Qltb new_score (hc_current_score st - eps) then
      let current_score := new_score in
      if Qltb new_score (hc_best_score st - eps) then
        let best_score := new_score in
        Rand.ret (HcState new_schedule current_score new_schedule best_score
                    (hc_improvements st ++ [(iteration, (best_score - current_score)%Q)]) 0)
      else
        Rand.ret (HcState new_schedule current_score (hc_best_schedule st)
                    (hc_best_score st) (hc_improvements st) 0)
    else
      Rand.ret (HcState (hc_current_schedule st) (hc_current_score st)
                  (hc_best_schedule st) (hc_best_score st) (hc_improvements st)
                  (hc_no_improve_count st + 1))
  end.

(** The loop; the second component is the last value bound to
    [iteration], if any. *)
Fixpoint hc_loop (teams : list Team) (D : list (list Q)) (moves : list move_func)
    (max_no_improve : Z) (validate : bool) (iters : list nat)
    (st : hc_state) (last : option nat) : Rand.M (hc_state * option nat) :=
  match iters with
  | [] => Rand.ret (st, last)
  | iteration :: rest =>
    if max_no_improve <=? hc_no_improve_count st then Rand.ret (st, Some iteration)
    else
      st' ← hc_step teams D moves validate st iteration;
      hc_loop teams D moves max_no_improve validate rest st' (Some iteration)
  end.

(** [random_seed] only picks the tape the run reads, so the tape in
    effect after the optional re-seeding is the argument. *)
Definition hill_climb (schedule : Schedule) (teams : list Team) (D : list (list Q))
    (moves : option (list move_func)) (max_iters max_no_improve : Z) (validate : bool)
  : Rand.M (Schedule * Q * log) :=
  let moves := default default_moves moves in
  let current_schedule := schedule in
  '(_, current_score) ← Rand.lift (evaluate_schedule_travel current_schedule teams D);
  let st := HcState current_schedule current_score current_schedule current_score [] 0 in
  '(st, last) ← hc_loop teams D moves max_no_improve validate (Py.range max_iters) st None;
  iteration ← Rand.lift last;
  Rand.ret (hc_best_schedule st, hc_best_score st,
            Log (hc_best_score st) (Z.of_nat iteration + 1) (hc_improvements st) None).

Record sa_state := SaState {
  sa_current_schedule : Schedule;
  sa_current_score : Q;
  sa_best_schedule : Schedule;
  sa_best_score : Q;
  sa_improvements : list (nat * Q);
  sa_T : Q }.

(** [delta < 0 or (T > 0 and random.random() < math.exp(-delta / T))] *)
Definition accepts (delta T : Q) : Rand.M bool :=
  if Qltb delta 0 then Rand.ret true
  else if Qltb 0 T then metropolis delta T
  else Rand.ret false.

(** One pass of the annealing loop body; every path ends in [T *= decay]. *)
Definition sa_step (teams : list Team) (D : list (list Q)) (moves : list move_func)
    (decay : Q) (validate : bool) (st : sa_state) (iteration : nat) : Rand.M sa_state :=
  let n_teams := Z.of_nat (length teams) in
  let cool (st : sa_state) :=
    SaState (sa_current_schedule st) (sa_current_score st) (sa_best_schedule st)
      (sa_best_score st) (sa_improvements st) (sa_T st * decay)%Q in
  move ← choice moves;
  cand ← propose (sa_current_schedule st) move;
  accepted ← Rand.lift (vet_candidate validate n_teams cand);
  match accepted with
  | None => Rand.ret (cool st)
  | Some new_schedule =>
    '(_, new_score) ← Rand.lift (evaluate_schedule_travel new_schedule teams D);
    let delta := (new_score - sa_current_score st)%Q in
    accept ← accepts delta (sa_T st);
    if (accept : bool) then
      let current_score := new_score in
      if Qltb new_score (sa_best_score st - eps) then
        let best_score := new_score in
        Rand.ret (cool (SaState new_schedule current_score new_schedule best_score
                          (sa_improvements st ++ [(iteration, (best_score - current_score)%Q)])
                          (sa_T st)))
      else
        Rand.ret (cool (SaState new_schedule current_score (sa_best_schedule st)
                          (sa_best_score st) (sa_improvements st) (sa_T st)))
    else Rand.ret (cool st)
  end.

Fixpoint sa_loop (teams : list Team) (D : list (list Q)) (moves : list move_func)
    (decay : Q) (validate : bool) (iters : list nat)
    (st : sa_state) (last : option nat) : Rand.M (sa_state * option nat) :=
  match iters with
  | [] => Rand.ret (st, last)
  | iteration :: rest =>
    st' ← sa_step teams D moves decay validate st iteration;
    sa_loop teams D moves decay validate rest st' (Some iteration)
  end.

Definition simulated_annealing (schedule : Schedule) (teams : list Team)
    (D : list (list Q)) (moves : option (list move_func)) (T0 decay : Q)
    (max_iters : Z) (validate : bool) : Rand.M (Schedule * Q * log) :=
  let moves := default default_moves moves in
  let current_schedule := schedule in
  '(_, current_score) ← Rand.lift (evaluate_schedule_travel current_schedule teams D);
  let st := SaState current_schedule current_score current_schedule current_score [] T0 in
  '(st, last) ← sa_loop teams D moves decay validate (Py.range max_iters) st None;
  iteration ← Rand.lift last;
  Rand.ret (sa_best_schedule st, sa_best_score st,
            Log (sa_best_score st) (Z.of_nat iteration + 1) (sa_improvements st)
              (Some (sa_T st))).

(** ** Properties stated by the specification *)

(** The real (non-bye) team ids of a round, one entry per appearance. *)
Definition real_ids (rnd : Round) : list Z :=
  filter (fun t => t ≠ -1) (flat_map (fun g : Game => [g.1; g.2]) rnd).

(** Central invariant: within a round no real team id appears twice. *)
Definition no_repeat (s : Schedule) : Prop :=
  Forall (fun rnd => NoDup (real_ids rnd)) s.

(** The schedule passes the four validators, each run on its own. *)
Definition passes_all (s : Schedule) (n_teams : Z) : Prop :=
  (validate_schedule s n_teams).1 = true
  ∧ (check_max_consecutive_aways s 3).1 = true
  ∧ (check_repeaters s).1 = true
  ∧ fst <$> check_home_away_balance s n_teams = Some true.

(** Does the match oppose [a] and [b], in either venue order? *)
Definition meets (a b : Z) (g : Game) : bool :=
  (g.1 =? a) && (g.2 =? b) || (g.1 =? b) && (g.2 =? a).

(** Number of matches of the whole schedule that oppose [a] and [b]. *)
Definition pair_count (a b : Z) (s : Schedule) : nat :=
  length (List.filter (meets a b) (concat s)).

(** Does team [t] appear in a match of the round? *)
Definition plays (t : Z) (rnd : Round) : bool :=
  existsb (fun g : Game => (g.1 =? t) || (g.2 =? t)) rnd.

(** Round index [r] and match index [i] name a match of the schedule. *)
Definition slot_in_range (s : Schedule) (r i : Z) : Prop :=
  ∃ rnd, 0 ≤ r ∧ s !! Z.to_nat r = Some rnd ∧ 0 ≤ i < Z.of_nat (length rnd).

(** ** Invariants of the evaluation and of the search *)

(** [t] is a valid Python index into a list of [n] entries. *)
Definition in_range (n : nat) (t : Z) : Prop := - Z.of_nat n ≤ t < Z.of_nat n.

(** Every id of the schedule is a valid index into a list of [n] entries. *)
Definition ids_in_range (n : nat) (s : Schedule) : Prop :=
  Forall (Forall (fun g : Game => in_range n g.1 ∧ in_range n g.2)) s.

(** [D] is an [n] by [n] matrix. *)
Definition square (n : nat) (D : list (list Q)) : Prop :=
  length D = n ∧ Forall (fun row => length row = n) D.

(** States of the travel evaluation: the location pointers with the running
    totals, and the per-round venue list. *)
Definition located (n : nat) (st : list Z * list Q) : Prop :=
  length st.1 = n ∧ length st.2 = n ∧ Forall (in_range n) st.1.

Definition placed (n : nat) (round_loc : list (option Z)) : Prop :=
  length round_loc = n ∧ Forall (fun o => ∀ d, o = Some d → in_range n d) round_loc.

(** What a run keeps true of its best-ever pair: the schedule is [good],
    the score is its travel, and the score is at most the baseline. *)
Definition tracked (teams : list Team) (D : list (list Q)) (base : Q)
    (good : Schedule → Prop) (best : Schedule) (score : Q) : Prop :=
  good best
  ∧ (∃ per, evaluate_schedule_travel best teams D = Some (per, score))
  ∧ (score <= base)%Q.

(** ** Closed form of the circle method

    After [r] rotations of a list of [M + 1] entries, position [j] holds
    the entry that started at position [src M r j]. *)
Definition src (M r j : nat) : nat :=
  if (j =? 0)%nat then 0%nat
  else if (j <=? r)%nat then (M - r + j)%nat
  else (j - r)%nat.

(** The list [ids] before the first round. *)
Definition initial_ids (n : nat) : list Z :=
  let ids := map Z.of_nat (seq 0 n) in
  if (n mod 2 =? 1)%nat then ids ++ [-1] else ids.

(** What one pass of the inner loop appends. *)
Definition cell (ids : list Z) (m r i : nat) : Round :=
  rr_inner ids m r [] i.

(** The id that starts at position [p]: a team id below [n], the bye
    marker at position [n] when [n] is odd. *)
Definition val (n p : nat) : Z := if (p <? n)%nat then Z.of_nat p else -1.

(** What round [r] gets from index [i] of the inner loop, in closed form. *)
Definition slot (n M r i : nat) : Round :=
  let a := val n (src M r i) in
  let b := val n (src M r (M - i)) in
  if (a =? -1) || (b =? -1) then []
  else if (r mod 2 =? 0)%nat then [(a, b)] else [(b, a)].

(** For an odd team count [2h - 1]: the inner-loop index that meets the
    bye in round [r], and the team left idle by it. *)
Definition bye_index (h r : nat) : nat :=
  if (r =? 0)%nat then 0%nat
  else if (r <? h)%nat then r else (2 * h - 1 - r)%nat.

Definition idle (M r : nat) : nat :=
  src M r (M - (if (r =? 0)%nat then M else r)).

(** The position that holds the entry [t] after [r] rotations. *)
Definition pos (M r t : nat) : nat :=
  if (t =? 0)%nat then 0%nat
  else if (t + r <=? M)%nat then (t + r)%nat else (t + r - M)%nat.

(** ** Sample instances *)

(** A four-team single round robin that passes the four validators. *)
Definition sched4 : Schedule :=
  [[(0, 1); (2, 3)]; [(1, 2); (3, 0)]; [(0, 2); (3, 1)]].

Definition D4 : list (list Q) :=
  [[0; 10; 20; 30]; [10; 0; 15; 25]; [20; 15; 0; 5]; [30; 25; 5; 0]]%Q.

(** The two-team instance of the travel example. *)
Definition D2 : list (list Q) := [[0; 100]; [100; 0]]%Q.

(** The tape whose k-th draw is k. *)
Definition counting_tape : Rand.tape := fun k => k.

(** ** optimizers.py: the move primitives on a store of mutable lists

    A schedule is a list object whose items refer to the list objects of
    its rounds; matches are immutable tuples. Objects live in a store, a
    reference is a position in it, and a new object is put at the end.
    This is the level at which a primitive could write to its argument. *)

Module Store.

Abbreviation loc := nat (only parsing).

Inductive obj :=
| Outer (rounds : list loc)
| Inner (matches : Round).

Abbreviation heap := (list obj) (only parsing).

Definition alloc (h : heap) (o : obj) : heap * loc := (h ++ [o], length h).

Definition outer (h : heap) (l : loc) : option (list loc) :=
  o ← h !! l; match o with Outer rounds => Some rounds | Inner _ => None end.

Definition inner (h : heap) (l : loc) : option Round :=
  o ← h !! l; match o with Inner matches => Some matches | Outer _ => None end.

(** The schedule value a reference denotes. *)
Definition read (h : heap) (s : loc) : option Schedule :=
  rounds ← outer h s; mapM (inner h) rounds.

(** [copy.deepcopy] of the rounds of a schedule: a round object met a
    second time is copied once, through the memo dictionary. *)
Fixpoint copy_rounds (rounds : list loc) (h : heap) (memo : gmap loc loc)
  : option (heap * list loc) :=
  match rounds with
  | [] => Some (h, [])
  | l :: rest =>
    match memo !! l with
    | Some l' =>
      '(h, rest') ← copy_rounds rest h memo;
      Some (h, l' :: rest')
    | None =>
      matches ← inner h l;
      let '(h, l') := alloc h (Inner matches) in
      '(h, rest') ← copy_rounds rest h (<[l := l']> memo);
      Some (h, l' :: rest')
    end
  end.

(** [copy.deepcopy(schedule)] *)
Definition deepcopy (h : heap) (s : loc) : option (heap * loc) :=
  rounds ← outer h s;
  let '(h, s') := alloc h (Outer []) in
  '(h, rounds') ← copy_rounds rounds h ∅;
  Some (<[s' := Outer rounds']> h, s').

(** [schedule[r]] as a reference, and [schedule[r][i]] *)
Definition round_ref (h : heap) (s : loc) (r : Z) : option loc :=
  rounds ← outer h s; Py.get rounds r.

Definition item (h : heap) (s : loc) (r i : Z) : option Game :=
  l ← round_ref h s r; matches ← inner h l; Py.get matches i.

(** [schedule[r] = l] *)
Definition set_round (h : heap) (s : loc) (r : Z) (l : loc) : option heap :=
  rounds ← outer h s;
  rounds ← Py.set rounds r l;
  Some (<[s := Outer rounds]> h).

(** [schedule[r][i] = g] *)
Definition set_item (h : heap) (s : loc) (r i : Z) (g : Game) : option heap :=
  l ← round_ref h s r;
  matches ← inner h l;
  matches ← Py.set matches i g;
  Some (<[l := Inner matches]> h).

(** [s[r1][i1], s[r2][i2] = s[r2][i2], s[r1][i1]] *)
Definition swap_items (h : heap) (s : loc) (r1 i1 r2 i2 : Z) : option heap :=
  x ← item h s r2 i2;
  y ← item h s r1 i1;
  h ← set_item h s r1 i1 x;
  set_item h s r2 i2 y.

(** [return copy.deepcopy(schedule), False] *)
Definition refuse (h : heap) (schedule : loc) : option (heap * (loc * bool)) :=
  '(h, copy) ← deepcopy h schedule; Some (h, (copy, false)).

Definition move_swap_rounds (h : heap) (schedule : loc) (r1 r2 : Z)
  : option (heap * (loc * bool)) :=
  rounds ← outer h schedule;
  let len := Z.of_nat (length rounds) in
  if (r1 <? 0) || (r2 <? 0) || (len <=? r1) || (len <=? r2)
  then refuse h schedule
  else
    '(h, new_schedule) ← deepcopy h schedule;
    x ← round_ref h new_schedule r2;
    y ← round_ref h new_schedule r1;
    h ← set_round h new_schedule r1 x;
    h ← set_round h new_schedule r2 y;
    Some (h, (new_schedule, true)).

Definition move_swap_matches (h : heap) (schedule : loc) (r1 i1 r2 i2 : Z)
  : option (heap * (loc * bool)) :=
  rounds ← outer h schedule;
  let len := Z.of_nat (length rounds) in
  if (r1 <? 0) || (r2 <? 0) || (len <=? r1) || (len <=? r2)
  then refuse h schedule
  else
    round1 ← round_ref h schedule r1 ≫= inner h;
    round2 ← round_ref h schedule r2 ≫= inner h;
    if (i1 <? 0) || (i2 <? 0) || (Z.of_nat (length round1) <=? i1)
       || (Z.of_nat (length round2) <=? i2)
    then refuse h schedule
    else
      match1 ← Py.get round1 i1;
      match2 ← Py.get round2 i2;
      let teams1 := teams_of match1 in
      let teams2 := teams_of match2 in
      let round1_teams := round_teams (fun idx => negb (Z.of_nat idx =? i1)) round1 in
      let round2_teams := round_teams (fun idx => negb (Z.of_nat idx =? i2)) round2 in
      let teams1_no_bye := no_bye teams1 in
      let teams2_no_bye := no_bye teams2 in
      if truthy (teams1_no_bye ∩ round2_teams) || truthy (teams2_no_bye ∩ round1_teams)
      then refuse h schedule
      else
        '(h, new_schedule) ← deepcopy h schedule;
        h ← swap_items h new_schedule r1 i1 r2 i2;
        Some (h, (new_schedule, true)).

Definition move_flip_venue (h : heap) (schedule : loc) (round_idx match_idx : Z)
  : option (heap * (loc * bool)) :=
  rounds ← outer h schedule;
  if (round_idx <? 0) || (Z.of_nat (length rounds) <=? round_idx)
  then refuse h schedule
  else
    rnd ← round_ref h schedule round_idx ≫= inner h;
    if (match_idx <? 0) || (Z.of_nat (length rnd) <=? match_idx)
    then refuse h schedule
    else
      '(h, new_schedule) ← deepcopy h schedule;
      '(home_id, away_id) ← item h new_schedule round_idx match_idx;
      h ← set_item h new_schedule round_idx match_idx (away_id, home_id);
      Some (h, (new_schedule, true)).

Definition move_swap_pairings (h : heap) (schedule : loc) (r1 r2 : Z)
    (pairs_to_swap : list (Z * Z)) : option (heap * (loc * bool)) :=
  rounds ← outer h schedule;
  let len := Z.of_nat (length rounds) in
  if (r1 <? 0) || (r2 <? 0) || (len <=? r1) || (len <=? r2)
  then refuse h schedule
  else
    round1 ← round_ref h schedule r1 ≫= inner h;
    round2 ← round_ref h schedule r2 ≫= inner h;
    collected ← collect_swap_teams round1 round2 pairs_to_swap (∅, ∅);
    match collected with
    | None => refuse h schedule
    | Some (r1_teams_to_swap, r2_teams_to_swap) =>
      let r1_swap_indices : gset Z := list_to_set (map fst pairs_to_swap) in
      let r1_other_teams :=
        round_teams (fun idx => bool_decide (Z.of_nat idx ∉ r1_swap_indices)) round1 in
      let r2_swap_indices : gset Z := list_to_set (map snd pairs_to_swap) in
      let r2_other_teams :=
        round_teams (fun idx => bool_decide (Z.of_nat idx ∉ r2_swap_indices)) round2 in
      let r1_teams_to_swap := no_bye r1_teams_to_swap in
      let r2_teams_to_swap := no_bye r2_teams_to_swap in
      let r1_other_teams := no_bye r1_other_teams in
      let r2_other_teams := no_bye r2_other_teams in
      if truthy (r1_teams_to_swap ∩ r2_other_teams)
         || truthy (r2_teams_to_swap ∩ r1_other_teams)
      then refuse h schedule
      else
        '(h, new_schedule) ← deepcopy h schedule;
        h ← Py.for_each
              (fun h p => swap_items h new_schedule r1 p.1 r2 p.2) pairs_to_swap h;
        Some (h, (new_schedule, true))
    end.

(** A call of one of the four primitives with its operands. *)
Inductive call :=
| SwapRounds (r1 r2 : Z)
| SwapMatches (r1 i1 r2 i2 : Z)
| FlipVenue (round_idx match_idx : Z)
| SwapPairings (r1 r2 : Z) (pairs_to_swap : list (Z * Z)).

Definition run (h : heap) (schedule : loc) (c : call) : option (heap * (loc * bool)) :=
  match c with
  | SwapRounds r1 r2 => move_swap_rounds h schedule r1 r2
  | SwapMatches r1 i1 r2 i2 => move_swap_matches h schedule r1 i1 r2 i2
  | FlipVenue round_idx match_idx => move_flip_venue h schedule round_idx match_idx
  | SwapPairings r1 r2 pairs_to_swap => move_swap_pairings h schedule r1 r2 pairs_to_swap
  end.

(** The schedule at [s] is made only of objects at or above [base],
    the size of the store when the primitive was called. *)
Definition own (base : nat) (h : heap) (s : loc) : Prop :=
  (base ≤ s)%nat
  ∧ ∃ rounds, outer h s = Some rounds ∧ Forall (fun l => (base ≤ l)%nat) rounds.

(** [s] denotes the value [v] and no two of its rounds are one object. *)
Definition repr (h : heap) (s : loc) (v : Schedule) : Prop :=
  ∃ rounds, outer h s = Some rounds ∧ NoDup rounds
            ∧ Forall2 (fun l rnd => inner h l = Some rnd) rounds v.

(** A write to the schedule at [s] against the same write to its value:
    both raise, or the new store denotes the new value. *)
Definition follows (s : loc) (res : option heap) (vres : option Schedule) : Prop :=
  match vres with
  | Some v' => ∃ h', res = Some h' ∧ repr h' s v'
  | None => res = None
  end.

(** A store that holds [sched4]. *)
Definition heap4 : heap :=
  [Inner [(0, 1); (2, 3)]; Inner [(1, 2); (3, 0)]; Inner [(0, 2); (3, 1)];
   Outer [0; 1; 2]%nat].

End Store.

(** What a call returns on the store against what it returns on the value:
    both raise, or both return, with the same feasibility flag and the
    returned reference denoting the returned value. *)
Definition agrees (res : option (list Store.obj * (nat * bool)))
    (vres : option (Schedule * bool)) : Prop :=
  match res, vres with
  | Some (h', (s', b)), Some (v', b') => b = b' ∧ Store.read h' s' = Some v'
  | None, None => True
  | _, _ => False
  end.

(** A call applied to a schedule value. *)
Definition run_value (s : Schedule) (c : Store.call) : option (Schedule * bool) :=
  match c with
  | Store.SwapRounds r1 r2 => move_swap_rounds s r1 r2
  | Store.SwapMatches r1 i1 r2 i2 => move_swap_matches s r1 i1 r2 i2
  | Store.FlipVenue round_idx match_idx => move_flip_venue s round_idx match_idx
  | Store.SwapPairings r1 r2 pairs_to_swap => move_swap_pairings s r1 r2 pairs_to_swap
  end.


(** * Further code of the repository and the notions of the further results *)

(** ** tourney_starter.py: the greedy swap heuristic *)

(** A loop whose body is followed by [if improved_any: break]: the body
    runs on the first element whatever the state, and the loop is left as
    soon as the state stops it. *)
Fixpoint for_until {S B} (stop : S → bool) (f : S → B → option S)
    (xs : list B) (st : S) : option S :=
  match xs with
  | [] => Some st
  | x :: rest =>
    st' ← f st x;
    if stop st' then Some st' else for_until stop f rest st'
  end.

(** The variables the loops of [greedy_optimize_tours] assign. *)
Record greedy_state := GreedyState {
  g_rounds_new : Schedule;
  g_before_total : Q;
  g_improved_any : bool }.

(** Body of [for i2, (h2, a2) in enumerate(rounds_new[r2])]: the matches
    that share a team are skipped; the others are exchanged in a copy,
    and the copy is kept when it lowers the total by more than the
    tolerance. *)
Definition greedy_try (D : list (list Q)) (n_teams : nat) (r1 r2 i1 : nat) (m1 : Game)
    (st : greedy_state) (im2 : nat * Game) : option greedy_state :=
  let '(i2, m2) := im2 in
  let '(h1, a1) := m1 in
  let '(h2, a2) := m2 in
  if truthy (teams_of (h1, a1) ∩ teams_of (h2, a2)) then Some st
  else
    rounds_candidate ← set_item2 (g_rounds_new st) (Z.of_nat r1) (Z.of_nat i1) (h2, a2);
    rounds_candidate ← set_item2 rounds_candidate (Z.of_nat r2) (Z.of_nat i2) (h1, a1);
    '(_, cand_total) ← evaluate_schedule_travel rounds_candidate (mk_teams n_teams) D;
    if Qltb (cand_total + eps) (g_before_total st)
    then Some (GreedyState rounds_candidate cand_total true)
    else Some st.

(** Body of [for i1, (h1, a1) in enumerate(rounds_new[r1])]. *)
Definition greedy_matches (D : list (list Q)) (n_teams : nat) (r1 r2 : nat)
    (st : greedy_state) (im1 : nat * Game) : option greedy_state :=
  round2 ← g_rounds_new st !! r2;
  for_until g_improved_any (greedy_try D n_teams r1 r2 im1.1 im1.2)
    (Py.enumerate round2) st.

(** Body of [for r2 in range(r1+1, n_rounds)]. *)
Definition greedy_rounds (D : list (list Q)) (n_teams : nat) (r1 : nat)
    (st : greedy_state) (r2 : nat) : option greedy_state :=
  round1 ← g_rounds_new st !! r1;
  for_until g_improved_any (greedy_matches D n_teams r1 r2) (Py.enumerate round1) st.

(** [max_tour_len] is not used by the code. *)
Definition greedy_optimize_tours (rounds : Schedule) (D : list (list Q))
    (max_tour_len : Z) : option (Schedule * bool) :=
  let rounds_new := rounds in
  let n_rounds := length rounds_new in
  let n_teams := length D in
  '(_, before_total) ← evaluate_schedule_travel rounds_new (mk_teams n_teams) D;
  st ← for_until g_improved_any
         (fun st r1 =>
            for_until g_improved_any (greedy_rounds D n_teams r1)
              (seq (r1 + 1) (n_rounds - (r1 + 1))) st)
         (seq 0 n_rounds) (GreedyState rounds_new before_total false);
  Some (g_rounds_new st, g_improved_any st).

(** [s'] is [s] with two matches of different rounds, which share no
    team, exchanged. *)
Definition exchanged (s s' : Schedule) : Prop :=
  ∃ (r1 r2 i1 i2 : nat) (rnd1 rnd2 : Round) (m1 m2 : Game),
    (r1 < r2)%nat ∧ s !! r1 = Some rnd1 ∧ s !! r2 = Some rnd2
    ∧ rnd1 !! i1 = Some m1 ∧ rnd2 !! i2 = Some m2
    ∧ teams_of m1 ∩ teams_of m2 = ∅
    ∧ s' = <[r2 := <[i2 := m1]> rnd2]> (<[r1 := <[i1 := m2]> rnd1]> s).

(** What the loops keep true: nothing has changed, or one exchange has
    been made that lowers the total by more than the tolerance. *)
Definition greedy_inv (s : Schedule) (D : list (list Q)) (base : Q)
    (st : greedy_state) : Prop :=
  if g_improved_any st
  then exchanged s (g_rounds_new st)
       ∧ (∃ per, evaluate_schedule_travel (g_rounds_new st) (mk_teams (length D)) D
                 = Some (per, g_before_total st))
       ∧ (g_before_total st + eps < base)%Q
  else g_rounds_new st = s ∧ g_before_total st = base.

(** The six-team round robin and the distances of six stadiums on a line. *)
Definition line6 : list (list Q) :=
  [[0; 1; 2; 3; 4; 5]; [1; 0; 1; 2; 3; 4]; [2; 1; 0; 1; 2; 3];
   [3; 2; 1; 0; 1; 2]; [4; 3; 2; 1; 0; 1]; [5; 4; 3; 2; 1; 0]]%Q.

(** ** tourney_starter.py: the distance matrix

    [haversine] is trigonometry on floats and stays a parameter: the
    matrix is modelled for an arbitrary distance function of two points. *)

(** [D[i][j] = d] *)
Definition set_entry (D : list (list Q)) (i j : Z) (d : Q) : option (list (list Q)) :=
  row ← Py.get D i;
  row' ← Py.set row j d;
  Py.set D i row'.

Section DistanceMatrix.

Variable haversine : Q → Q → Q → Q → Q.

(** Body of [for j in range(n)]. *)
Definition distance_cell (teams : list Team) (i : nat) (D : list (list Q)) (j : nat)
  : option (list (list Q)) :=
  if (i =? j)%nat then Some D
  else
    ti ← teams !! i;
    tj ← teams !! j;
    set_entry D (Z.of_nat i) (Z.of_nat j) (haversine (lat ti) (lon ti) (lat tj) (lon tj)).

Definition distance_matrix (teams : list Team) : option (list (list Q)) :=
  let n := length teams in
  let D := replicate n (replicate n 0%Q) in
  Py.for_each (fun D i => Py.for_each (distance_cell teams i) (seq 0 n) D) (seq 0 n) D.

(** The entry the loops leave at row [i], column [j]. *)
Definition distance_entry (teams : list Team) (i j : nat) : Q :=
  if (i =? j)%nat then 0%Q
  else match teams !! i, teams !! j with
       | Some ti, Some tj => haversine (lat ti) (lon ti) (lat tj) (lon tj)
       | _, _ => 0%Q
       end.

End DistanceMatrix.

(** A distance function to run the matrix on: the square of the straight
    line between two points of the plane. *)
Definition flat_distance (lat1 lon1 lat2 lon2 : Q) : Q :=
  ((lat1 - lat2) * (lat1 - lat2) + (lon1 - lon2) * (lon1 - lon2))%Q.

(** [D] holds, at every row and column below [n], the value [f] gives. *)
Definition filled (n : nat) (D : list (list Q)) (f : nat → nat → Q) : Prop :=
  length D = n
  ∧ ∀ i, (i < n)%nat →
      ∃ row, D !! i = Some row ∧ length row = n
             ∧ ∀ j, (j < n)%nat → row !! j = Some (f i j).

(** ** Notions used in the statements *)

(** A team id below [n_teams], or the bye marker. *)
Definition valid_id (n_teams : Z) (t : Z) : Prop := t = -1 ∨ 0 ≤ t < n_teams.

(** Every id of the schedule is a team id below [n_teams] or the bye
    marker. *)
Definition valid_ids (n_teams : Z) (s : Schedule) : Prop :=
  Forall (Forall (fun g : Game => valid_id n_teams g.1 ∧ valid_id n_teams g.2)) s.

(** Some round holds a match of two real teams that the round before it
    holds with the venue reversed. *)
Definition has_repeater (s : Schedule) : Prop :=
  ∃ r rnd nxt home_id away_id,
    s !! r = Some rnd ∧ s !! S r = Some nxt
    ∧ (home_id, away_id) ∈ nxt ∧ home_id ≠ -1 ∧ away_id ≠ -1
    ∧ (away_id, home_id) ∈ rnd.

(** The number of matches of a list that team [t] plays at home, and
    away. *)
Definition home_games (t : Z) (games : list Game) : Z :=
  Z.of_nat (length (List.filter (fun g : Game => g.1 =? t) games)).

Definition away_games (t : Z) (games : list Game) : Z :=
  Z.of_nat (length (List.filter (fun g : Game => g.2 =? t) games)).

(** The two count lists hold, for every team, the counts of [games] on top
    of what [h0] and [a0] give. *)
Definition counted (n : nat) (st : list Z * list Z) (h0 a0 : nat → Z)
    (games : list Game) : Prop :=
  length st.1 = n ∧ length st.2 = n
  ∧ ∀ t, (t < n)%nat →
      st.1 !! t = Some (h0 t + home_games (Z.of_nat t) games)
      ∧ st.2 !! t = Some (a0 t + away_games (Z.of_nat t) games).

(** The number of rounds at the start of [rounds] in which team [t] is
    away, one after the other. *)
Fixpoint away_streak (t : Z) (rounds : list Round) : nat :=
  match rounds with
  | [] => 0
  | rnd :: rest => if is_away_in t rnd then S (away_streak t rest) else 0
  end.

(** Every id of the schedule is a team id of [0, n): no bye marker and no
    index counted from the end. *)
Definition team_ids (n : nat) (s : Schedule) : Prop :=
  Forall (Forall (fun g : Game => 0 ≤ g.1 < Z.of_nat n ∧ 0 ≤ g.2 < Z.of_nat n)) s.

(** [D[i][j]], and zero where the lookup would raise. *)
Definition dist (D : list (list Q)) (i j : Z) : Q :=
  default 0%Q (row ← Py.get D i; Py.get row j).

(** Where team [t] plays a round: at the home team of the last match of
    the round that names it; nowhere when no match does. *)
Definition venue_step (t : Z) (acc : option Z) (g : Game) : option Z :=
  if (g.2 =? t) || (g.1 =? t) then Some g.1 else acc.

Definition venue (t : Z) (rnd : Round) : option Z :=
  fold_left (venue_step t) rnd None.

(** One leg of a tour, on the pair of the place a team is at and the
    distance it has covered: moving costs the matrix entry, staying costs
    nothing. *)
Definition leg (D : list (list Q)) (st : Z * Q) (dest : Z) : Z * Q :=
  if st.1 =? dest then st else (dest, (st.2 + dist D st.1 dest)%Q).

(** A round sends the team to its venue, or leaves it where it is. *)
Definition after_round (D : list (list Q)) (t : Z) (st : Z * Q) (rnd : Round) : Z * Q :=
  leg D st (default st.1 (venue t rnd)).

(** The tour of team [t]: from home through the venues of the rounds in
    order, and home again. *)
Definition tour (D : list (list Q)) (t : Z) (s : Schedule) : Q :=
  (leg D (fold_left (after_round D t) s (t, 0%Q)) t).2.

(** The state of the evaluation holds, for every team, the place and the
    distance that [F] gives, and every place is a team id. *)
Definition on_tour (n : nat) (st : list Z * list Q) (F : nat → Z * Q) : Prop :=
  length st.1 = n ∧ length st.2 = n
  ∧ ∀ t, (t < n)%nat →
      st.1 !! t = Some (F t).1 ∧ st.2 !! t = Some (F t).2
      ∧ 0 ≤ (F t).1 < Z.of_nat n.

(** The improvements recorded so far all carry the difference zero, and
    while none is recorded the best schedule is the initial one. *)
Definition hc_logged (schedule : Schedule) (st : hc_state) : Prop :=
  Forall (fun p : nat * Q => (p.2 == 0)%Q) (hc_improvements st)
  ∧ (hc_improvements st = [] → hc_best_schedule st = schedule).

Definition sa_logged (schedule : Schedule) (st : sa_state) : Prop :=
  Forall (fun p : nat * Q => (p.2 == 0)%Q) (sa_improvements st)
  ∧ (sa_improvements st = [] → sa_best_schedule st = schedule).
(** * Proofs *)

(** ** Worked examples of the travel model and the validators *)

(** C6: on the two-team instance with D = [[0,100],[100,0]] and the schedule
    [[(0,1)]], [evaluate_schedule_travel] returns per-team distances
    [0, 200] and total 200. *)
Theorem travel_two_teams :
  evaluate_schedule_travel [[(0, 1)]] (mk_teams 2) D2 = Some ([0; 200]%Q, 200%Q).
Proof. vm_compute. reflexivity. Qed.

(** C9: the schedule [[(0,1)],[(1,0)]] with two teams fails
    [check_repeaters] and passes [validate_schedule],
    [check_max_consecutive_aways] with k = 3 and [check_home_away_balance]. *)
Theorem repeater_only_flagged :
  let s : Schedule := [[(0, 1)]; [(1, 0)]] in
  (check_repeaters s).1 = false
  ∧ (validate_schedule s 2).1 = true
  ∧ (check_max_consecutive_aways s 3).1 = true
  ∧ fst <$> check_home_away_balance s 2 = Some true.
Proof. vm_compute. repeat split; reflexivity. Qed.

(** ** The random-tape monad *)

Lemma bind_Some {A B} (m : Rand.M A) (k : A → Rand.M B) tp pos b pos' :
  (m ≫= k) tp pos = Some (b, pos') →
  ∃ a pos1, m tp pos = Some (a, pos1) ∧ k a tp pos1 = Some (b, pos').
Proof.
  unfold mbind, rand_bind, Rand.bind.
  destruct (m tp pos) as [[a pos1]|]; [eauto | discriminate].
Qed.

Lemma ret_Some {A} (a b : A) tp pos pos' :
  Rand.ret a tp pos = Some (b, pos') → b = a ∧ pos' = pos.
Proof. unfold Rand.ret. intros [= -> ->]. auto. Qed.

Lemma lift_Some {A} (o : option A) b tp pos pos' :
  Rand.lift o tp pos = Some (b, pos') → o = Some b ∧ pos' = pos.
Proof. unfold Rand.lift. destruct o; intros [= -> ->]; auto. Qed.

(** ** The validation of a candidate *)

Lemma validate_constraints_true s n rs :
  _validate_schedule_constraints s n = Some (true, rs) → passes_all s n.
Proof.
  unfold _validate_schedule_constraints, passes_all.
  destruct (validate_schedule s n) as [ok1 r1].
  destruct ok1; simpl; [|discriminate].
  destruct (check_max_consecutive_aways s 3) as [ok2 r2].
  destruct ok2; simpl; [|discriminate].
  destruct (check_repeaters s) as [ok3 r3].
  destruct ok3; simpl; [|discriminate].
  destruct (check_home_away_balance s n) as [[ok4 r4]|]; simpl; [|discriminate].
  destruct ok4; simpl; [|discriminate]. auto.
Qed.

Lemma vet_candidate_passes n cand new :
  vet_candidate true n cand = Some (Some new) → passes_all new n.
Proof.
  unfold vet_candidate. destruct cand as [[s valid]|]; [|discriminate].
  destruct valid; simpl; [|discriminate].
  destruct (_validate_schedule_constraints s n) as [[ok rs]|] eqn:E; simpl; [|discriminate].
  destruct ok; simpl; [|discriminate].
  intros [= <-]. eapply validate_constraints_true; eauto.
Qed.

Lemma Qltb_lt x y : Qltb x y = true ↔ (x < y)%Q.
Proof.
  unfold Qltb. rewrite negb_true_iff. split.
  - intros H. apply Qnot_le_lt. intros Hle.
    apply Qle_bool_iff in Hle. congruence.
  - intros H. destruct (Qle_bool y x) eqn:E; [|reflexivity].
    apply Qle_bool_iff in E. exfalso. eapply Qlt_not_le; eauto.
Qed.

Lemma below_tolerance x y : Qltb x (y - eps) = true → (x <= y)%Q.
Proof.
  intros H. apply Qltb_lt in H. apply Qlt_le_weak.
  eapply Qlt_le_trans; [exact H|].
  unfold eps. rewrite <- (Qplus_0_r y) at 2.
  apply Qplus_le_r. discriminate.
Qed.

(** ** What a run keeps true of its best-ever pair *)

Section BestTracker.

Variables (teams : list Team) (D : list (list Q)) (validate : bool) (base : Q).

(** [good] is any property that every candidate let through by the
    validation has. *)
Variable good : Schedule → Prop.
Hypothesis good_vetted : ∀ cand new,
  vet_candidate validate (Z.of_nat (length teams)) cand = Some (Some new) → good new.

Local Abbreviation tracked := (tracked teams D base good).

Lemma tracked_candidate n cand new per new_score best score :
  n = Z.of_nat (length teams) →
  vet_candidate validate n cand = Some (Some new) →
  evaluate_schedule_travel new teams D = Some (per, new_score) →
  Qltb new_score (score - eps) = true →
  tracked best score →
  tracked new new_score.
Proof.
  intros -> Hvet Heval Hlt (_ & _ & Hle). split; [|split].
  - eapply good_vetted; eauto.
  - eauto.
  - eapply Qle_trans; [eapply below_tolerance; eauto | exact Hle].
Qed.

Lemma hc_step_tracked moves st iteration tp pos st' pos' :
  hc_step teams D moves validate st iteration tp pos = Some (st', pos') →
  tracked (hc_best_schedule st) (hc_best_score st) →
  tracked (hc_best_schedule st') (hc_best_score st').
Proof.
  unfold hc_step. intros H Hinv.
  apply bind_Some in H as (move & p1 & _ & H).
  apply bind_Some in H as (cand & p2 & _ & H).
  apply bind_Some in H as (accepted & p3 & Hvet & H).
  apply lift_Some in Hvet as [Hvet _].
  destruct accepted as [new|]; [|apply ret_Some in H as [-> _]; assumption].
  apply bind_Some in H as ([per new_score] & p4 & Heval & H).
  apply lift_Some in Heval as [Heval _].
  destruct (Qltb new_score (hc_current_score st - eps));
    [|apply ret_Some in H as [-> _]; assumption].
  destruct (Qltb new_score (hc_best_score st - eps)) eqn:Hb;
    apply ret_Some in H as [-> _]; [|assumption].
  simpl. eapply tracked_candidate; eauto.
Qed.

Lemma hc_loop_tracked moves max_no_improve iters :
  ∀ st last tp pos st' last' pos',
  hc_loop teams D moves max_no_improve validate iters st last tp pos
    = Some ((st', last'), pos') →
  tracked (hc_best_schedule st) (hc_best_score st) →
  tracked (hc_best_schedule st') (hc_best_score st').
Proof.
  induction iters as [|iteration rest IH]; simpl; intros st last tp pos st' last' pos' H Hinv.
  - apply ret_Some in H as [[= -> ->] _]. assumption.
  - destruct (max_no_improve <=? hc_no_improve_count st).
    + apply ret_Some in H as [[= -> ->] _]. assumption.
    + apply bind_Some in H as (st1 & p1 & Hstep & H).
      eapply IH; [eassumption|]. eapply hc_step_tracked; eauto.
Qed.

Lemma sa_step_tracked moves decay st iteration tp pos st' pos' :
  sa_step teams D moves decay validate st iteration tp pos = Some (st', pos') →
  tracked (sa_best_schedule st) (sa_best_score st) →
  tracked (sa_best_schedule st') (sa_best_score st').
Proof.
  unfold sa_step. intros H Hinv.
  apply bind_Some in H as (move & p1 & _ & H).
  apply bind_Some in H as (cand & p2 & _ & H).
  apply bind_Some in H as (accepted & p3 & Hvet & H).
  apply lift_Some in Hvet as [Hvet _].
  destruct accepted as [new|]; [|apply ret_Some in H as [-> _]; assumption].
  apply bind_Some in H as ([per new_score] & p4 & Heval & H).
  apply lift_Some in Heval as [Heval _].
  apply bind_Some in H as (accept & p5 & _ & H).
  destruct accept; [|apply ret_Some in H as [-> _]; assumption].
  destruct (Qltb new_score (sa_best_score st - eps)) eqn:Hb;
    apply ret_Some in H as [-> _]; [|assumption].
  simpl. eapply tracked_candidate; eauto.
Qed.

Lemma sa_loop_tracked moves decay iters :
  ∀ st last tp pos st' last' pos',
  sa_loop teams D moves decay validate iters st last tp pos
    = Some ((st', last'), pos') →
  tracked (sa_best_schedule st) (sa_best_score st) →
  tracked (sa_best_schedule st') (sa_best_score st').
Proof.
  induction iters as [|iteration rest IH]; simpl; intros st last tp pos st' last' pos' H Hinv.
  - apply ret_Some in H as [[= -> ->] _]. assumption.
  - apply bind_Some in H as (st1 & p1 & Hstep & H).
    eapply IH; [eassumption|]. eapply sa_step_tracked; eauto.
Qed.

End BestTracker.

Lemma hill_climb_tracked (good : Schedule → Prop) schedule teams D moves max_iters
    max_no_improve validate tp pos per base best score lg pos' :
  (∀ cand new, vet_candidate validate (Z.of_nat (length teams)) cand = Some (Some new) → good new) →
  good schedule →
  evaluate_schedule_travel schedule teams D = Some (per, base) →
  hill_climb schedule teams D moves max_iters max_no_improve validate tp pos
    = Some ((best, score, lg), pos') →
  tracked teams D base good best score.
Proof.
  intros Hvet Hok Hbase H. unfold hill_climb in H.
  apply bind_Some in H as ([per0 cur] & p1 & Heval & H).
  apply lift_Some in Heval as [Heval _].
  apply bind_Some in H as ([st last] & p2 & Hloop & H).
  apply bind_Some in H as (iteration & p3 & _ & H).
  apply ret_Some in H as [[= -> -> ->] _].
  eapply hc_loop_tracked in Hloop; [exact Hloop|exact Hvet|].
  simpl. rewrite Heval in Hbase. injection Hbase as -> ->.
  split; [assumption|]. split; [eauto|]. apply Qle_refl.
Qed.

Lemma simulated_annealing_tracked (good : Schedule → Prop) schedule teams D moves
    T0 decay max_iters validate tp pos per base best score lg pos' :
  (∀ cand new, vet_candidate validate (Z.of_nat (length teams)) cand = Some (Some new) → good new) →
  good schedule →
  evaluate_schedule_travel schedule teams D = Some (per, base) →
  simulated_annealing schedule teams D moves T0 decay max_iters validate tp pos
    = Some ((best, score, lg), pos') →
  tracked teams D base good best score.
Proof.
  intros Hvet Hok Hbase H. unfold simulated_annealing in H.
  apply bind_Some in H as ([per0 cur] & p1 & Heval & H).
  apply lift_Some in Heval as [Heval _].
  apply bind_Some in H as ([st last] & p2 & Hloop & H).
  apply bind_Some in H as (iteration & p3 & _ & H).
  apply ret_Some in H as [[= -> -> ->] _].
  eapply sa_loop_tracked in Hloop; [exact Hloop|exact Hvet|].
  simpl. rewrite Heval in Hbase. injection Hbase as -> ->.
  split; [assumption|]. split; [eauto|]. apply Qle_refl.
Qed.

Lemma hill_climb_baseline schedule teams D moves max_iters max_no_improve validate
    tp pos res pos' :
  hill_climb schedule teams D moves max_iters max_no_improve validate tp pos
    = Some (res, pos') →
  ∃ per base, evaluate_schedule_travel schedule teams D = Some (per, base).
Proof.
  unfold hill_climb. intros H.
  apply bind_Some in H as ([per cur] & p1 & Heval & _).
  apply lift_Some in Heval as [Heval _]. eauto.
Qed.

Lemma simulated_annealing_baseline schedule teams D moves T0 decay max_iters validate
    tp pos res pos' :
  simulated_annealing schedule teams D moves T0 decay max_iters validate tp pos
    = Some (res, pos') →
  ∃ per base, evaluate_schedule_travel schedule teams D = Some (per, base).
Proof.
  unfold simulated_annealing. intros H.
  apply bind_Some in H as ([per cur] & p1 & Heval & _).
  apply lift_Some in Heval as [Heval _]. eauto.
Qed.

(** ** Claims on the optimizers *)

(** C2: when the initial schedule passes the four validators for the team
    count, the best schedule returned by [hill_climb] with [validate=True]
    passes the four validators too. *)
Theorem hill_climb_keeps_validators schedule teams D moves max_iters max_no_improve
    tp pos best score lg pos' :
  passes_all schedule (Z.of_nat (length teams)) →
  hill_climb schedule teams D moves max_iters max_no_improve true tp pos
    = Some ((best, score, lg), pos') →
  passes_all best (Z.of_nat (length teams)).
Proof.
  intros Hok H.
  destruct (hill_climb_baseline _ _ _ _ _ _ _ _ _ _ _ H) as (per & base & Hbase).
  eapply (hill_climb_tracked (fun s => passes_all s (Z.of_nat (length teams)))) in H;
    [|intros cand new; apply vet_candidate_passes|exact Hok|exact Hbase].
  destruct H as (Hv & _). exact Hv.
Qed.

Lemma hill_climb_keeps_validators_witness :
  passes_all [[(0, 1); (2, 3)]; [(0, 2); (3, 1)]; [(1, 2); (3, 0)]] 4.
Proof.
  apply (hill_climb_keeps_validators sched4 (mk_teams 4) D4 None 6 100
           counting_tape 0%nat _ 180%Q
           (Log 180%Q 6 [(1%nat, 0%Q)] None) 18%nat).
  - vm_compute. repeat split; reflexivity.
  - vm_compute. reflexivity.
Defined.

(** C4: for an iteration budget of at least one, the best score returned by
    [simulated_annealing] is at most the baseline score, the total travel of
    the initial schedule. *)
Theorem annealing_best_at_most_baseline schedule teams D moves T0 decay max_iters
    validate tp pos per base best score lg pos' :
  1 ≤ max_iters →
  evaluate_schedule_travel schedule teams D = Some (per, base) →
  simulated_annealing schedule teams D moves T0 decay max_iters validate tp pos
    = Some ((best, score, lg), pos') →
  (score <= base)%Q.
Proof.
  intros _ Hbase H.
  eapply (simulated_annealing_tracked (fun _ => True)) in H; [|auto|exact I|exact Hbase].
  destruct H as (_ & _ & Hle). exact Hle.
Qed.

Lemma annealing_best_at_most_baseline_witness : (180 <= 185)%Q.
Proof.
  apply (annealing_best_at_most_baseline sched4 (mk_teams 4) D4 None 1 (1 # 2) 6 true
           counting_tape 0%nat [60; 70; 45; 10]%Q 185%Q
           [[(1, 2); (3, 0)]; [(0, 2); (3, 1)]; [(0, 1); (2, 3)]] 180%Q
           (Log 180%Q 6 [(2%nat, 0%Q)] (Some (1 # 64)%Q)) 25%nat).
  - lia.
  - vm_compute. reflexivity.
  - vm_compute. reflexivity.
Defined.

(** C10: the best score returned by [hill_climb], and the one returned by
    [simulated_annealing], is the total travel that
    [evaluate_schedule_travel] gives for the returned best schedule with
    the same teams and distance matrix. *)
Theorem best_score_is_travel_of_best schedule teams D moves max_iters max_no_improve
    T0 decay validate tp pos best score lg pos' :
  hill_climb schedule teams D moves max_iters max_no_improve validate tp pos
    = Some ((best, score, lg), pos')
  ∨ simulated_annealing schedule teams D moves T0 decay max_iters validate tp pos
    = Some ((best, score, lg), pos') →
  ∃ per, evaluate_schedule_travel best teams D = Some (per, score).
Proof.
  intros [H|H].
  - destruct (hill_climb_baseline _ _ _ _ _ _ _ _ _ _ _ H) as (per & base & Hbase).
    eapply (hill_climb_tracked (fun _ => True)) in H; [|auto|exact I|exact Hbase].
    destruct H as (_ & Hev & _). exact Hev.
  - destruct (simulated_annealing_baseline _ _ _ _ _ _ _ _ _ _ _ _ H)
      as (per & base & Hbase).
    eapply (simulated_annealing_tracked (fun _ => True)) in H; [|auto|exact I|exact Hbase].
    destruct H as (_ & Hev & _). exact Hev.
Qed.

Lemma best_score_is_travel_of_best_witness :
  (∃ per, evaluate_schedule_travel
            [[(0, 1); (2, 3)]; [(0, 2); (3, 1)]; [(1, 2); (3, 0)]] (mk_teams 4) D4
          = Some (per, 180%Q))
  ∧ (∃ per, evaluate_schedule_travel
            [[(1, 2); (3, 0)]; [(0, 2); (3, 1)]; [(0, 1); (2, 3)]] (mk_teams 4) D4
          = Some (per, 180%Q)).
Proof.
  split.
  - apply (best_score_is_travel_of_best sched4 (mk_teams 4) D4 None 6 100 1 (1 # 2) true
             counting_tape 0%nat _ 180%Q (Log 180%Q 6 [(1%nat, 0%Q)] None) 18%nat).
    left. vm_compute. reflexivity.
  - apply (best_score_is_travel_of_best sched4 (mk_teams 4) D4 None 6 100 1 (1 # 2) true
             counting_tape 0%nat _ 180%Q
             (Log 180%Q 6 [(2%nat, 0%Q)] (Some (1 # 64)%Q)) 25%nat).
    right. vm_compute. reflexivity.
Defined.

(** ** Move primitives: feasibility and the per-round invariant *)

(** C3: [move_swap_pairings] reports feasibility on an input whose rounds
    have no repeated team and returns a schedule in which team 0 plays
    twice in one round: the conflict test does not see that the index pair
    list names match 0 of the first round twice. *)
Theorem swap_pairings_repeats_team :
  let s : Schedule := [[(0, 1)]; [(0, 2); (1, 3)]] in
  let s' : Schedule := [[(1, 3)]; [(0, 1); (0, 2)]] in
  no_repeat s
  ∧ move_swap_pairings s 0 1 [(0, 0); (0, 1)] = Some (s', true)
  ∧ ¬ no_repeat s'.
Proof.
  simpl. split; [|split].
  - apply (bool_decide_unpack _). vm_compute. reflexivity.
  - vm_compute. reflexivity.
  - apply (bool_decide_eq_false_1 _). vm_compute. reflexivity.
Qed.

(** C8: with a match index below the length of the round negated,
    [move_swap_pairings] raises [IndexError] instead of returning
    feasibility false, and with the index -1 it reports feasibility true:
    unlike its siblings it never tests an index for being negative. *)
Theorem swap_pairings_negative_index :
  let s : Schedule := [[(0, 1)]; [(2, 3)]] in
  move_swap_pairings s 0 1 [(-2, 0)] = None
  ∧ move_swap_pairings s 0 1 [(-1, -1)] = Some ([[(2, 3)]; [(0, 1)]], true).
Proof. vm_compute. split; reflexivity. Qed.

(** ** Python indexing *)

Section Indexing.

Context {A : Type}.
Implicit Types (xs : list A) (i : Z) (k : nat).


Lemma norm_in_range len i :
  0 ≤ i < Z.of_nat len → Py.norm len i = Some (Z.to_nat i).
Proof.
  intros [H1 H2]. unfold Py.norm.
  apply Z.leb_le in H1. apply Z.ltb_lt in H2. rewrite H1, H2. reflexivity.
Qed.

Lemma get_Some xs i x :
  Py.get xs i = Some x ↔ ∃ k, Py.norm (length xs) i = Some k ∧ xs !! k = Some x.
Proof.
  unfold Py.get. destruct (Py.norm (length xs) i) as [k|]; simpl.
  - split; [eauto|]. intros (k' & [= <-] & H). exact H.
  - split; [discriminate|]. intros (k' & [=] & _).
Qed.

Lemma set_Some xs i x xs' :
  Py.set xs i x = Some xs' ↔ ∃ k, Py.norm (length xs) i = Some k ∧ xs' = <[k := x]> xs.
Proof.
  unfold Py.set. destruct (Py.norm (length xs) i) as [k|]; simpl.
  - split; [intros [= <-]; eauto|]. intros (k' & [= <-] & ->). reflexivity.
  - split; [discriminate|]. intros (k' & [=] & _).
Qed.

(** Inside the range an access does not raise. *)
Lemma get_in_range xs i :
  0 ≤ i < Z.of_nat (length xs) → ∃ x, Py.get xs i = Some x ∧ xs !! Z.to_nat i = Some x.
Proof.
  intros Hi. destruct (lookup_lt_is_Some_2 xs (Z.to_nat i)) as [x Hx]; [lia|].
  exists x. split; [|exact Hx]. apply get_Some. exists (Z.to_nat i).
  split; [apply norm_in_range; exact Hi|exact Hx].
Qed.

Lemma set_in_range xs i x :
  0 ≤ i < Z.of_nat (length xs) → Py.set xs i x = Some (<[Z.to_nat i := x]> xs).
Proof.
  intros Hi. apply set_Some. exists (Z.to_nat i).
  split; [apply norm_in_range; exact Hi|reflexivity].
Qed.

Lemma norm_total len i :
  - Z.of_nat len ≤ i < Z.of_nat len → ∃ k, Py.norm len i = Some k ∧ (k < len)%nat.
Proof.
  intros Hi. unfold Py.norm.
  destruct ((0 <=? i) && (i <? Z.of_nat len)) eqn:E1.
  - eexists. split; [reflexivity|].
    apply andb_true_iff in E1 as [H1 H2]. apply Z.leb_le in H1. apply Z.ltb_lt in H2. lia.
  - assert (i < 0) as Hneg.
    { apply andb_false_iff in E1 as [H|H]; [apply Z.leb_gt in H|apply Z.ltb_ge in H]; lia. }
    assert (((i <? 0) && (- Z.of_nat len <=? i)) = true) as ->.
    { apply andb_true_iff. split; [apply Z.ltb_lt|apply Z.leb_le]; lia. }
    eexists. split; [reflexivity|lia].
Qed.

Lemma get_total xs i :
  - Z.of_nat (length xs) ≤ i < Z.of_nat (length xs) → ∃ x, Py.get xs i = Some x ∧ x ∈ xs.
Proof.
  intros Hi. destruct (norm_total _ _ Hi) as (k & Hk & Hlt).
  destruct (lookup_lt_is_Some_2 xs k Hlt) as [x Hx].
  exists x. split; [apply get_Some; eauto|]. eapply list_elem_of_lookup_2; eauto.
Qed.

Lemma set_total xs i x :
  - Z.of_nat (length xs) ≤ i < Z.of_nat (length xs) →
  ∃ k, (k < length xs)%nat ∧ Py.set xs i x = Some (<[k := x]> xs).
Proof.
  intros Hi. destruct (norm_total _ _ Hi) as (k & Hk & Hlt).
  exists k. split; [exact Hlt|]. apply set_Some. eauto.
Qed.

End Indexing.

(** The guard shared by the primitives: both round indices in range. *)
Lemma round_guard (len r1 r2 : Z) :
  (r1 <? 0) || (r2 <? 0) || (len <=? r1) || (len <=? r2) = false
  ↔ (0 ≤ r1 < len ∧ 0 ≤ r2 < len).
Proof.
  rewrite !orb_false_iff, !Z.ltb_ge, !Z.leb_gt. lia.
Qed.

(** ** The primitives never raise, and refuse indices out of range *)

Lemma move_swap_rounds_total s r1 r2 :
  ∃ s' b, move_swap_rounds s r1 r2 = Some (s', b).
Proof.
  unfold move_swap_rounds.
  destruct (_ || _) eqn:G; [eauto|]. apply round_guard in G as [H1 H2].
  destruct (get_in_range s r2 H2) as (x & -> & _).
  destruct (get_in_range s r1 H1) as (y & -> & _). simpl.
  rewrite set_in_range by exact H1. simpl.
  rewrite set_in_range by (rewrite length_insert; exact H2). simpl. eauto.
Qed.

Lemma move_swap_rounds_out_of_range s r1 r2 :
  ¬ (0 ≤ r1 < Z.of_nat (length s) ∧ 0 ≤ r2 < Z.of_nat (length s)) →
  move_swap_rounds s r1 r2 = Some (s, false).
Proof.
  intros Hout. unfold move_swap_rounds.
  destruct (_ || _) eqn:G; [reflexivity|]. apply round_guard in G. contradiction.
Qed.

Lemma slot_in_range_spec s r i :
  slot_in_range s r i ↔
  0 ≤ r < Z.of_nat (length s)
  ∧ ∃ rnd, Py.get s r = Some rnd ∧ 0 ≤ i < Z.of_nat (length rnd).
Proof.
  unfold slot_in_range. split.
  - intros (rnd & Hr & Hl & Hi). pose proof (lookup_lt_Some _ _ _ Hl) as Hlt.
    split; [lia|]. exists rnd. split; [|exact Hi].
    apply get_Some. exists (Z.to_nat r). split; [apply norm_in_range; lia|exact Hl].
  - intros (Hr & rnd & Hg & Hi). exists rnd.
    apply get_Some in Hg as (k & Hk & Hl).
    rewrite norm_in_range in Hk by exact Hr. injection Hk as <-.
    split; [lia|]. split; [exact Hl|exact Hi].
Qed.

Lemma set_item2_in_range s r i g rnd :
  0 ≤ r < Z.of_nat (length s) → s !! Z.to_nat r = Some rnd →
  0 ≤ i < Z.of_nat (length rnd) →
  set_item2 s r i g = Some (<[Z.to_nat r := <[Z.to_nat i := g]> rnd]> s).
Proof.
  intros Hr Hl Hi. unfold set_item2.
  destruct (get_in_range s r Hr) as (rnd' & -> & Hl'). simpl.
  rewrite Hl in Hl'. injection Hl' as <-.
  rewrite set_in_range by exact Hi. simpl.
  apply set_in_range. exact Hr.
Qed.

Lemma swap_items_in_range s r1 i1 r2 i2 :
  slot_in_range s r1 i1 → slot_in_range s r2 i2 →
  ∃ s', swap_items s r1 i1 r2 i2 = Some s'.
Proof.
  intros (rnd1 & Hr1 & Hl1 & Hi1) (rnd2 & Hr2 & Hl2 & Hi2).
  pose proof (lookup_lt_Some _ _ _ Hl1) as Hlt1.
  pose proof (lookup_lt_Some _ _ _ Hl2) as Hlt2.
  unfold swap_items.
  destruct (get_in_range s r2) as (x2 & -> & Hx2); [lia|]. simpl.
  rewrite Hl2 in Hx2. injection Hx2 as <-.
  destruct (get_in_range rnd2 i2 Hi2) as (x & -> & _). simpl.
  destruct (get_in_range s r1) as (x1 & -> & Hx1); [lia|]. simpl.
  rewrite Hl1 in Hx1. injection Hx1 as <-.
  destruct (get_in_range rnd1 i1 Hi1) as (y & -> & _). simpl.
  rewrite (set_item2_in_range s r1 i1 x rnd1) by (auto; lia). simpl.
  destruct (decide (Z.to_nat r1 = Z.to_nat r2)) as [E|E].
  - rewrite (set_item2_in_range _ r2 i2 y (<[Z.to_nat i1 := x]> rnd1)).
    + eauto.
    + rewrite length_insert. lia.
    + rewrite <- E. apply list_lookup_insert_eq. lia.
    + rewrite length_insert. rewrite E in Hl1. rewrite Hl1 in Hl2.
      injection Hl2 as ->. exact Hi2.
  - rewrite (set_item2_in_range _ r2 i2 y rnd2).
    + eauto.
    + rewrite length_insert. lia.
    + rewrite list_lookup_insert_ne by exact E. exact Hl2.
    + exact Hi2.
Qed.

Lemma move_swap_matches_total s r1 i1 r2 i2 :
  ∃ s' b, move_swap_matches s r1 i1 r2 i2 = Some (s', b).
Proof.
  unfold move_swap_matches.
  destruct (_ || _) eqn:G; [eauto|]. apply round_guard in G as [H1 H2].
  destruct (get_in_range s r1 H1) as (round1 & -> & Hl1).
  destruct (get_in_range s r2 H2) as (round2 & -> & Hl2). simpl.
  destruct (_ || _) eqn:G2; [eauto|].
  rewrite !orb_false_iff, !Z.ltb_ge, !Z.leb_gt in G2.
  destruct (get_in_range round1 i1) as (m1 & -> & _); [lia|].
  destruct (get_in_range round2 i2) as (m2 & -> & _); [lia|]. simpl.
  destruct (_ || _); [eauto|].
  destruct (swap_items_in_range s r1 i1 r2 i2) as (s' & ->).
  - exists round1. split; [lia|]. split; [exact Hl1|lia].
  - exists round2. split; [lia|]. split; [exact Hl2|lia].
  - simpl. eauto.
Qed.

Lemma move_swap_matches_out_of_range s r1 i1 r2 i2 :
  ¬ (slot_in_range s r1 i1 ∧ slot_in_range s r2 i2) →
  move_swap_matches s r1 i1 r2 i2 = Some (s, false).
Proof.
  intros Hout. unfold move_swap_matches.
  destruct (_ || _) eqn:G; [reflexivity|]. apply round_guard in G as [H1 H2].
  destruct (get_in_range s r1 H1) as (round1 & Hg1 & Hl1).
  destruct (get_in_range s r2 H2) as (round2 & Hg2 & Hl2).
  rewrite Hg1, Hg2. simpl.
  destruct (_ || _) eqn:G2; [reflexivity|].
  rewrite !orb_false_iff, !Z.ltb_ge, !Z.leb_gt in G2.
  exfalso. apply Hout. split; apply slot_in_range_spec.
  - split; [exact H1|]. exists round1. split; [exact Hg1|lia].
  - split; [exact H2|]. exists round2. split; [exact Hg2|lia].
Qed.

Lemma move_flip_venue_total s round_idx match_idx :
  ∃ s' b, move_flip_venue s round_idx match_idx = Some (s', b).
Proof.
  unfold move_flip_venue.
  destruct (_ || _) eqn:G; [eauto|].
  rewrite orb_false_iff, Z.ltb_ge, Z.leb_gt in G.
  destruct (get_in_range s round_idx) as (rnd & -> & Hl); [lia|]. simpl.
  destruct (_ || _) eqn:G2; [eauto|].
  rewrite orb_false_iff, Z.ltb_ge, Z.leb_gt in G2.
  destruct (get_in_range rnd match_idx) as ([home_id away_id] & -> & _); [lia|]. simpl.
  rewrite (set_item2_in_range s round_idx match_idx _ rnd) by (auto; lia).
  simpl. eauto.
Qed.

Lemma move_flip_venue_out_of_range s round_idx match_idx :
  ¬ slot_in_range s round_idx match_idx →
  move_flip_venue s round_idx match_idx = Some (s, false).
Proof.
  intros Hout. unfold move_flip_venue.
  destruct (_ || _) eqn:G; [reflexivity|].
  rewrite orb_false_iff, Z.ltb_ge, Z.leb_gt in G.
  destruct (get_in_range s round_idx) as (rnd & Hg & Hl); [lia|].
  rewrite Hg. simpl.
  destruct (_ || _) eqn:G2; [reflexivity|].
  rewrite orb_false_iff, Z.ltb_ge, Z.leb_gt in G2.
  exfalso. apply Hout. apply slot_in_range_spec.
  split; [lia|]. exists rnd. split; [exact Hg|lia].
Qed.

(** [move_swap_pairings] refuses a round index out of range, and a match
    index at or above the length of its round when no index before it in
    the list is negative. *)
Lemma move_swap_pairings_round_out_of_range s r1 r2 pairs :
  ¬ (0 ≤ r1 < Z.of_nat (length s) ∧ 0 ≤ r2 < Z.of_nat (length s)) →
  move_swap_pairings s r1 r2 pairs = Some (s, false).
Proof.
  intros Hout. unfold move_swap_pairings.
  destruct (_ || _) eqn:G; [reflexivity|]. apply round_guard in G. contradiction.
Qed.

Lemma collect_too_large round1 round2 pairs :
  Forall (fun p : Z * Z => 0 ≤ p.1 ∧ 0 ≤ p.2) pairs →
  Exists (fun p : Z * Z => Z.of_nat (length round1) ≤ p.1
                           ∨ Z.of_nat (length round2) ≤ p.2) pairs →
  ∀ st, collect_swap_teams round1 round2 pairs st = Some None.
Proof.
  induction pairs as [|[idx1 idx2] rest IH]; intros Hpos Hbig st.
  - inversion Hbig.
  - simpl. destruct (_ || _) eqn:G; [reflexivity|].
    rewrite orb_false_iff, !Z.leb_gt in G.
    apply Forall_cons in Hpos as [[Hp1 Hp2] Hpos]. simpl in Hp1, Hp2.
    destruct (get_in_range round1 idx1) as (m1 & -> & _); [lia|].
    destruct (get_in_range round2 idx2) as (m2 & -> & _); [lia|]. simpl.
    apply IH; [exact Hpos|].
    apply Exists_cons in Hbig as [Hb|Hb]; [simpl in Hb; lia|exact Hb].
Qed.

Lemma move_swap_pairings_index_too_large s r1 r2 pairs round1 round2 :
  Py.get s r1 = Some round1 → Py.get s r2 = Some round2 →
  Forall (fun p : Z * Z => 0 ≤ p.1 ∧ 0 ≤ p.2) pairs →
  Exists (fun p : Z * Z => Z.of_nat (length round1) ≤ p.1
                           ∨ Z.of_nat (length round2) ≤ p.2) pairs →
  move_swap_pairings s r1 r2 pairs = Some (s, false).
Proof.
  intros Hg1 Hg2 Hpos Hbig. unfold move_swap_pairings.
  destruct (_ || _); [reflexivity|]. rewrite Hg1, Hg2. simpl.
  rewrite collect_too_large by assumption. reflexivity.
Qed.

(** ** The per-round invariant under the primitives *)

Lemma real_ids_app (l1 l2 : Round) : real_ids (l1 ++ l2) = real_ids l1 ++ real_ids l2.
Proof. unfold real_ids. rewrite List.flat_map_app, filter_app. reflexivity. Qed.

Lemma real_ids_insert (rnd : Round) k old m :
  rnd !! k = Some old →
  real_ids rnd = real_ids (take k rnd) ++ real_ids [old] ++ real_ids (drop (S k) rnd)
  ∧ real_ids (<[k := m]> rnd)
    = real_ids (take k rnd) ++ real_ids [m] ++ real_ids (drop (S k) rnd).
Proof.
  intros Hk. pose proof (lookup_lt_Some _ _ _ Hk) as Hlt. split.
  - rewrite <- (take_drop_middle rnd k old Hk) at 1.
    rewrite real_ids_app. change (old :: drop (S k) rnd) with ([old] ++ drop (S k) rnd).
    rewrite real_ids_app. reflexivity.
  - rewrite insert_take_drop by exact Hlt.
    rewrite real_ids_app. change (m :: drop (S k) rnd) with ([m] ++ drop (S k) rnd).
    rewrite real_ids_app. reflexivity.
Qed.

Lemma elem_real_ids t (rnd : Round) :
  t ∈ real_ids rnd ↔ t ≠ -1 ∧ ∃ j m, rnd !! j = Some m ∧ (t = m.1 ∨ t = m.2).
Proof.
  unfold real_ids. rewrite list_elem_of_filter, list_elem_of_In, in_flat_map.
  split.
  - intros (Hne & m & Hin & Ht). split; [exact Hne|].
    apply list_elem_of_In, list_elem_of_lookup_1 in Hin as [j Hj].
    exists j, m. split; [exact Hj|]. simpl in Ht. intuition.
  - intros (Hne & j & m & Hj & Ht). split; [exact Hne|].
    exists m. split; [apply list_elem_of_In; eapply list_elem_of_lookup_2; eauto|].
    simpl. intuition.
Qed.

Lemma real_ids_single_flip home_id away_id :
  real_ids [(away_id, home_id)] ≡ₚ real_ids [(home_id, away_id)].
Proof.
  unfold real_ids. cbn [flat_map fst snd app].
  rewrite !filter_cons, !filter_nil.
  repeat case_decide; try reflexivity. apply perm_swap.
Qed.

Lemma move_swap_rounds_no_repeat s r1 r2 s' b :
  no_repeat s → move_swap_rounds s r1 r2 = Some (s', b) → no_repeat s'.
Proof.
  intros Hok. unfold move_swap_rounds.
  destruct (_ || _); [intros [= <- <-]; exact Hok|].
  destruct (Py.get s r2) as [x|] eqn:Hx; simpl; [|discriminate].
  destruct (Py.get s r1) as [y|] eqn:Hy; simpl; [|discriminate].
  destruct (Py.set s r1 x) as [s1|] eqn:H1; simpl; [|discriminate].
  destruct (Py.set s1 r2 y) as [s2|] eqn:H2; simpl; [|discriminate].
  intros [= <- <-]. unfold no_repeat in *.
  apply get_Some in Hx as (k2 & _ & Hx). apply get_Some in Hy as (k1 & _ & Hy).
  apply set_Some in H1 as (j1 & _ & ->). apply set_Some in H2 as (j2 & _ & ->).
  apply Forall_insert; [apply Forall_insert; [exact Hok|]|].
  - exact (Forall_lookup_1 _ _ _ _ Hok Hx).
  - exact (Forall_lookup_1 _ _ _ _ Hok Hy).
Qed.

(** Writing a match into a round of the schedule. *)
Lemma set_item2_inv s r i g s' rnd :
  Py.get s r = Some rnd → set_item2 s r i g = Some s' →
  ∃ k j, s !! k = Some rnd ∧ Py.norm (length rnd) i = Some j
         ∧ s' = <[k := <[j := g]> rnd]> s.
Proof.
  intros Hg. unfold set_item2. rewrite Hg. simpl.
  destruct (Py.set rnd i g) as [rnd'|] eqn:Hs; simpl; [|discriminate].
  intros Hset. apply get_Some in Hg as (k & Hk & Hl).
  apply set_Some in Hs as (j & Hj & ->).
  apply set_Some in Hset as (k' & Hk' & ->).
  rewrite Hk in Hk'. injection Hk' as <-. eauto.
Qed.

Lemma move_flip_venue_no_repeat s round_idx match_idx s' b :
  no_repeat s → move_flip_venue s round_idx match_idx = Some (s', b) → no_repeat s'.
Proof.
  intros Hok. unfold move_flip_venue.
  destruct (_ || _); [intros [= <- <-]; exact Hok|].
  destruct (Py.get s round_idx) as [rnd|] eqn:Hr; simpl; [|discriminate].
  destruct (_ || _); [intros [= <- <-]; exact Hok|].
  destruct (Py.get rnd match_idx) as [[home_id away_id]|] eqn:Hm; simpl; [|discriminate].
  destruct (set_item2 s round_idx match_idx (away_id, home_id)) as [s1|] eqn:Hs;
    simpl; [|discriminate].
  intros [= <- <-].
  apply (set_item2_inv _ _ _ _ _ rnd Hr) in Hs as (k & j & Hk & Hn & ->).
  apply get_Some in Hm as (j' & Hn' & Hj'). rewrite Hn in Hn'. injection Hn' as <-.
  unfold no_repeat in *. apply Forall_insert; [exact Hok|].
  pose proof (Forall_lookup_1 _ _ _ _ Hok Hk) as Hnd. cbv beta in Hnd.
  destruct (real_ids_insert rnd j _ (away_id, home_id) Hj') as [E1 E2].
  rewrite E2. rewrite E1 in Hnd.
  eapply NoDup_Permutation_proper; [|exact Hnd].
  rewrite real_ids_single_flip. reflexivity.
Qed.

Lemma elem_fold_teams (keep : nat → bool) (rnd : Round) t :
  ∀ a (acc : gset Z),
  t ∈ fold_left (fun acc (im : nat * (Z * Z)) =>
                   if keep im.1 then {[im.2.2]} ∪ ({[im.2.1]} ∪ acc) else acc)
        (zip (seq a (length rnd)) rnd) acc
  ↔ t ∈ acc ∨ ∃ j m, rnd !! j = Some m ∧ keep (a + j)%nat = true ∧ (t = m.1 ∨ t = m.2).
Proof.
  induction rnd as [|m0 rest IH]; intros a acc; simpl.
  - split; [auto|]. intros [H|(j & m & Hj & _)]; [exact H|]. discriminate.
  - rewrite IH. split.
    + intros [H|(j & m & Hj & Hk & Ht)].
      * destruct (keep a) eqn:Hka; [|auto].
        apply elem_of_union in H as [H|H].
        { right. exists 0%nat, m0. rewrite Nat.add_0_r. apply elem_of_singleton in H. auto. }
        apply elem_of_union in H as [H|H]; [|auto].
        right. exists 0%nat, m0. rewrite Nat.add_0_r. apply elem_of_singleton in H. auto.
      * right. exists (S j), m. replace (a + S j)%nat with (S a + j)%nat by lia. auto.
    + intros [H|(j & m & Hj & Hk & Ht)].
      * left. destruct (keep a); [|exact H].
        apply elem_of_union. right. apply elem_of_union. right. exact H.
      * destruct j as [|j].
        -- simpl in Hj. injection Hj as <-. rewrite Nat.add_0_r in Hk. rewrite Hk.
           left. destruct Ht as [-> | ->].
           ++ apply elem_of_union. right. apply elem_of_union. left.
              apply elem_of_singleton. reflexivity.
           ++ apply elem_of_union. left. apply elem_of_singleton. reflexivity.
        -- right. exists j, m. replace (S a + j)%nat with (a + S j)%nat by lia. auto.
Qed.

Lemma elem_round_teams keep (rnd : Round) t :
  t ∈ round_teams keep rnd
  ↔ ∃ j m, rnd !! j = Some m ∧ keep j = true ∧ (t = m.1 ∨ t = m.2).
Proof.
  unfold round_teams, Py.enumerate. rewrite elem_fold_teams. split.
  - intros [H|H]; [|exact H]. exfalso. exact (not_elem_of_empty _ H).
  - auto.
Qed.

Lemma elem_no_bye_teams t (m : Z * Z) :
  t ∈ no_bye (teams_of m) ↔ t ∈ real_ids [m].
Proof.
  rewrite elem_real_ids. unfold no_bye, teams_of. rewrite elem_of_filter. split.
  - intros (Hne & Ht). split; [exact Hne|]. exists 0%nat, m. split; [reflexivity|].
    apply elem_of_union in Ht as [Ht|Ht]; apply elem_of_singleton in Ht; auto.
  - intros (Hne & j & m' & Hj & Ht). split; [exact Hne|].
    destruct j; [|discriminate]. injection Hj as <-.
    apply elem_of_union. rewrite !elem_of_singleton. exact Ht.
Qed.

Lemma disjoint_elem (X Y : gset Z) t : X ∩ Y = ∅ → t ∈ X → t ∈ Y → False.
Proof.
  intros E H1 H2. apply (not_elem_of_empty (C := gset Z) t).
  rewrite <- E. apply elem_of_intersection. auto.
Qed.

Lemma truthy_false (X : gset Z) : truthy X = false → X = ∅.
Proof.
  unfold truthy. intros H. apply bool_decide_eq_false in H.
  destruct (decide (X = ∅)); [assumption|contradiction].
Qed.

(** Replacing the match at [j] keeps a round free of repeats when the new
    match has none and shares no real team with the other matches. *)
Lemma insert_no_repeat (rnd : Round) j old m keep :
  rnd !! j = Some old →
  (∀ idx, idx ≠ j → keep idx = true) →
  NoDup (real_ids rnd) →
  NoDup (real_ids [m]) →
  (∀ t, t ∈ real_ids [m] → t ∉ round_teams keep rnd) →
  NoDup (real_ids (<[j := m]> rnd)).
Proof.
  intros Hj Hkeep Hnd Hm Hfree.
  destruct (real_ids_insert rnd j old m Hj) as [E1 E2]. rewrite E2. rewrite E1 in Hnd.
  apply NoDup_app in Hnd as (Hpre & Hdis & Hrest).
  apply NoDup_app in Hrest as (_ & _ & Hpost).
  assert (Hother : ∀ t j' m', rnd !! j' = Some m' → j' ≠ j → (t = m'.1 ∨ t = m'.2) →
                     t ∈ round_teams keep rnd).
  { intros t j' m' Hl Hne Ht. apply elem_round_teams. exists j', m'. auto. }
  apply NoDup_app. split; [exact Hpre|]. split.
  - intros t Ht Hin. apply elem_of_app in Hin as [Hin|Hin].
    + apply (Hfree t Hin). apply elem_real_ids in Ht as (_ & j' & m' & Hl & Hm').
      apply lookup_take_Some in Hl as [Hl Hlt].
      apply (Hother t j' m'); [exact Hl|lia|exact Hm'].
    + apply (Hdis t Ht). apply elem_of_app. right. exact Hin.
  - apply NoDup_app. split; [exact Hm|]. split; [|exact Hpost].
    intros t Ht Hin. apply (Hfree t Ht).
    apply elem_real_ids in Hin as (_ & j' & m' & Hl & Hm').
    rewrite lookup_drop in Hl.
    apply (Hother t (S j + j')%nat m'); [exact Hl|lia|exact Hm'].
Qed.

Lemma single_no_repeat (rnd : Round) j m :
  rnd !! j = Some m → NoDup (real_ids rnd) → NoDup (real_ids [m]).
Proof.
  intros Hj Hnd. destruct (real_ids_insert rnd j m m Hj) as [E1 _]. rewrite E1 in Hnd.
  apply NoDup_app in Hnd as (_ & _ & Hrest).
  apply NoDup_app in Hrest as (H & _ & _). exact H.
Qed.

Lemma move_swap_matches_no_repeat s r1 i1 r2 i2 s' b :
  no_repeat s → move_swap_matches s r1 i1 r2 i2 = Some (s', b) → no_repeat s'.
Proof.
  intros Hok. unfold move_swap_matches.
  destruct (_ || _); [intros [= <- <-]; exact Hok|].
  destruct (Py.get s r1) as [round1|] eqn:Hr1; simpl; [|discriminate].
  destruct (Py.get s r2) as [round2|] eqn:Hr2; simpl; [|discriminate].
  destruct (_ || _) eqn:G; [intros [= <- <-]; exact Hok|].
  rewrite !orb_false_iff, !Z.ltb_ge, !Z.leb_gt in G.
  destruct G as (((Gi1 & Gi2) & Gl1) & Gl2).
  destruct (Py.get round1 i1) as [m1|] eqn:Hm1; simpl; [|discriminate].
  destruct (Py.get round2 i2) as [m2|] eqn:Hm2; simpl; [|discriminate].
  destruct (_ || _) eqn:C; [intros [= <- <-]; exact Hok|].
  apply orb_false_iff in C as [C1 C2].
  apply truthy_false in C1. apply truthy_false in C2.
  destruct (swap_items s r1 i1 r2 i2) as [s2|] eqn:Hswap; simpl; [|discriminate].
  intros [= <- <-].
  unfold swap_items in Hswap. rewrite Hr2, Hr1 in Hswap. simpl in Hswap.
  rewrite Hm2, Hm1 in Hswap. simpl in Hswap.
  destruct (set_item2 s r1 i1 m2) as [s1|] eqn:H1; simpl in Hswap; [|discriminate].
  apply (set_item2_inv _ _ _ _ _ round1 Hr1) in H1 as (k1 & j1 & Hk1 & Hn1 & ->).
  rewrite norm_in_range in Hn1 by lia. injection Hn1 as <-.
  apply get_Some in Hm1 as (j1 & Hn1 & Hj1).
  rewrite norm_in_range in Hn1 by lia. injection Hn1 as <-.
  apply get_Some in Hm2 as (j2 & Hn2 & Hj2).
  rewrite norm_in_range in Hn2 by lia. injection Hn2 as <-.
  apply get_Some in Hr2 as (k2 & Hnk2 & Hk2).
  pose proof (lookup_lt_Some _ _ _ Hk1) as Hlt1.
  pose proof (Forall_lookup_1 _ _ _ _ Hok Hk1) as Hnd1.
  pose proof (Forall_lookup_1 _ _ _ _ Hok Hk2) as Hnd2. cbv beta in Hnd1, Hnd2.
  (* the first write leaves round r1 free of repeats *)
  assert (Hnew1 : NoDup (real_ids (<[Z.to_nat i1 := m2]> round1))).
  { eapply (insert_no_repeat round1 _ m1 m2 (fun idx => negb (Z.of_nat idx =? i1)));
      [exact Hj1| |exact Hnd1| |].
    - intros idx Hne. cbv beta. apply negb_true_iff, Z.eqb_neq. lia.
    - eapply single_no_repeat; eauto.
    - intros t Ht Hin. apply elem_no_bye_teams in Ht.
      exact (disjoint_elem _ _ t C2 Ht Hin). }
  assert (Hok1 : no_repeat (<[k1 := <[Z.to_nat i1 := m2]> round1]> s)).
  { apply Forall_insert; assumption. }
  (* the second write *)
  destruct (decide (k1 = k2)) as [Ek|Ek].
  - subst k2. rewrite Hk1 in Hk2. injection Hk2 as <-.
    assert (Hg : Py.get (<[k1 := <[Z.to_nat i1 := m2]> round1]> s) r2
                 = Some (<[Z.to_nat i1 := m2]> round1)).
    { apply get_Some. exists k1. rewrite length_insert. split; [exact Hnk2|].
      apply list_lookup_insert_eq. exact Hlt1. }
    apply (set_item2_inv _ _ _ _ _ _ Hg) in Hswap as (k & j & Hk & Hn & ->).
    rewrite length_insert in Hn. rewrite norm_in_range in Hn by lia. injection Hn as <-.
    apply Forall_insert; [exact Hok1|].
    destruct (decide (Z.to_nat i1 = Z.to_nat i2)) as [Ei|Ei].
    + rewrite Ei, list_insert_insert_eq. rewrite Ei in Hj1. rewrite Hj1 in Hj2.
      injection Hj2 as ->. rewrite list_insert_id by exact Hj1. exact Hnd1.
    + assert (Hempty : real_ids [m1] = []).
      { destruct (real_ids [m1]) as [|t l] eqn:E; [reflexivity|]. exfalso.
        assert (Ht : t ∈ real_ids [m1]) by (rewrite E; left).
        pose proof Ht as Ht'. apply elem_no_bye_teams in Ht.
        assert (Hin : t ∈ round_teams (fun idx => negb (Z.of_nat idx =? i2)) round1).
        { apply elem_real_ids in Ht' as (_ & j & m & Hl & Hm).
          destruct j; [|discriminate]. injection Hl as <-.
          apply elem_round_teams. exists (Z.to_nat i1), m1.
          split; [exact Hj1|]. split; [|exact Hm].
          apply negb_true_iff, Z.eqb_neq. lia. }
        exact (disjoint_elem _ _ t C1 Ht Hin). }
      eapply (insert_no_repeat _ (Z.to_nat i2) m2 m1 (fun _ => true)).
      * rewrite list_lookup_insert_ne by exact Ei. exact Hj2.
      * reflexivity.
      * exact Hnew1.
      * rewrite Hempty. constructor.
      * rewrite Hempty. intros t Ht. inversion Ht.
  - assert (Hg : Py.get (<[k1 := <[Z.to_nat i1 := m2]> round1]> s) r2 = Some round2).
    { apply get_Some. exists k2. rewrite length_insert. split; [exact Hnk2|].
      rewrite list_lookup_insert_ne by exact Ek. exact Hk2. }
    apply (set_item2_inv _ _ _ _ _ _ Hg) in Hswap as (k & j & Hk & Hn & ->).
    rewrite norm_in_range in Hn by lia. injection Hn as <-.
    apply Forall_insert; [exact Hok1|].
    eapply (insert_no_repeat round2 _ m2 m1 (fun idx => negb (Z.of_nat idx =? i2)));
      [exact Hj2| |exact Hnd2| |].
    + intros idx Hne. cbv beta. apply negb_true_iff, Z.eqb_neq. lia.
    + eapply single_no_repeat; [exact Hj1|exact Hnd1].
    + intros t Ht Hin. apply elem_no_bye_teams in Ht.
      exact (disjoint_elem _ _ t C1 Ht Hin).
Qed.

(** ** When the optimizers return *)

Section Loops.

Context {S B : Type}.

(** A loop whose body keeps an invariant and never raises on it returns. *)
Lemma for_each_inv (f : S → B → option S) (I : S → Prop) (P : B → Prop) xs :
  (∀ st x, I st → P x → ∃ st', f st x = Some st' ∧ I st') →
  Forall P xs →
  ∀ st, I st → ∃ st', Py.for_each f xs st = Some st' ∧ I st'.
Proof.
  intros Hstep HP. induction HP as [|x xs Hx _ IH]; intros st Hst; simpl.
  - eauto.
  - destruct (Hstep st x Hst Hx) as (st1 & -> & H1). simpl. apply IH. exact H1.
Qed.

End Loops.

(** The same for a loop over [range], with an invariant that knows how far
    the loop has come. *)
Lemma for_each_seq_inv {S} (f : S → nat → option S) (I : nat → S → Prop) k :
  ∀ a st,
  I a st →
  (∀ t st, (a ≤ t < a + k)%nat → I t st → ∃ st', f st t = Some st' ∧ I (Datatypes.S t) st') →
  ∃ st', Py.for_each f (seq a k) st = Some st' ∧ I (a + k)%nat st'.
Proof.
  induction k as [|k IH]; intros a st Hst Hstep; simpl.
  - rewrite Nat.add_0_r. eauto.
  - destruct (Hstep a st ltac:(lia) Hst) as (st1 & -> & H1). simpl.
    replace (a + Datatypes.S k)%nat with (Datatypes.S a + k)%nat by lia.
    apply IH; [exact H1|]. intros t st2 Ht. apply Hstep. lia.
Qed.


(** *** The travel evaluation returns *)

Section TravelReturns.

Variables (n : nat) (D : list (list Q)).
Hypothesis HD : square n D.

Lemma matrix_entry l dest :
  in_range n l → in_range n dest →
  ∃ row dist, Py.get D l = Some row ∧ Py.get row dest = Some dist.
Proof.
  intros Hl Hd. destruct HD as [Hlen Hrows]. unfold in_range in *.
  destruct (get_total D l) as (row & Hrow & Hin); [rewrite Hlen; exact Hl|].
  rewrite Forall_forall in Hrows. pose proof (Hrows row Hin) as Hrl.
  destruct (get_total row dest) as (dist & Hdist & _); [rewrite Hrl; exact Hd|].
  eauto.
Qed.

Lemma place_match_placed round_loc (g : Z * Z) :
  placed n round_loc → in_range n g.1 ∧ in_range n g.2 →
  ∃ rl, place_match round_loc g = Some rl ∧ placed n rl.
Proof.
  intros [Hlen Hall] [Hh Ha]. destruct g as [home away]. simpl in Hh, Ha.
  unfold place_match, in_range in *.
  destruct (set_total round_loc home (Some home)) as (k1 & Hk1 & ->);
    [rewrite Hlen; exact Hh|]. simpl.
  destruct (set_total (<[k1 := Some home]> round_loc) away (Some home))
    as (k2 & Hk2 & ->); [rewrite length_insert, Hlen; exact Ha|].
  eexists. split; [reflexivity|]. split.
  - rewrite !length_insert. exact Hlen.
  - apply Forall_insert; [apply Forall_insert; [exact Hall|]|];
      intros d [= <-]; exact Hh.
Qed.

Lemma stay_put_placed loc round_loc t :
  (t < n)%nat → length loc = n → Forall (in_range n) loc →
  placed n round_loc →
  (∀ u, (u < t)%nat → ∃ d, round_loc !! u = Some (Some d)) →
  ∃ rl, stay_put loc round_loc t = Some rl ∧ placed n rl
        ∧ ∀ u, (u < Datatypes.S t)%nat → ∃ d, rl !! u = Some (Some d).
Proof.
  intros Ht Hll Hloc [Hlen Hall] Hdone. unfold stay_put.
  destruct (lookup_lt_is_Some_2 round_loc t) as [cur Hcur]; [lia|].
  rewrite Hcur. simpl. destruct cur as [d|].
  - eexists. split; [reflexivity|]. split; [split; assumption|].
    intros u Hu. destruct (decide (u = t)) as [->|Hne]; [eauto|]. apply Hdone. lia.
  - destruct (lookup_lt_is_Some_2 loc t) as [l Hl]; [lia|]. rewrite Hl. simpl.
    eexists. split; [reflexivity|]. split; [split|].
    + rewrite length_insert. exact Hlen.
    + apply Forall_insert; [exact Hall|]. intros d [= <-].
      exact (Forall_lookup_1 _ _ _ _ Hloc Hl).
    + intros u Hu. destruct (decide (u = t)) as [->|Hne].
      * exists l. apply list_lookup_insert_eq. lia.
      * rewrite list_lookup_insert_ne by auto. apply Hdone. lia.
Qed.

Lemma move_team_located round_loc st t :
  (t < n)%nat → placed n round_loc →
  (∀ u, (u < n)%nat → ∃ d, round_loc !! u = Some (Some d)) →
  located n st →
  ∃ st', move_team D round_loc st t = Some st' ∧ located n st'.
Proof.
  intros Ht [Hlen Hall] Hfull (Hl1 & Hl2 & Hloc). destruct st as [loc tot_team].
  simpl in Hl1, Hl2, Hloc. unfold move_team.
  destruct (lookup_lt_is_Some_2 loc t) as [l Hl]; [lia|]. rewrite Hl. simpl.
  destruct (Hfull t Ht) as [dest Hdest]. rewrite Hdest. simpl.
  destruct (l =? dest); [eexists; split; [reflexivity|repeat split; assumption]|].
  pose proof (Forall_lookup_1 _ _ _ _ Hloc Hl) as Hlr.
  pose proof (Forall_lookup_1 _ _ _ _ Hall Hdest dest eq_refl) as Hdr.
  destruct (matrix_entry l dest Hlr Hdr) as (row & dist & -> & Hdist). simpl.
  rewrite Hdist. simpl.
  destruct (lookup_lt_is_Some_2 tot_team t) as [tot Htot]; [lia|]. rewrite Htot. simpl.
  eexists. split; [reflexivity|]. repeat split; simpl.
  - rewrite length_insert. exact Hl1.
  - rewrite length_insert. exact Hl2.
  - apply Forall_insert; assumption.
Qed.

Lemma return_home_located st t :
  (t < n)%nat → located n st →
  ∃ st', return_home D st t = Some st' ∧ located n st'.
Proof.
  intros Ht (Hl1 & Hl2 & Hloc). destruct st as [loc tot_team].
  simpl in Hl1, Hl2, Hloc. unfold return_home.
  destruct (lookup_lt_is_Some_2 loc t) as [l Hl]; [lia|]. rewrite Hl. simpl.
  destruct (l =? Z.of_nat t); [eexists; split; [reflexivity|repeat split; assumption]|].
  pose proof (Forall_lookup_1 _ _ _ _ Hloc Hl) as Hlr.
  assert (Htr : in_range n (Z.of_nat t)) by (unfold in_range; lia).
  destruct (matrix_entry l _ Hlr Htr) as (row & dist & -> & Hdist). simpl.
  rewrite Hdist. simpl.
  destruct (lookup_lt_is_Some_2 tot_team t) as [tot Htot]; [lia|]. rewrite Htot. simpl.
  eexists. split; [reflexivity|]. repeat split; simpl.
  - rewrite length_insert. exact Hl1.
  - rewrite length_insert. exact Hl2.
  - apply Forall_insert; assumption.
Qed.

Lemma travel_round_located st (rnd : Round) :
  located n st →
  Forall (fun g : Z * Z => in_range n g.1 ∧ in_range n g.2) rnd →
  ∃ st', travel_round n D st rnd = Some st' ∧ located n st'.
Proof.
  intros Hst Hrnd. unfold travel_round.
  destruct (for_each_inv place_match (placed n) _ rnd place_match_placed Hrnd
              (replicate n None)) as (rl1 & -> & Hrl1).
  { split; [apply length_replicate|]. apply Forall_replicate. discriminate. }
  simpl. pose proof Hst as (Hl1 & Hl2 & Hloc).
  destruct (for_each_seq_inv (stay_put st.1)
              (fun t rl => placed n rl ∧ ∀ u, (u < t)%nat → ∃ d, rl !! u = Some (Some d))
              n 0%nat rl1) as (rl2 & -> & Hrl2 & Hfull).
  { split; [exact Hrl1|]. intros u Hu. lia. }
  { intros t rl Ht [Hp Hdone].
    destruct (stay_put_placed st.1 rl t) as (rl' & Hs & Hp' & Hd'); auto; [lia|]. eauto. }
  simpl.
  destruct (for_each_seq_inv (move_team D rl2) (fun _ st => located n st) n 0%nat st)
    as (st' & -> & Hst'); [exact Hst| |eauto].
  intros t st0 Ht Hst0. apply move_team_located; auto. lia.
Qed.

Lemma evaluate_returns (teams : list Team) (s : Schedule) :
  length teams = n → ids_in_range n s →
  ∃ per total, evaluate_schedule_travel s teams D = Some (per, total).
Proof.
  intros Hn Hs. unfold evaluate_schedule_travel. rewrite Hn.
  destruct (for_each_inv (travel_round n D) (located n) _ s travel_round_located Hs
              (map Z.of_nat (seq 0 n), replicate n 0%Q)) as (st1 & -> & Hst1).
  { repeat split; simpl.
    - rewrite length_map, length_seq. reflexivity.
    - apply length_replicate.
    - apply List.Forall_forall. intros t Hin. apply in_map_iff in Hin as (k & <- & Hk).
      apply in_seq in Hk. unfold in_range. lia. }
  simpl.
  destruct (for_each_seq_inv (return_home D) (fun _ st => located n st) n 0%nat st1)
    as (st2 & -> & _); [exact Hst1| |simpl; eauto].
  intros t st0 Ht Hst0. apply return_home_located; auto. lia.
Qed.

End TravelReturns.

(** *** The validation of a candidate returns *)

Section VetReturns.

Variable n : nat.

Lemma bump_length count i :
  length count = n → in_range n i → ∃ c, bump count i = Some c ∧ length c = n.
Proof.
  intros Hlen Hi. unfold bump, in_range in *.
  destruct (get_total count i) as (c & -> & _); [rewrite Hlen; exact Hi|]. simpl.
  destruct (set_total count i (c + 1)) as (k & _ & ->); [rewrite Hlen; exact Hi|].
  eexists. split; [reflexivity|]. rewrite length_insert. exact Hlen.
Qed.

Lemma balance_match_counts (st : list Z * list Z) (g : Z * Z) :
  length st.1 = n ∧ length st.2 = n →
  in_range n g.1 ∧ in_range n g.2 →
  ∃ st', balance_match (Z.of_nat n) st g = Some st' ∧ length st'.1 = n ∧ length st'.2 = n.
Proof.
  intros [H1 H2] [Hh Ha]. destruct st as [home_count away_count], g as [home_id away_id].
  simpl in *. unfold balance_match.
  assert (∃ hc, (if negb (home_id =? -1) && (home_id <? Z.of_nat n)
                 then bump home_count home_id else Some home_count) = Some hc
                ∧ length hc = n) as (hc & -> & Hhc).
  { destruct (_ && _); [apply bump_length; assumption|eauto]. }
  simpl.
  assert (∃ ac, (if negb (away_id =? -1) && (away_id <? Z.of_nat n)
                 then bump away_count away_id else Some away_count) = Some ac
                ∧ length ac = n) as (ac & -> & Hac).
  { destruct (_ && _); [apply bump_length; assumption|eauto]. }
  simpl. eauto.
Qed.

Lemma check_home_away_balance_returns (s : Schedule) :
  ids_in_range n s → ∃ res, check_home_away_balance s (Z.of_nat n) = Some res.
Proof.
  intros Hs. unfold check_home_away_balance. destruct s as [|rnd0 rest]; [eauto|].
  rewrite Nat2Z.id.
  destruct (for_each_inv
              (fun st round_matches =>
                 Py.for_each (balance_match (Z.of_nat n)) round_matches st)
              (fun st : list Z * list Z => length st.1 = n ∧ length st.2 = n)
              (Forall (fun g : Z * Z => in_range n g.1 ∧ in_range n g.2))
              (rnd0 :: rest)) with (st := (replicate n 0, replicate n 0))
    as (counts & -> & Hc1 & Hc2).
  - intros st rnd Hst Hrnd.
    apply (for_each_inv _ _ _ rnd balance_match_counts Hrnd st Hst).
  - exact Hs.
  - simpl. rewrite !length_replicate. auto.
  - simpl. unfold Py.range. rewrite Nat2Z.id.
    destruct (for_each_seq_inv (balance_team counts.1 counts.2) (fun _ _ => True)
                n 0%nat []) as (reasons & -> & _); [exact I| |simpl; eauto].
    intros t rs Ht _. unfold balance_team.
    destruct (lookup_lt_is_Some_2 counts.1 t) as [h ->]; [lia|].
    destruct (lookup_lt_is_Some_2 counts.2 t) as [a ->]; [lia|]. simpl. eauto.
Qed.

Lemma validate_constraints_returns (s : Schedule) :
  ids_in_range n s → ∃ res, _validate_schedule_constraints s (Z.of_nat n) = Some res.
Proof.
  intros Hs. unfold _validate_schedule_constraints.
  destruct (validate_schedule s (Z.of_nat n)) as [ok1 r1].
  destruct ok1; simpl; [|eauto].
  destruct (check_max_consecutive_aways s 3) as [ok2 r2].
  destruct ok2; simpl; [|eauto].
  destruct (check_repeaters s) as [ok3 r3].
  destruct ok3; simpl; [|eauto].
  destruct (check_home_away_balance_returns s Hs) as ([ok4 r4] & ->). simpl.
  destruct ok4; simpl; eauto.
Qed.

Lemma vet_candidate_returns validate (cand : option (Schedule * bool)) :
  (∀ new b, cand = Some (new, b) → ids_in_range n new) →
  ∃ accepted, vet_candidate validate (Z.of_nat n) cand = Some accepted
              ∧ ∀ new, accepted = Some new → ∃ b, cand = Some (new, b).
Proof.
  intros Hc. unfold vet_candidate. destruct cand as [[new b]|]; [|eexists; split; [eauto|discriminate]].
  destruct b; simpl; [|eexists; split; [eauto|discriminate]].
  destruct validate.
  - destruct (validate_constraints_returns new (Hc _ _ eq_refl)) as ([ok rs] & ->). simpl.
    destruct ok; simpl; eexists; (split; [reflexivity|]);
      [intros ? [= <-]; eauto|discriminate].
  - eexists. split; [reflexivity|]. intros ? [= <-]. eauto.
Qed.

End VetReturns.

(** *** The primitives keep the shape of the schedule *)

Section Shape.

Variable Q1 : Z * Z → Prop.

Lemma set_item2_shape (s : Schedule) r i g s' :
  set_item2 s r i g = Some s' →
  length s' = length s ∧ (Forall (Forall Q1) s → Q1 g → Forall (Forall Q1) s').
Proof.
  unfold set_item2.
  destruct (Py.get s r) as [rnd|] eqn:Hg; simpl; [|discriminate].
  destruct (Py.set rnd i g) as [rnd'|] eqn:Hs; simpl; [|discriminate].
  intros Hset. apply get_Some in Hg as (k & _ & Hk).
  apply set_Some in Hs as (j & _ & ->). apply set_Some in Hset as (k' & _ & ->).
  split; [apply length_insert|]. intros Hall Hq.
  apply Forall_insert; [exact Hall|]. apply Forall_insert; [|exact Hq].
  exact (Forall_lookup_1 _ _ _ _ Hall Hk).
Qed.

Lemma item_shape (s : Schedule) r i (rnd : Round) g :
  Py.get s r = Some rnd → Py.get rnd i = Some g → Forall (Forall Q1) s → Q1 g.
Proof.
  intros Hr Hg Hall. apply get_Some in Hr as (k & _ & Hk).
  apply get_Some in Hg as (j & _ & Hj).
  pose proof (Forall_lookup_1 _ _ _ _ Hall Hk) as Hrnd.
  exact (Forall_lookup_1 _ _ _ _ Hrnd Hj).
Qed.

Lemma swap_items_shape (s : Schedule) r1 i1 r2 i2 s' :
  swap_items s r1 i1 r2 i2 = Some s' →
  length s' = length s ∧ (Forall (Forall Q1) s → Forall (Forall Q1) s').
Proof.
  unfold swap_items.
  destruct (Py.get s r2) as [rnd2|] eqn:Hr2; simpl; [|discriminate].
  destruct (Py.get rnd2 i2) as [x|] eqn:Hx; simpl; [|discriminate].
  destruct (Py.get s r1) as [rnd1|] eqn:Hr1; simpl; [|discriminate].
  destruct (Py.get rnd1 i1) as [y|] eqn:Hy; simpl; [|discriminate].
  destruct (set_item2 s r1 i1 x) as [s1|] eqn:H1; simpl; [|discriminate].
  intros H2. apply set_item2_shape in H1 as [L1 F1]. apply set_item2_shape in H2 as [L2 F2].
  split; [congruence|]. intros Hall. apply F2; [apply F1; [exact Hall|]|].
  - exact (item_shape _ _ _ _ _ Hr2 Hx Hall).
  - exact (item_shape _ _ _ _ _ Hr1 Hy Hall).
Qed.

Lemma move_swap_rounds_shape (s : Schedule) r1 r2 s' b :
  move_swap_rounds s r1 r2 = Some (s', b) →
  length s' = length s ∧ (Forall (Forall Q1) s → Forall (Forall Q1) s').
Proof.
  unfold move_swap_rounds.
  destruct (_ || _); [intros [= <- <-]; auto|].
  destruct (Py.get s r2) as [x|] eqn:Hx; simpl; [|discriminate].
  destruct (Py.get s r1) as [y|] eqn:Hy; simpl; [|discriminate].
  destruct (Py.set s r1 x) as [s1|] eqn:H1; simpl; [|discriminate].
  destruct (Py.set s1 r2 y) as [s2|] eqn:H2; simpl; [|discriminate].
  intros [= <- <-].
  apply get_Some in Hx as (k2 & _ & Hx). apply get_Some in Hy as (k1 & _ & Hy).
  apply set_Some in H1 as (j1 & _ & ->). apply set_Some in H2 as (j2 & _ & ->).
  split; [rewrite !length_insert; reflexivity|]. intros Hall.
  apply Forall_insert; [apply Forall_insert; [exact Hall|]|].
  - exact (Forall_lookup_1 _ _ _ _ Hall Hx).
  - exact (Forall_lookup_1 _ _ _ _ Hall Hy).
Qed.

Lemma move_swap_matches_shape (s : Schedule) r1 i1 r2 i2 s' b :
  move_swap_matches s r1 i1 r2 i2 = Some (s', b) →
  length s' = length s ∧ (Forall (Forall Q1) s → Forall (Forall Q1) s').
Proof.
  unfold move_swap_matches.
  destruct (_ || _); [intros [= <- <-]; auto|].
  destruct (Py.get s r1) as [round1|]; simpl; [|discriminate].
  destruct (Py.get s r2) as [round2|]; simpl; [|discriminate].
  destruct (_ || _); [intros [= <- <-]; auto|].
  destruct (Py.get round1 i1) as [m1|]; simpl; [|discriminate].
  destruct (Py.get round2 i2) as [m2|]; simpl; [|discriminate].
  destruct (_ || _); [intros [= <- <-]; auto|].
  destruct (swap_items s r1 i1 r2 i2) as [s2|] eqn:Hswap; simpl; [|discriminate].
  intros [= <- <-]. apply swap_items_shape in Hswap. exact Hswap.
Qed.

Hypothesis Q1_flip : ∀ home_id away_id, Q1 (home_id, away_id) → Q1 (away_id, home_id).

Lemma move_flip_venue_shape (s : Schedule) round_idx match_idx s' b :
  move_flip_venue s round_idx match_idx = Some (s', b) →
  length s' = length s ∧ (Forall (Forall Q1) s → Forall (Forall Q1) s').
Proof.
  unfold move_flip_venue.
  destruct (_ || _); [intros [= <- <-]; auto|].
  destruct (Py.get s round_idx) as [rnd|] eqn:Hr; simpl; [|discriminate].
  destruct (_ || _); [intros [= <- <-]; auto|].
  destruct (Py.get rnd match_idx) as [[home_id away_id]|] eqn:Hm; simpl; [|discriminate].
  destruct (set_item2 s round_idx match_idx (away_id, home_id)) as [s1|] eqn:Hs;
    simpl; [|discriminate].
  intros [= <- <-]. apply set_item2_shape in Hs as [L F].
  split; [exact L|]. intros Hall. apply F; [exact Hall|].
  apply Q1_flip. exact (item_shape _ _ _ _ _ Hr Hm Hall).
Qed.

End Shape.

(** *** The random source *)

Lemma bind_run {A B} (m : Rand.M A) (k : A → Rand.M B) tp pos a pos1 :
  m tp pos = Some (a, pos1) → (m ≫= k) tp pos = k a tp pos1.
Proof. intros H. unfold mbind, rand_bind, Rand.bind. rewrite H. reflexivity. Qed.

Lemma choice_returns {A} (xs : list A) tp pos :
  xs ≠ [] → ∃ x, choice xs tp pos = Some (x, Datatypes.S pos).
Proof.
  intros Hne. unfold choice.
  destruct (lookup_lt_is_Some_2 xs (tp pos mod length xs)%nat) as [x Hx].
  { apply Nat.mod_upper_bound. destruct xs; [contradiction|discriminate]. }
  exists x. erewrite bind_run by reflexivity. unfold Rand.lift. rewrite Hx. reflexivity.
Qed.

Lemma sample2_returns (len : nat) tp pos :
  (2 ≤ len)%nat →
  ∃ r1 r2, sample2 len tp pos = Some ((r1, r2), Datatypes.S (Datatypes.S pos))
           ∧ 0 ≤ r1 < Z.of_nat len ∧ 0 ≤ r2 < Z.of_nat len.
Proof.
  intros Hlen. unfold sample2.
  destruct (Nat.ltb_spec len 2); [lia|].
  erewrite bind_run by reflexivity. erewrite bind_run by reflexivity.
  eexists _, _. split; [reflexivity|].
  pose proof (Nat.mod_upper_bound (tp pos) len ltac:(lia)).
  pose proof (Nat.mod_upper_bound (tp (Datatypes.S pos)) (len - 1) ltac:(lia)).
  destruct (Nat.ltb_spec (tp (Datatypes.S pos) mod (len - 1)) (tp pos mod len)); lia.
Qed.

Lemma randint_returns hi tp pos :
  0 ≤ hi → ∃ x, randint 0 hi tp pos = Some (x, Datatypes.S pos) ∧ 0 ≤ x ≤ hi.
Proof.
  intros Hhi. unfold randint. destruct (Z.ltb_spec hi 0); [lia|].
  erewrite bind_run by reflexivity. eexists. split; [reflexivity|].
  pose proof (Z.mod_pos_bound (Z.of_nat (tp pos)) (hi - 0 + 1) ltac:(lia)). lia.
Qed.

(** *** One proposal, one step, the loops *)

Section Returns.

Variables (n : nat) (teams : list Team) (D : list (list Q)).
Hypothesis Hteams : length teams = n.
Hypothesis HD : square n D.

Lemma ids_flip (home_id away_id : Z) :
  in_range n (home_id, away_id).1 ∧ in_range n (home_id, away_id).2 →
  in_range n (away_id, home_id).1 ∧ in_range n (away_id, home_id).2.
Proof. simpl. tauto. Qed.

Lemma propose_returns (cur : Schedule) move tp pos :
  cur ≠ [] → ids_in_range n cur →
  ∃ cand pos', propose cur move tp pos = Some (cand, pos')
    ∧ ∀ new b, cand = Some (new, b) → length new = length cur ∧ ids_in_range n new.
Proof.
  intros Hne Hids. unfold propose.
  assert (Hnone : ∀ p, ∃ cand pos',
             Rand.ret (None : option (Schedule * bool)) tp p = Some (cand, pos')
             ∧ ∀ new b, cand = Some (new, b) → length new = length cur ∧ ids_in_range n new).
  { intros p. eexists _, _. split; [reflexivity|]. discriminate. }
  destruct move; cbn [move_func_eqb].
  - destruct (Nat.ltb_spec (length cur) 2) as [|Hlen]; [apply Hnone|].
    destruct (sample2_returns (length cur) tp pos Hlen) as (r1 & r2 & Hs & _ & _).
    erewrite bind_run by exact Hs. cbv beta iota.
    destruct (move_swap_rounds_total cur r1 r2) as (s' & b & Hm).
    erewrite bind_run by (unfold Rand.lift; rewrite Hm; reflexivity).
    eexists _, _. split; [reflexivity|]. intros new b' [= <- <-].
    destruct (move_swap_rounds_shape
                (fun g : Z * Z => in_range n g.1 ∧ in_range n g.2) _ _ _ _ _ Hm) as [L F].
    split; [exact L|exact (F Hids)].
  - destruct (Nat.ltb_spec (length cur) 2) as [|Hlen]; [apply Hnone|].
    destruct (sample2_returns (length cur) tp pos Hlen) as (r1 & r2 & Hs & Hr1 & Hr2).
    erewrite bind_run by exact Hs. cbv beta iota.
    destruct (get_in_range cur r1 Hr1) as (round1 & Hg1 & _).
    destruct (get_in_range cur r2 Hr2) as (round2 & Hg2 & _).
    erewrite bind_run by (unfold Rand.lift; rewrite Hg1; reflexivity).
    erewrite bind_run by (unfold Rand.lift; rewrite Hg2; reflexivity).
    destruct (Nat.eqb_spec (length round1) 0) as [|H1]; [apply Hnone|].
    destruct (Nat.eqb_spec (length round2) 0) as [|H2]; [apply Hnone|]. cbn [orb].
    destruct (randint_returns (Z.of_nat (length round1) - 1) tp
                (Datatypes.S (Datatypes.S pos)) ltac:(lia)) as (i1 & Hi1 & _).
    erewrite bind_run by exact Hi1.
    destruct (randint_returns (Z.of_nat (length round2) - 1) tp
                (Datatypes.S (Datatypes.S (Datatypes.S pos))) ltac:(lia)) as (i2 & Hi2 & _).
    erewrite bind_run by exact Hi2.
    destruct (move_swap_matches_total cur r1 i1 r2 i2) as (s' & b & Hm).
    erewrite bind_run by (unfold Rand.lift; rewrite Hm; reflexivity).
    eexists _, _. split; [reflexivity|]. intros new b' [= <- <-].
    destruct (move_swap_matches_shape
                (fun g : Z * Z => in_range n g.1 ∧ in_range n g.2) _ _ _ _ _ _ _ Hm)
      as [L F].
    split; [exact L|exact (F Hids)].
  - assert (Hlen : 0 ≤ Z.of_nat (length cur) - 1) by (destruct cur; [contradiction|simpl; lia]).
    destruct (randint_returns _ tp pos Hlen) as (r & Hr & Hrr).
    erewrite bind_run by exact Hr.
    destruct (get_in_range cur r ltac:(lia)) as (rnd & Hg & _).
    erewrite bind_run by (unfold Rand.lift; rewrite Hg; reflexivity).
    destruct (Nat.eqb_spec (length rnd) 0) as [|H1]; [apply Hnone|].
    destruct (randint_returns (Z.of_nat (length rnd) - 1) tp (Datatypes.S pos) ltac:(lia))
      as (i & Hi & _).
    erewrite bind_run by exact Hi.
    destruct (move_flip_venue_total cur r i) as (s' & b & Hm).
    erewrite bind_run by (unfold Rand.lift; rewrite Hm; reflexivity).
    eexists _, _. split; [reflexivity|]. intros new b' [= <- <-].
    destruct (move_flip_venue_shape
                (fun g : Z * Z => in_range n g.1 ∧ in_range n g.2) ids_flip _ _ _ _ _ Hm)
      as [L F].
    split; [exact L|exact (F Hids)].
  - apply Hnone.
Qed.

(** The common head of a pass: pick a move, apply it, validate. An
    accepted candidate is again a schedule on which the travel evaluation
    returns. *)
Lemma candidate_returns {B} validate moves (cur : Schedule) tp pos
    (k : option Schedule → Rand.M B) :
  moves ≠ [] → cur ≠ [] → ids_in_range n cur →
  ∃ accepted pos',
    (move ← choice moves;
     cand ← propose cur move;
     accepted ← Rand.lift (vet_candidate validate (Z.of_nat (length teams)) cand);
     k accepted) tp pos
    = k accepted tp pos'
    ∧ ∀ new, accepted = Some new →
        new ≠ [] ∧ ids_in_range n new
        ∧ ∃ per score, evaluate_schedule_travel new teams D = Some (per, score).
Proof.
  intros Hm Hne Hids.
  destruct (choice_returns moves tp pos Hm) as (move & Hc).
  erewrite bind_run by exact Hc.
  destruct (propose_returns cur move tp (Datatypes.S pos) Hne Hids)
    as (cand & p1 & Hp & Hcand).
  erewrite bind_run by exact Hp. rewrite Hteams.
  destruct (vet_candidate_returns n validate cand) as (accepted & Hg & Hacc).
  { intros new b E. apply (Hcand new b E). }
  erewrite bind_run by (unfold Rand.lift; rewrite Hg; reflexivity).
  exists accepted, p1. split; [reflexivity|].
  intros new ->. destruct (Hacc new eq_refl) as [b ->].
  destruct (Hcand new b eq_refl) as [Hl Hi]. split; [|split; [exact Hi|]].
  - intros ->. apply Hne. destruct cur; [reflexivity|discriminate].
  - apply (evaluate_returns n D HD teams new Hteams Hi).
Qed.

Lemma hc_step_returns moves validate st iteration tp pos :
  moves ≠ [] → hc_current_schedule st ≠ [] → ids_in_range n (hc_current_schedule st) →
  ∃ st' pos', hc_step teams D moves validate st iteration tp pos = Some (st', pos')
    ∧ hc_current_schedule st' ≠ [] ∧ ids_in_range n (hc_current_schedule st').
Proof.
  intros Hm Hne Hids. unfold hc_step.
  destruct (candidate_returns validate moves (hc_current_schedule st) tp pos
              (fun accepted =>
                 match accepted with
                 | Some new_schedule =>
                   '(_, new_score) ← Rand.lift (evaluate_schedule_travel new_schedule teams D);
                   if Qltb new_score (hc_current_score st - eps) then
                     if Qltb new_score (hc_best_score st - eps) then
                       Rand.ret (HcState new_schedule new_score new_schedule new_score
                                   (hc_improvements st
                                      ++ [(iteration, (new_score - new_score)%Q)]) 0)
                     else
                       Rand.ret (HcState new_schedule new_score (hc_best_schedule st)
                                   (hc_best_score st) (hc_improvements st) 0)
                   else
                     Rand.ret (HcState (hc_current_schedule st) (hc_current_score st)
                                 (hc_best_schedule st) (hc_best_score st)
                                 (hc_improvements st) (hc_no_improve_count st + 1))
                 | None => Rand.ret st
                 end) Hm Hne Hids) as (accepted & p1 & -> & Hacc).
  destruct accepted as [new|]; [|eexists _, _; split; [reflexivity|auto]].
  destruct (Hacc new eq_refl) as (Hn' & Hi' & per & score & Hev).
  erewrite bind_run by (unfold Rand.lift; rewrite Hev; reflexivity). cbv beta iota.
  destruct (Qltb score (hc_current_score st - eps));
    [destruct (Qltb score (hc_best_score st - eps))|];
    eexists _, _; (split; [reflexivity|auto]).
Qed.

Lemma hc_loop_returns moves max_no_improve validate iters :
  moves ≠ [] →
  ∀ st last tp pos,
  hc_current_schedule st ≠ [] → ids_in_range n (hc_current_schedule st) →
  ∃ st' last' pos',
    hc_loop teams D moves max_no_improve validate iters st last tp pos
    = Some ((st', last'), pos')
    ∧ (iters ≠ [] ∨ is_Some last → is_Some last').
Proof.
  intros Hm. induction iters as [|iteration rest IH]; intros st last tp pos Hne Hids; simpl.
  - eexists _, _, _. split; [reflexivity|]. intros [H|H]; [contradiction|exact H].
  - destruct (max_no_improve <=? hc_no_improve_count st).
    + eexists _, _, _. split; [reflexivity|]. eauto.
    + destruct (hc_step_returns moves validate st iteration tp pos Hm Hne Hids)
        as (st1 & p1 & Hs & Hne1 & Hids1).
      erewrite bind_run by exact Hs.
      destruct (IH st1 (Some iteration) tp p1 Hne1 Hids1) as (st2 & last2 & p2 & -> & Hl).
      eexists _, _, _. split; [reflexivity|]. intros _. apply Hl. right. eauto.
Qed.

Lemma sa_step_returns moves decay validate st iteration tp pos :
  moves ≠ [] → sa_current_schedule st ≠ [] → ids_in_range n (sa_current_schedule st) →
  ∃ st' pos', sa_step teams D moves decay validate st iteration tp pos = Some (st', pos')
    ∧ sa_current_schedule st' ≠ [] ∧ ids_in_range n (sa_current_schedule st').
Proof.
  intros Hm Hne Hids. unfold sa_step.
  match goal with
  | |- ∃ st' pos', (_ ≫= (fun move => _ ≫= (fun cand => _ ≫= ?k))) tp pos = _ ∧ _ =>
      destruct (candidate_returns validate moves (sa_current_schedule st) tp pos k
                  Hm Hne Hids) as (accepted & p1 & Hrun & Hacc)
  end.
  cbv beta in Hrun. rewrite Hrun.
  destruct accepted as [new|]; [|eexists _, _; split; [reflexivity|auto]].
  destruct (Hacc new eq_refl) as (Hn' & Hi' & per & score & Hev).
  erewrite bind_run by (unfold Rand.lift; rewrite Hev; reflexivity). cbv beta iota.
  assert (∃ accept p2, accepts (score - sa_current_score st)%Q (sa_T st) tp p1
                       = Some (accept, p2)) as (accept & p2 & Ha).
  { unfold accepts. destruct (Qltb _ 0); [eexists _, _; reflexivity|].
    destruct (Qltb 0 _); eexists _, _; reflexivity. }
  erewrite bind_run by exact Ha.
  destruct accept; [destruct (Qltb score (sa_best_score st - eps))|];
    eexists _, _; (split; [reflexivity|auto]).
Qed.

Lemma sa_loop_returns moves decay validate iters :
  moves ≠ [] →
  ∀ st last tp pos,
  sa_current_schedule st ≠ [] → ids_in_range n (sa_current_schedule st) →
  ∃ st' last' pos',
    sa_loop teams D moves decay validate iters st last tp pos = Some ((st', last'), pos')
    ∧ (iters ≠ [] ∨ is_Some last → is_Some last').
Proof.
  intros Hm. induction iters as [|iteration rest IH]; intros st last tp pos Hne Hids; simpl.
  - eexists _, _, _. split; [reflexivity|]. intros [H|H]; [contradiction|exact H].
  - destruct (sa_step_returns moves decay validate st iteration tp pos Hm Hne Hids)
      as (st1 & p1 & Hs & Hne1 & Hids1).
    erewrite bind_run by exact Hs.
    destruct (IH st1 (Some iteration) tp p1 Hne1 Hids1) as (st2 & last2 & p2 & -> & Hl).
    eexists _, _, _. split; [reflexivity|]. intros _. apply Hl. right. eauto.
Qed.

End Returns.

Lemma range_nonempty max_iters : 1 ≤ max_iters → Py.range max_iters ≠ [].
Proof.
  intros H. unfold Py.range. destruct (Z.to_nat max_iters) eqn:E; [lia|discriminate].
Qed.

(** On a non-empty schedule whose ids index the team list, with a square
    distance matrix, a non-empty move set and a budget of at least one
    iteration, [hill_climb] returns, whatever the random draws. *)
Lemma hill_climb_returns schedule teams D moves max_iters max_no_improve validate
    tp pos :
  schedule ≠ [] → ids_in_range (length teams) schedule → square (length teams) D →
  default default_moves moves ≠ [] → 1 ≤ max_iters →
  ∃ res pos',
    hill_climb schedule teams D moves max_iters max_no_improve validate tp pos
    = Some (res, pos').
Proof.
  intros Hne Hids HD Hm Hit. unfold hill_climb.
  destruct (evaluate_returns _ D HD teams schedule eq_refl Hids) as (per & score & Hev).
  erewrite bind_run by (unfold Rand.lift; rewrite Hev; reflexivity). cbv beta iota.
  destruct (hc_loop_returns (length teams) teams D eq_refl HD _ max_no_improve validate
              (Py.range max_iters) Hm
              (HcState schedule score schedule score [] 0) None tp pos Hne Hids)
    as (st & last & p1 & Hl & Hlast).
  erewrite bind_run by exact Hl. cbv beta iota.
  destruct Hlast as [iteration ->]; [left; apply range_nonempty; exact Hit|].
  erewrite bind_run by reflexivity. eexists _, _. reflexivity.
Qed.

(** The same for [simulated_annealing]. *)
Lemma simulated_annealing_returns schedule teams D moves T0 decay max_iters validate
    tp pos :
  schedule ≠ [] → ids_in_range (length teams) schedule → square (length teams) D →
  default default_moves moves ≠ [] → 1 ≤ max_iters →
  ∃ res pos',
    simulated_annealing schedule teams D moves T0 decay max_iters validate tp pos
    = Some (res, pos').
Proof.
  intros Hne Hids HD Hm Hit. unfold simulated_annealing.
  destruct (evaluate_returns _ D HD teams schedule eq_refl Hids) as (per & score & Hev).
  erewrite bind_run by (unfold Rand.lift; rewrite Hev; reflexivity). cbv beta iota.
  destruct (sa_loop_returns (length teams) teams D eq_refl HD _ decay validate
              (Py.range max_iters) Hm
              (SaState schedule score schedule score [] T0) None tp pos Hne Hids)
    as (st & last & p1 & Hl & Hlast).
  erewrite bind_run by exact Hl. cbv beta iota.
  destruct Hlast as [iteration ->]; [left; apply range_nonempty; exact Hit|].
  erewrite bind_run by reflexivity. eexists _, _. reflexivity.
Qed.

(** ** The circle method *)

(** Case analysis on every comparison of naturals in sight. *)
Ltac nat_cases :=
  repeat match goal with
         | |- context [(?a =? ?b)%nat] => destruct (Nat.eqb_spec a b)
         | |- context [(?a <=? ?b)%nat] => destruct (Nat.leb_spec a b)
         | |- context [(?a <? ?b)%nat] => destruct (Nat.ltb_spec a b)
         | H : context [(?a =? ?b)%nat] |- _ => destruct (Nat.eqb_spec a b)
         | H : context [(?a <=? ?b)%nat] |- _ => destruct (Nat.leb_spec a b)
         | H : context [(?a <? ?b)%nat] |- _ => destruct (Nat.ltb_spec a b)
         end.

Section Rotation.

Lemma removelast_length {A} (l : list A) :
  length (removelast l) = (length l - 1)%nat.
Proof.
  induction l as [|x l IH]; [reflexivity|].
  destruct l as [|y l]; [reflexivity|].
  change (removelast (x :: y :: l)) with (x :: removelast (y :: l)).
  cbn [length] in *. lia.
Qed.

Lemma rotate_length ids :
  (2 ≤ length ids)%nat → length (rotate ids) = length ids.
Proof.
  destruct ids as [|x [|y l]]; cbn [length]; try lia. intros _.
  unfold rotate. cbn [app length tl].
  rewrite removelast_length. cbn [length]. lia.
Qed.

Lemma nth_removelast {A} (l : list A) j d :
  (S j < length l)%nat → nth j (removelast l) d = nth j l d.
Proof.
  revert j. induction l as [|x l IH]; intros j Hj; [simpl in Hj; lia|].
  destruct l as [|y l]; [simpl in Hj; lia|].
  destruct j as [|j]; [reflexivity|].
  change (removelast (x :: y :: l)) with (x :: removelast (y :: l)).
  cbn [nth]. apply IH. simpl in *. lia.
Qed.

Lemma last_nth {A} (l : list A) d :
  List.last l d = nth (length l - 1) l d.
Proof.
  induction l as [|x l IH]; [reflexivity|].
  destruct l as [|y l]; [reflexivity|].
  change (List.last (x :: y :: l) d) with (List.last (y :: l) d).
  rewrite IH. simpl. rewrite Nat.sub_0_r. reflexivity.
Qed.

(** Position by position, one rotation. *)
Lemma rotate_nth ids M j d :
  length ids = S M → (1 ≤ M)%nat → (j ≤ M)%nat →
  nth j (rotate ids) d =
    nth (if (j =? 0)%nat then 0 else if (j =? 1)%nat then M else j - 1)%nat ids d.
Proof.
  intros Hlen HM Hj.
  destruct ids as [|x l]; [discriminate|].
  simpl in Hlen. injection Hlen as Hlen.
  unfold rotate. cbn [app tl].
  destruct j as [|[|j]]; cbn [Nat.eqb].
  - reflexivity.
  - change (List.last (x :: l) x = nth M (x :: l) d).
    rewrite (last_nth (x :: l) x). cbn [length].
    replace (S (length l) - 1)%nat with M by lia.
    apply nth_indep. cbn [length]. lia.
  - change (nth j (removelast l) d = nth (S (S j) - 1) (x :: l) d).
    rewrite nth_removelast by lia.
    replace (S (S j) - 1)%nat with (S j) by lia. reflexivity.
Qed.

(** Position by position, [r] rotations. *)
Lemma iter_rotate_nth ids M d r :
  length ids = S M → (1 ≤ M)%nat → (r ≤ M)%nat →
  length (Nat.iter r rotate ids) = S M
  ∧ ∀ j, (j ≤ M)%nat → nth j (Nat.iter r rotate ids) d = nth (src M r j) ids d.
Proof.
  intros Hlen HM. induction r as [|r IH]; intros Hr.
  - split; [exact Hlen|]. intros j Hj. simpl. f_equal. unfold src.
    nat_cases; lia.
  - destruct IH as [IHlen IHnth]; [lia|].
    rewrite Nat.iter_succ. split; [rewrite rotate_length; [exact IHlen|lia]|].
    intros j Hj. rewrite (rotate_nth _ M) by assumption.
    rewrite IHnth.
    + f_equal. unfold src. nat_cases; lia.
    + nat_cases; lia.
Qed.

End Rotation.

Section Unrolling.

Lemma flat_map_agree {A B} (f g : A → list B) l :
  (∀ x, In x l → f x = g x) → flat_map f l = flat_map g l.
Proof.
  induction l as [|x l IH]; intros H; [reflexivity|].
  cbn [flat_map]. rewrite H by (left; reflexivity).
  rewrite IH; [reflexivity|]. intros y Hy. apply H. right. exact Hy.
Qed.

Lemma rr_inner_cell ids m r pairs i :
  rr_inner ids m r pairs i = pairs ++ cell ids m r i.
Proof.
  unfold cell, rr_inner.
  destruct ((nth i ids 0 =? -1) || (nth (m - 1 - i) ids 0 =? -1));
    [symmetry; apply app_nil_r|].
  destruct (r mod 2 =? 0)%nat; reflexivity.
Qed.

Lemma fold_inner ids m r l :
  ∀ acc, fold_left (rr_inner ids m r) l acc = acc ++ flat_map (cell ids m r) l.
Proof.
  induction l as [|i l IH]; intros acc; cbn [fold_left flat_map].
  - symmetry. apply app_nil_r.
  - rewrite IH, rr_inner_cell, <- app_assoc. reflexivity.
Qed.

Lemma fold_outer m k :
  ∀ a ids acc,
  fold_left (rr_outer m) (seq a k) (ids, acc)
  = (Nat.iter k rotate ids,
     acc ++ map (fun j => flat_map (cell (Nat.iter j rotate ids) m (a + j))
                            (seq 0 (m / 2)))
              (seq 0 k)).
Proof.
  induction k as [|k IH]; intros a ids acc.
  - simpl. rewrite app_nil_r. reflexivity.
  - cbn [seq fold_left]. unfold rr_outer at 2.
    rewrite IH, fold_inner. cbn [app].
    rewrite Nat.iter_succ_r. f_equal.
    rewrite <- app_assoc. f_equal. cbn [app map].
    rewrite Nat.add_0_r. f_equal.
    rewrite <- seq_shift, map_map.
    apply map_ext. intros j.
    rewrite Nat.iter_succ_r. replace (S a + j)%nat with (a + S j)%nat by lia.
    reflexivity.
Qed.

Lemma round_robin_pairs_unrolled teams :
  let ids := initial_ids (length teams) in
  let m := length ids in
  round_robin_pairs teams
  = map (fun r => flat_map (cell (Nat.iter r rotate ids) m r) (seq 0 (m / 2)))
      (seq 0 (m - 1)).
Proof.
  intros ids m. unfold round_robin_pairs.
  fold (initial_ids (length teams)). fold ids. fold m.
  rewrite fold_outer. reflexivity.
Qed.

End Unrolling.

Section Counting.

Local Open Scope nat_scope.

Lemma sum_const (f : nat → nat) c l :
  (∀ i, In i l → f i = c) → list_sum (map f l) = (c * length l)%nat.
Proof.
  induction l as [|x l IH]; intros H; simpl; [lia|].
  rewrite H by (left; reflexivity).
  rewrite IH by (intros i Hi; apply H; right; exact Hi). lia.
Qed.

Lemma sum_split (f : nat → nat) m k :
  (k < m)%nat →
  list_sum (map f (seq 0 m))
  = (list_sum (map f (seq 0 k)) + f k + list_sum (map f (seq (S k) (m - S k))))%nat.
Proof.
  intros Hk. replace m with (k + S (m - S k))%nat at 1 by lia.
  rewrite seq_app, map_app, list_sum_app. simpl. lia.
Qed.

(** A sum with a single one and zeros elsewhere. *)
Lemma sum_single (f : nat → nat) m k :
  (k < m)%nat → f k = 1%nat → (∀ j, (j < m)%nat → j ≠ k → f j = 0%nat) →
  list_sum (map f (seq 0 m)) = 1%nat.
Proof.
  intros Hk Hfk Hz. rewrite (sum_split f m k Hk), Hfk.
  rewrite (sum_const f 0), (sum_const f 0); [lia| |];
    intros j Hj; apply in_seq in Hj; apply Hz; lia.
Qed.

(** A sum with a single zero and ones elsewhere. *)
Lemma sum_all_but_one (f : nat → nat) m k :
  (k < m)%nat → f k = 0%nat → (∀ j, (j < m)%nat → j ≠ k → f j = 1%nat) →
  list_sum (map f (seq 0 m)) = (m - 1)%nat.
Proof.
  intros Hk Hfk Hz. rewrite (sum_split f m k Hk), Hfk.
  rewrite (sum_const f 1), (sum_const f 1);
    [rewrite !length_seq; lia| |];
    intros j Hj; apply in_seq in Hj; apply Hz; lia.
Qed.

(** A double sum over a grid with a single one. *)
Lemma sum_grid_single (c : nat → nat → nat) rows cols :
  (∀ r i, (c r i ≤ 1)%nat) →
  (∃ r i, (r < rows)%nat ∧ (i < cols)%nat ∧ c r i = 1%nat) →
  (∀ r i r' i', (r < rows)%nat → (i < cols)%nat → (r' < rows)%nat → (i' < cols)%nat →
     c r i = 1%nat → c r' i' = 1%nat → r = r' ∧ i = i') →
  list_sum (map (fun r => list_sum (map (c r) (seq 0 cols))) (seq 0 rows)) = 1%nat.
Proof.
  intros Hle (r0 & i0 & Hr0 & Hi0 & Hc) Huniq.
  assert (Hzero : ∀ r i, (r < rows)%nat → (i < cols)%nat →
                    (r, i) ≠ (r0, i0) → c r i = 0%nat).
  { intros r i Hr Hi Hne. pose proof (Hle r i) as Hb.
    destruct (Nat.eq_dec (c r i) 1) as [E|E]; [|lia].
    destruct (Huniq r i r0 i0 Hr Hi Hr0 Hi0 E Hc) as [-> ->]. congruence. }
  apply (sum_single _ rows r0 Hr0).
  - apply (sum_single _ cols i0 Hi0 Hc).
    intros j Hj Hne. apply Hzero; [assumption..|congruence].
  - intros r Hr Hne. rewrite (sum_const _ 0); [lia|].
    intros i Hi. apply in_seq in Hi. apply Hzero; [assumption|lia|congruence].
Qed.

Lemma filter_flat_map_length {A B} (p : B → bool) (g : A → list B) l :
  length (List.filter p (flat_map g l))
  = list_sum (map (fun x => length (List.filter p (g x))) l).
Proof.
  induction l as [|x l IH]; [reflexivity|].
  simpl. rewrite List.filter_app, length_app, IH. reflexivity.
Qed.

Lemma filter_concat_map_length {A B} (p : B → bool) (g : A → list B) l :
  length (List.filter p (concat (map g l)))
  = list_sum (map (fun x => length (List.filter p (g x))) l).
Proof. rewrite <- flat_map_concat_map. apply filter_flat_map_length. Qed.

Lemma existsb_flat_map {A B} (p : B → bool) (g : A → list B) l :
  existsb p (flat_map g l) = existsb (fun x => existsb p (g x)) l.
Proof.
  induction l as [|x l IH]; [reflexivity|].
  cbn [flat_map existsb]. rewrite existsb_app, IH. reflexivity.
Qed.

End Counting.

Section Circle.

Local Open Scope nat_scope.

Variables (n h : nat).
Hypothesis Hn : n = (2 * h)%nat ∨ n = (2 * h - 1)%nat.
Hypothesis H2 : (2 ≤ n)%nat.

Let M := (2 * h - 1)%nat.

Lemma parity_of_n : (n mod 2 =? 1)%nat = (n =? 2 * h - 1)%nat.
Proof.
  destruct Hn as [E|E].
  - replace (n mod 2)%nat with 0%nat
      by (rewrite E, Nat.mul_comm, Nat.Div0.mod_mul; reflexivity).
    nat_cases; lia.
  - replace (n mod 2)%nat with 1%nat.
    + nat_cases; lia.
    + replace n with (1 + (h - 1) * 2)%nat by lia.
      rewrite Nat.Div0.mod_add. reflexivity.
Qed.

Lemma initial_ids_length : length (initial_ids n) = (2 * h)%nat.
Proof.
  unfold initial_ids. rewrite parity_of_n.
  destruct (Nat.eqb_spec n (2 * h - 1)).
  - rewrite length_app, length_map, length_seq. simpl. lia.
  - rewrite length_map, length_seq. lia.
Qed.

Lemma initial_ids_nth p :
  (p < 2 * h)%nat → nth p (initial_ids n) 0%Z = val n p.
Proof.
  intros Hp. unfold initial_ids, val. rewrite parity_of_n.
  assert (Hseq : ∀ q, (q < n)%nat → nth q (map Z.of_nat (seq 0 n)) 0%Z = Z.of_nat q).
  { intros q Hq. rewrite (nth_indep _ 0%Z (Z.of_nat 0)) by (rewrite length_map, length_seq; lia).
    rewrite map_nth, seq_nth by lia. reflexivity. }
  destruct (Nat.eqb_spec n (2 * h - 1)); destruct (Nat.ltb_spec p n).
  - rewrite app_nth1 by (rewrite length_map, length_seq; lia). auto.
  - rewrite app_nth2 by (rewrite length_map, length_seq; lia).
    rewrite length_map, length_seq. replace (p - n)%nat with 0%nat by lia. reflexivity.
  - auto.
  - lia.
Qed.

Lemma src_bound r j : (r < M)%nat → (j ≤ M)%nat → (src M r j ≤ M)%nat.
Proof. unfold src. intros. nat_cases; lia. Qed.

Lemma cell_slot r i :
  (r < M)%nat → (i < h)%nat →
  cell (Nat.iter r rotate (initial_ids n)) (2 * h) r i = slot n M r i.
Proof.
  intros Hr Hi. unfold cell, rr_inner, slot.
  destruct (iter_rotate_nth (initial_ids n) M 0%Z r) as [_ Hnth];
    [rewrite initial_ids_length; subst M; lia | subst M; lia | lia |].
  replace (2 * h - 1 - i)%nat with (M - i)%nat by (subst M; lia).
  rewrite !Hnth by (subst M; lia).
  rewrite !initial_ids_nth by (pose proof (src_bound r i); pose proof (src_bound r (M - i)); subst M; lia).
  reflexivity.
Qed.

Lemma schedule_closed (teams : list Team) :
  length teams = n →
  round_robin_pairs teams
  = map (fun r => flat_map (slot n M r) (seq 0 h)) (seq 0 M).
Proof.
  intros Hlen. rewrite round_robin_pairs_unrolled. cbv zeta.
  rewrite Hlen, initial_ids_length.
  replace (2 * h / 2)%nat with h by (rewrite Nat.mul_comm, Nat.div_mul; lia).
  fold M. apply map_ext_in. intros r Hr. apply in_seq in Hr.
  apply flat_map_agree. intros i Hi. apply in_seq in Hi.
  apply cell_slot; lia.
Qed.

Lemma M_succ : M + 1 = 2 * h.
Proof. subst M. lia. Qed.

(** *** A slot, read through the positions it pairs *)

Lemma val_real p : p < n → val n p = Z.of_nat p ∧ (val n p =? -1)%Z = false.
Proof.
  intros Hp. unfold val. destruct (Nat.ltb_spec p n); [|lia].
  split; [reflexivity|]. apply Z.eqb_neq. lia.
Qed.

Lemma val_bye p : n ≤ p → val n p = (-1)%Z.
Proof. intros Hp. unfold val. destruct (Nat.ltb_spec p n); [lia|reflexivity]. Qed.

(** A slot is empty when one of the two positions holds the bye, and
    otherwise holds the single match of the two teams. *)
Lemma slot_view r i :
  let a := src M r i in
  let b := src M r (M - i) in
  (a < n ∧ b < n
   ∧ (slot n M r i = [(Z.of_nat a, Z.of_nat b)]
      ∨ slot n M r i = [(Z.of_nat b, Z.of_nat a)]))
  ∨ ((n ≤ a ∨ n ≤ b) ∧ slot n M r i = []).
Proof.
  intros a b. unfold slot. fold a b.
  destruct (Nat.lt_ge_cases a n) as [Ha|Ha]; [|right].
  - destruct (Nat.lt_ge_cases b n) as [Hb|Hb]; [left|right].
    + destruct (val_real a Ha) as [-> ->], (val_real b Hb) as [-> ->].
      cbn [orb]. split; [exact Ha|]. split; [exact Hb|].
      destruct (r mod 2 =? 0); auto.
    + split; [auto|]. rewrite (val_bye b Hb), orb_true_r. reflexivity.
  - split; [auto|]. rewrite (val_bye a Ha). reflexivity.
Qed.

Lemma slot_length r i :
  length (slot n M r i)
  = if (src M r i <? n) && (src M r (M - i) <? n) then 1 else 0.
Proof.
  destruct (slot_view r i) as [(Ha & Hb & [E|E])|([H|H] & E)]; rewrite E;
    nat_cases; simpl; lia.
Qed.

Lemma plays_slot t r i :
  plays t (slot n M r i) = true
  ↔ src M r i < n ∧ src M r (M - i) < n
    ∧ (t = Z.of_nat (src M r i) ∨ t = Z.of_nat (src M r (M - i))).
Proof.
  unfold plays.
  destruct (slot_view r i) as [(Ha & Hb & [E|E])|([H|H] & E)]; rewrite E;
    cbn [existsb fst snd]; rewrite ?orb_false_r, ?orb_true_iff, ?Z.eqb_eq;
    split; intros; try discriminate; intuition (try lia; auto).
Qed.

Lemma meets_slot A B r i :
  A < n → B < n →
  length (List.filter (meets (Z.of_nat A) (Z.of_nat B)) (slot n M r i)) ≤ 1
  ∧ (length (List.filter (meets (Z.of_nat A) (Z.of_nat B)) (slot n M r i)) = 1
     ↔ (src M r i = A ∧ src M r (M - i) = B)
       ∨ (src M r i = B ∧ src M r (M - i) = A)).
Proof.
  intros HA HB.
  destruct (slot_view r i) as [(Ha & Hb & [E|E])|([H|H] & E)]; rewrite E;
    cbn [List.filter]; unfold meets; cbn [fst snd];
    try (split; [simpl; lia|split; [simpl; discriminate|lia]]).
  - destruct ((Z.of_nat (src M r i) =? Z.of_nat A)%Z &&
              (Z.of_nat (src M r (M - i)) =? Z.of_nat B)%Z
              || (Z.of_nat (src M r i) =? Z.of_nat B)%Z &&
                 (Z.of_nat (src M r (M - i)) =? Z.of_nat A)%Z) eqn:Em.
    + split; [simpl; lia|]. split; [intros _|reflexivity].
      rewrite orb_true_iff, !andb_true_iff, !Z.eqb_eq in Em. lia.
    + split; [simpl; lia|]. split; [simpl; discriminate|].
      intros Hs. apply not_true_iff_false in Em. exfalso. apply Em.
      rewrite orb_true_iff, !andb_true_iff, !Z.eqb_eq. lia.
  - destruct ((Z.of_nat (src M r (M - i)) =? Z.of_nat A)%Z &&
              (Z.of_nat (src M r i) =? Z.of_nat B)%Z
              || (Z.of_nat (src M r (M - i)) =? Z.of_nat B)%Z &&
                 (Z.of_nat (src M r i) =? Z.of_nat A)%Z) eqn:Em.
    + split; [simpl; lia|]. split; [intros _|reflexivity].
      rewrite orb_true_iff, !andb_true_iff, !Z.eqb_eq in Em. lia.
    + split; [simpl; lia|]. split; [simpl; discriminate|].
      intros Hs. apply not_true_iff_false in Em. exfalso. apply Em.
      rewrite orb_true_iff, !andb_true_iff, !Z.eqb_eq. lia.
Qed.

(** *** Positions under rotation *)

Lemma src_bye r j :
  r < M → j ≤ M → src M r j = M ↔ j = (if r =? 0 then M else r).
Proof. intros Hr Hj. unfold src. pose proof M_succ as HM. clearbody M. nat_cases; lia. Qed.

Lemma src_inj r j j' :
  r < M → j ≤ M → j' ≤ M → src M r j = src M r j' → j = j'.
Proof. unfold src. subst M. intros Hr Hj Hj' E. nat_cases; lia. Qed.

Lemma src_pos r T :
  r < M → T ≤ M → pos M r T ≤ M ∧ src M r (pos M r T) = T.
Proof. unfold src, pos. subst M. intros Hr HT. nat_cases; lia. Qed.

(** *** Shape of a round *)

Lemma slot_length_even r i :
  n = 2 * h → r < M → i < h → length (slot n M r i) = 1.
Proof.
  intros He Hr Hi. rewrite slot_length.
  pose proof (src_bound r i Hr) as Ha.
  pose proof (src_bound r (M - i) Hr) as Hb.
  fold M in Ha, Hb. pose proof M_succ as HM. clearbody M.
  destruct (Nat.ltb_spec (src M r i) n);
    destruct (Nat.ltb_spec (src M r (M - i)) n); simpl; lia.
Qed.

Lemma slot_length_odd r i :
  n = 2 * h - 1 → r < M → i < h →
  length (slot n M r i) = if i =? bye_index h r then 0 else 1.
Proof.
  intros He Hr Hi. rewrite slot_length.
  pose proof (src_bound r i Hr) as Ha.
  pose proof (src_bound r (M - i) Hr) as Hb.
  pose proof (src_bye r i Hr) as Ba.
  pose proof (src_bye r (M - i) Hr) as Bb.
  fold M in Ha, Hb. unfold bye_index. pose proof M_succ as HM. clearbody M.
  destruct (Nat.ltb_spec (src M r i) n);
    destruct (Nat.ltb_spec (src M r (M - i)) n);
    cbn [andb]; nat_cases; lia.
Qed.

Lemma bye_index_bound r : r < M → bye_index h r < h.
Proof. unfold bye_index. subst M. intros. nat_cases; lia. Qed.

Lemma round_length_even r :
  n = 2 * h → r < M → length (flat_map (slot n M r) (seq 0 h)) = h.
Proof.
  intros He Hr. rewrite length_flat_map.
  rewrite (sum_const _ 1), length_seq; [lia|].
  intros i Hi. apply in_seq in Hi. apply slot_length_even; lia.
Qed.

Lemma round_length_odd r :
  n = 2 * h - 1 → r < M → length (flat_map (slot n M r) (seq 0 h)) = h - 1.
Proof.
  intros He Hr. rewrite length_flat_map.
  apply (sum_all_but_one _ h (bye_index h r)).
  - apply bye_index_bound. exact Hr.
  - rewrite slot_length_odd by (auto using bye_index_bound).
    rewrite Nat.eqb_refl. reflexivity.
  - intros j Hj Hne. rewrite slot_length_odd by assumption.
    destruct (Nat.eqb_spec j (bye_index h r)); [contradiction|reflexivity].
Qed.

(** *** The idle team of a round, for an odd team count *)

Lemma plays_round t r :
  plays t (flat_map (slot n M r) (seq 0 h)) = true
  ↔ ∃ i, i < h ∧ plays t (slot n M r i) = true.
Proof.
  unfold plays. rewrite existsb_flat_map, existsb_exists. split.
  - intros (i & Hi & H). apply in_seq in Hi. exists i. split; [lia|exact H].
  - intros (i & Hi & H). exists i. split; [apply in_seq; lia|exact H].
Qed.

Lemma idle_bound r : n = 2 * h - 1 → r < M → idle M r < n.
Proof. intros He Hr. unfold idle, src. pose proof M_succ as HM. clearbody M. nat_cases; lia. Qed.

Lemma idle_absent r i :
  n = 2 * h - 1 → r < M → i < h →
  plays (Z.of_nat (idle M r)) (slot n M r i) = false.
Proof.
  intros He Hr Hi. apply not_true_iff_false. intros Hp.
  apply plays_slot in Hp as (Ha & Hb & Ht).
  set (bp := if r =? 0 then M else r) in *.
  assert (Hbp : bp ≤ M) by (subst bp; nat_cases; lia).
  assert (Hbye : src M r bp = M) by (apply src_bye; [assumption..|reflexivity]).
  unfold idle in Ht. fold bp in Ht.
  destruct Ht as [Ht|Ht]; apply Nat2Z.inj in Ht;
    apply src_inj in Ht; try (pose proof M_succ; lia).
  - replace (M - i) with bp in Hb by (pose proof M_succ; lia). subst M. lia.
  - replace i with bp in Ha by (pose proof M_succ; lia). subst M. lia.
Qed.

Lemma other_present r T :
  n = 2 * h - 1 → r < M → T < n → T ≠ idle M r →
  ∃ i, i < h ∧ plays (Z.of_nat T) (slot n M r i) = true.
Proof.
  intros He Hr HT Hne.
  destruct (src_pos r T Hr) as [Hj Hs]; [pose proof M_succ; lia|].
  set (j := pos M r T) in *.
  assert (Hpartner : src M r (M - j) < n).
  { pose proof (src_bound r (M - j) Hr) as Hb. fold M in Hb.
    destruct (Nat.eq_dec (src M r (M - j)) M) as [E|E]; [|pose proof M_succ; lia].
    exfalso. apply Hne. apply src_bye in E; [|assumption|pose proof M_succ; lia].
    unfold idle. rewrite <- E. replace (M - (M - j)) with j by (pose proof M_succ; lia).
    symmetry. exact Hs. }
  destruct (Nat.lt_ge_cases j h) as [Hlt|Hge].
  - exists j. split; [exact Hlt|]. apply plays_slot.
    rewrite Hs. repeat split; auto.
  - exists (M - j). split; [pose proof M_succ; lia|]. apply plays_slot.
    replace (M - (M - j)) with j by (pose proof M_succ; lia).
    rewrite Hs. repeat split; auto.
Qed.

Lemma idle_iff r T :
  n = 2 * h - 1 → r < M → T < n →
  plays (Z.of_nat T) (flat_map (slot n M r) (seq 0 h)) = false ↔ T = idle M r.
Proof.
  intros He Hr HT. split.
  - intros Hf. destruct (Nat.eq_dec T (idle M r)) as [E|E]; [exact E|].
    exfalso. apply not_true_iff_false in Hf. apply Hf.
    apply plays_round. apply other_present; assumption.
  - intros ->. apply not_true_iff_false. intros Hp.
    apply plays_round in Hp as (i & Hi & Hp).
    rewrite idle_absent in Hp by assumption. discriminate.
Qed.

(** *** Where two teams meet *)

Lemma src_zero r : src M r 0 = 0.
Proof. reflexivity. Qed.

Lemma src_low r j : r < j → src M r j = j - r.
Proof. intros H. unfold src. nat_cases; lia. Qed.

Lemma src_high r j : 1 ≤ j → j ≤ r → src M r j = M - r + j.
Proof. intros H1 H. unfold src. nat_cases; lia. Qed.

(** The two entries paired by index [i] of round [r]. *)
Lemma pair_shape r i :
  r < M → i < h →
  let x := src M r i in
  let y := src M r (M - i) in
  (i = 0 ∧ x = 0 ∧ y + r = M)
  ∨ (1 ≤ i ∧ r < i ∧ x + r = i ∧ y + i + r = M)
  ∨ (1 ≤ i ∧ i ≤ r ∧ r + i < M ∧ x + r = M + i ∧ y + i + r = M)
  ∨ (1 ≤ i ∧ M ≤ r + i ∧ x + r = M + i ∧ y + r + i = 2 * M).
Proof.
  intros Hr Hi. pose proof M_succ as HM. unfold src. clearbody M. cbv zeta.
  nat_cases;
    first [ exfalso; lia
          | left; lia
          | right; left; lia
          | right; right; left; lia
          | right; right; right; lia ].
Qed.

Lemma meeting_exists A B :
  A < B → B ≤ M →
  ∃ r i, r < M ∧ i < h
    ∧ ((src M r i = A ∧ src M r (M - i) = B)
       ∨ (src M r i = B ∧ src M r (M - i) = A)).
Proof.
  intros HAB HB.
  destruct (Nat.eq_dec A 0) as [HA|HA].
  - exists (M - B), 0. rewrite src_zero, src_low by (subst M; lia).
    subst M. split; [lia|]. split; [lia|]. left. split; lia.
  - destruct (Nat.Even_or_Odd (A + B)) as [[k Hk]|[k Hk]].
    + exists (M - k), (k - A).
      rewrite src_high, src_low by (subst M; lia).
      subst M. split; [lia|]. split; [lia|]. right. split; lia.
    + destruct (Nat.le_gt_cases (A + B) M) as [Hs|Hs].
      * exists (h - 1 - k), (A + (h - 1 - k)).
        rewrite !src_low by (subst M; lia).
        subst M. split; [lia|]. split; [lia|]. left. split; lia.
      * exists (3 * h - 2 - k), (h - 1 + A - k).
        rewrite !src_high by (subst M; lia).
        subst M. split; [lia|]. split; [lia|]. left. split; lia.
Qed.

Lemma meeting_unique A B r i r' i' :
  A ≠ B → r < M → i < h → r' < M → i' < h →
  (src M r i = A ∧ src M r (M - i) = B) ∨ (src M r i = B ∧ src M r (M - i) = A) →
  (src M r' i' = A ∧ src M r' (M - i') = B)
  ∨ (src M r' i' = B ∧ src M r' (M - i') = A) →
  r = r' ∧ i = i'.
Proof.
  intros HAB Hr Hi Hr' Hi' H H'.
  pose proof (pair_shape r i Hr Hi) as S. pose proof (pair_shape r' i' Hr' Hi') as S'.
  cbv zeta in S, S'.
  remember (src M r i) as x eqn:Ex. remember (src M r (M - i)) as y eqn:Ey.
  remember (src M r' i') as x' eqn:Ex'. remember (src M r' (M - i')) as y' eqn:Ey'.
  clear Ex Ey Ex' Ey'. pose proof M_succ as HM. clearbody M.
  destruct S as [S|[S|[S|S]]], S' as [S'|[S'|[S'|S']]];
    destruct H as [H|H], H' as [H'|H']; lia.
Qed.

(** *** The generated schedule *)

Lemma count_in_schedule (teams : list Team) A B :
  length teams = n → A < n → B < n → A ≠ B →
  pair_count (Z.of_nat A) (Z.of_nat B) (round_robin_pairs teams) = 1.
Proof.
  intros Hlen HA HB HAB. rewrite (schedule_closed teams Hlen). fold M.
  unfold pair_count. rewrite filter_concat_map_length.
  rewrite (map_ext _ (fun r => list_sum (map (fun i =>
             length (List.filter (meets (Z.of_nat A) (Z.of_nat B)) (slot n M r i)))
             (seq 0 h))))
    by (intros r; apply filter_flat_map_length).
  apply (sum_grid_single
           (fun r i => length (List.filter (meets (Z.of_nat A) (Z.of_nat B))
                                 (slot n M r i)))).
  - intros r i. apply meets_slot; assumption.
  - assert (HM := M_succ).
    destruct (Nat.lt_ge_cases A B) as [Hlt|Hge].
    + destruct (meeting_exists A B Hlt) as (r & i & Hr & Hi & Hm); [lia|].
      exists r, i. split; [exact Hr|]. split; [exact Hi|].
      apply meets_slot; assumption.
    + destruct (meeting_exists B A) as (r & i & Hr & Hi & Hm); [lia..|].
      exists r, i. split; [exact Hr|]. split; [exact Hi|].
      apply meets_slot; [assumption..|]. tauto.
  - intros r i r' i' Hr Hi Hr' Hi' Hc Hc'.
    apply meets_slot in Hc; [|assumption..].
    apply meets_slot in Hc'; [|assumption..].
    eapply meeting_unique; eauto.
Qed.

Lemma shape_even (teams : list Team) :
  length teams = n → n = 2 * h →
  length (round_robin_pairs teams) = n - 1
  ∧ Forall (fun rnd => length rnd = h) (round_robin_pairs teams).
Proof.
  intros Hlen He. rewrite (schedule_closed teams Hlen). fold M.
  split.
  - rewrite length_map, length_seq. subst M. lia.
  - apply List.Forall_forall. intros rnd Hin.
    apply in_map_iff in Hin as (r & <- & Hr). apply in_seq in Hr.
    apply round_length_even; [exact He|lia].
Qed.

Lemma shape_odd (teams : list Team) :
  length teams = n → n = 2 * h - 1 →
  length (round_robin_pairs teams) = n
  ∧ Forall (fun rnd =>
              length rnd = h - 1
              ∧ ∃ T, T < n ∧ plays (Z.of_nat T) rnd = false
                     ∧ ∀ T', T' < n → plays (Z.of_nat T') rnd = false → T' = T)
      (round_robin_pairs teams)
  ∧ ¬ ∃ T, T < n
           ∧ Forall (fun rnd => plays (Z.of_nat T) rnd = false)
               (round_robin_pairs teams).
Proof.
  intros Hlen He. rewrite (schedule_closed teams Hlen). fold M.
  assert (HM := M_succ).
  split; [|split].
  - rewrite length_map, length_seq. lia.
  - apply List.Forall_forall. intros rnd Hin.
    apply in_map_iff in Hin as (r & <- & Hr). apply in_seq in Hr.
    split; [apply round_length_odd; [exact He|lia]|].
    exists (idle M r). split; [apply idle_bound; [exact He|lia]|]. split.
    + apply idle_iff; [exact He|lia|apply idle_bound; [exact He|lia]|reflexivity].
    + intros T' HT' Hp. apply idle_iff in Hp; [exact Hp|exact He|lia|exact HT'].
  - intros (T & HT & Hall).
    rewrite List.Forall_forall in Hall.
    assert (H0 : plays (Z.of_nat T) (flat_map (slot n M 0) (seq 0 h)) = false).
    { apply Hall. apply in_map_iff. exists 0. split; [reflexivity|].
      apply in_seq. lia. }
    assert (H1 : plays (Z.of_nat T) (flat_map (slot n M 1) (seq 0 h)) = false).
    { apply Hall. apply in_map_iff. exists 1. split; [reflexivity|].
      apply in_seq. lia. }
    apply idle_iff in H0; [|exact He|lia|exact HT].
    apply idle_iff in H1; [|exact He|lia|exact HT].
    unfold idle, src in H0, H1. clearbody M. nat_cases; lia.
Qed.

End Circle.

(** ** Claims on the generated schedule *)

Lemma half_split (n : nat) :
  (2 ≤ n)%nat →
  ∃ h, (n = 2 * h ∨ n = 2 * h - 1)%nat
       ∧ ((n mod 2)%nat = 0%nat → n = (2 * h)%nat ∧ (n / 2)%nat = h)
       ∧ ((n mod 2)%nat = 1%nat → n = (2 * h - 1)%nat ∧ ((n - 1) / 2)%nat = (h - 1)%nat).
Proof.
  intros H2. pose proof (Nat.div_mod_eq n 2) as Hdm.
  pose proof (Nat.mod_upper_bound n 2 ltac:(lia)) as Hub.
  destruct (n mod 2)%nat as [|[|k]] eqn:Em; [| |lia].
  - exists (n / 2)%nat. split; [lia|]. split; [intros _; split; lia|discriminate].
  - exists (n / 2 + 1)%nat. split; [lia|]. split; [discriminate|].
    intros _. split; [lia|].
    replace (n - 1)%nat with (n / 2 * 2)%nat by lia.
    rewrite Nat.div_mul by lia. lia.
Qed.

(** C1: for at least two teams the schedule of [round_robin_pairs] holds,
    for any two distinct team ids, exactly one match that opposes them, in
    one venue order or the other, over all rounds. *)
Theorem every_pair_once (teams : list Team) (a b : Z) :
  (2 ≤ length teams)%nat →
  0 ≤ a < Z.of_nat (length teams) →
  0 ≤ b < Z.of_nat (length teams) →
  a ≠ b →
  pair_count a b (round_robin_pairs teams) = 1%nat.
Proof.
  intros H2 Ha Hb Hab.
  destruct (half_split _ H2) as (h & Hn & _).
  rewrite <- (Z2Nat.id a), <- (Z2Nat.id b) by lia.
  apply (count_in_schedule (length teams) h Hn H2); [reflexivity|lia..].
Qed.

Lemma every_pair_once_witness :
  pair_count 1 3 (round_robin_pairs (mk_teams 4)) = 1%nat.
Proof.
  apply every_pair_once.
  - vm_compute. lia.
  - vm_compute. split; [discriminate|reflexivity].
  - vm_compute. split; [discriminate|reflexivity].
  - discriminate.
Defined.

(** C5: for N >= 2 teams, [round_robin_pairs] returns N-1 rounds of N/2
    matches when N is even; when N is odd it returns N rounds of (N-1)/2
    matches, each round leaves exactly one team id without a match, and no
    team is the idle one in every round. *)
Theorem round_robin_shape (teams : list Team) :
  let n := length teams in
  let s := round_robin_pairs teams in
  (2 ≤ n)%nat →
  ((n mod 2)%nat = 0%nat →
     length s = (n - 1)%nat ∧ Forall (fun rnd => length rnd = (n / 2)%nat) s)
  ∧ ((n mod 2)%nat = 1%nat →
     length s = n
     ∧ Forall (fun rnd =>
                 length rnd = ((n - 1) / 2)%nat
                 ∧ ∃ t, 0 ≤ t < Z.of_nat n ∧ plays t rnd = false
                        ∧ ∀ t', 0 ≤ t' < Z.of_nat n → plays t' rnd = false → t' = t) s
     ∧ ¬ ∃ t, 0 ≤ t < Z.of_nat n ∧ Forall (fun rnd => plays t rnd = false) s).
Proof.
  intros n s H2. destruct (half_split _ H2) as (h & Hn & Heven & Hodd).
  fold n in Hn, Heven, Hodd. split.
  - intros Hm. destruct (Heven Hm) as [He Hhalf]. rewrite Hhalf.
    apply (shape_even n h Hn H2); [reflexivity|exact He].
  - intros Hm. destruct (Hodd Hm) as [He Hhalf]. rewrite Hhalf.
    destruct (shape_odd n h Hn H2 teams eq_refl He) as (Hlen & Hall & Hdiff).
    split; [exact Hlen|]. split.
    + eapply Forall_impl; [exact Hall|]. cbv beta.
      intros rnd (Hl & T & HT & Hidle & Huniq). split; [exact Hl|].
      exists (Z.of_nat T). split; [lia|]. split; [exact Hidle|].
      intros t' Ht' Hp. rewrite <- (Z2Nat.id t') in Hp |- * by lia.
      f_equal. apply Huniq; [lia|exact Hp].
    + intros (t & Ht & Hp). apply Hdiff. exists (Z.to_nat t). split; [lia|].
      rewrite Z2Nat.id by lia. exact Hp.
Qed.

Lemma round_robin_shape_witness :
  length (round_robin_pairs (mk_teams 5)) = 5%nat
  ∧ length (round_robin_pairs (mk_teams 4)) = 3%nat.
Proof.
  split.
  - apply (round_robin_shape (mk_teams 5)); [vm_compute; lia|reflexivity].
  - apply (round_robin_shape (mk_teams 4)); [vm_compute; lia|reflexivity].
Defined.

(** ** The move primitives do not write to their argument *)

Section Frame.

Import Store.
Local Open Scope nat_scope.

(** [base] is the size of the store when the primitive is called: every
    object below it was there before the call. *)
Variable base : nat.

Lemma outer_Some h l rounds : outer h l = Some rounds → h !! l = Some (Outer rounds).
Proof.
  unfold outer. destruct (h !! l) as [[rs|ms]|]; simpl; congruence.
Qed.

Lemma inner_Some h l matches : inner h l = Some matches → h !! l = Some (Inner matches).
Proof.
  unfold inner. destruct (h !! l) as [[rs|ms]|]; simpl; congruence.
Qed.

Lemma get_elem {A} (xs : list A) i x : Py.get xs i = Some x → x ∈ xs.
Proof.
  unfold Py.get. destruct (Py.norm (length xs) i) as [k|]; simpl; [|discriminate].
  apply list_elem_of_lookup_2.
Qed.

Lemma set_Forall {A} (P : A → Prop) (xs xs' : list A) i x :
  Py.set xs i x = Some xs' → Forall P xs → P x → Forall P xs'.
Proof.
  unfold Py.set. destruct (Py.norm (length xs) i) as [k|]; simpl; [|discriminate].
  intros [= <-] HP Hx. apply Forall_insert; assumption.
Qed.

Lemma round_ref_own h s r l : own base h s → round_ref h s r = Some l → base ≤ l.
Proof.
  intros (_ & rounds & Ho & Hall). unfold round_ref. rewrite Ho. simpl.
  intros Hg. apply get_elem in Hg. rewrite Forall_forall in Hall. auto.
Qed.

Lemma set_round_frame h s r l h' :
  own base h s → base ≤ l → set_round h s r l = Some h' →
  take base h' = take base h ∧ own base h' s.
Proof.
  intros (Hs & rounds & Ho & Hall) Hl. unfold set_round. rewrite Ho. simpl.
  destruct (Py.set rounds r l) as [rounds'|] eqn:Hset; simpl; [|discriminate].
  intros [= <-]. split; [apply take_insert_ge; exact Hs|].
  split; [exact Hs|]. exists rounds'. split.
  - unfold outer. rewrite list_lookup_insert_eq; [reflexivity|].
    apply outer_Some in Ho. eapply lookup_lt_Some; eauto.
  - eapply set_Forall; eauto.
Qed.

Lemma set_item_frame h s r i g h' :
  own base h s → set_item h s r i g = Some h' →
  take base h' = take base h ∧ own base h' s.
Proof.
  intros Hown. pose proof Hown as (Hs & rounds & Ho & Hall). unfold set_item.
  destruct (round_ref h s r) as [l|] eqn:Hr; simpl; [|discriminate].
  destruct (inner h l) as [matches|] eqn:Hi; simpl; [|discriminate].
  destruct (Py.set matches i g) as [matches'|]; simpl; [|discriminate].
  intros [= <-]. pose proof (round_ref_own _ _ _ _ Hown Hr) as Hl.
  split; [apply take_insert_ge; exact Hl|].
  split; [exact Hs|]. exists rounds. split; [|exact Hall].
  unfold outer. rewrite list_lookup_insert_ne.
  - apply outer_Some in Ho. rewrite Ho. reflexivity.
  - intros ->. apply outer_Some in Ho. apply inner_Some in Hi. congruence.
Qed.

Lemma swap_items_frame h s r1 i1 r2 i2 h' :
  own base h s → Store.swap_items h s r1 i1 r2 i2 = Some h' →
  take base h' = take base h ∧ own base h' s.
Proof.
  intros Hown. unfold Store.swap_items.
  destruct (item h s r2 i2) as [x|]; simpl; [|discriminate].
  destruct (item h s r1 i1) as [y|]; simpl; [|discriminate].
  destruct (set_item h s r1 i1 x) as [h1|] eqn:H1; simpl; [|discriminate].
  intros H2.
  destruct (set_item_frame _ _ _ _ _ _ Hown H1) as [E1 Hown1].
  destruct (set_item_frame _ _ _ _ _ _ Hown1 H2) as [E2 Hown2].
  split; [congruence|exact Hown2].
Qed.

Lemma swap_all_frame s r1 r2 pairs :
  ∀ h h', own base h s →
  Py.for_each (fun h p => Store.swap_items h s r1 p.1 r2 p.2) pairs h = Some h' →
  take base h' = take base h ∧ own base h' s.
Proof.
  induction pairs as [|p pairs IH]; intros h h' Hown; simpl.
  - intros [= <-]. auto.
  - destruct (Store.swap_items h s r1 p.1 r2 p.2) as [h1|] eqn:H1; simpl; [|discriminate].
    intros H2. destruct (swap_items_frame _ _ _ _ _ _ _ Hown H1) as [E1 Hown1].
    destruct (IH _ _ Hown1 H2) as [E2 Hown2]. split; [congruence|exact Hown2].
Qed.

Lemma copy_rounds_frame rounds :
  ∀ h memo h' rounds',
  base ≤ length h →
  (∀ l l', memo !! l = Some l' → base ≤ l') →
  copy_rounds rounds h memo = Some (h', rounds') →
  take base h' = take base h ∧ length h ≤ length h'
  ∧ Forall (fun l => base ≤ l) rounds'.
Proof.
  induction rounds as [|l rest IH]; intros h memo h' rounds' Hb Hmemo; simpl.
  - intros [= <- <-]. auto.
  - destruct (memo !! l) as [l'|] eqn:Hl.
    + destruct (copy_rounds rest h memo) as [[h1 rest']|] eqn:Hc; simpl; [|discriminate].
      intros [= <- <-]. destruct (IH _ _ _ _ Hb Hmemo Hc) as (E & Hlen & Hall).
      split; [exact E|]. split; [exact Hlen|]. constructor; eauto.
    + destruct (inner h l) as [matches|]; simpl; [|discriminate].
      destruct (copy_rounds rest (h ++ [Inner matches]) (<[l:=length h]> memo))
        as [[h1 rest']|] eqn:Hc; simpl; [|discriminate].
      intros [= <- <-]. apply IH in Hc as (E & Hlen & Hall).
      * rewrite take_app_le in E by exact Hb. rewrite length_app in Hlen. simpl in Hlen.
        split; [exact E|]. split; [lia|]. constructor; [exact Hb|exact Hall].
      * rewrite length_app. lia.
      * intros k k'. rewrite lookup_insert. case_decide; [intros [= <-]; exact Hb|].
        apply Hmemo.
Qed.

Lemma deepcopy_frame h s h' s' :
  base = length h → deepcopy h s = Some (h', s') →
  take base h' = h ∧ own base h' s'.
Proof.
  intros Hbase. unfold deepcopy, alloc.
  destruct (outer h s) as [rounds|]; simpl; [|discriminate].
  destruct (copy_rounds rounds (h ++ [Outer []]) ∅) as [[h1 rounds']|] eqn:Hc;
    simpl; [|discriminate].
  intros [= <- <-]. apply copy_rounds_frame in Hc as (E & Hlen & Hall).
  - rewrite length_app in Hlen. simpl in Hlen. split.
    + rewrite take_insert_ge by lia. rewrite E, Hbase. apply take_app_length.
    + split; [lia|]. exists rounds'. split; [|exact Hall].
      unfold outer. rewrite list_lookup_insert_eq by lia. reflexivity.
  - rewrite length_app. lia.
  - intros l l'. rewrite lookup_empty. discriminate.
Qed.

Lemma refuse_frame h s h' s' b :
  base = length h → refuse h s = Some (h', (s', b)) →
  take base h' = h ∧ base ≤ s'.
Proof.
  intros Hbase. unfold refuse.
  destruct (deepcopy h s) as [[h1 s1]|] eqn:Hd; simpl; [|discriminate].
  intros [= <- <- <-]. apply deepcopy_frame in Hd as [E Hown]; [|exact Hbase].
  split; [exact E|apply Hown].
Qed.

Ltac refused :=
  match goal with
  | H : refuse _ _ = Some _ |- _ => eapply refuse_frame; eassumption
  end.

Ltac bind_step H :=
  match type of H with
  | (?m ≫= _) = Some _ =>
      let Hb := fresh "Hb" in destruct m eqn:Hb; simpl in H; [|discriminate]
  end.

Lemma move_swap_rounds_frame h s r1 r2 h' s' b :
  base = length h → Store.move_swap_rounds h s r1 r2 = Some (h', (s', b)) →
  take base h' = h ∧ base ≤ s'.
Proof.
  intros Hbase H. unfold Store.move_swap_rounds in H.
  bind_step H. destruct (_ || _) in H; [refused|].
  destruct (deepcopy h s) as [[h1 s1]|] eqn:Hd; simpl in H; [|discriminate].
  apply deepcopy_frame in Hd as [E Hown]; [|exact Hbase].
  destruct (round_ref h1 s1 r2) as [x|] eqn:Hx; simpl in H; [|discriminate].
  destruct (round_ref h1 s1 r1) as [y|] eqn:Hy; simpl in H; [|discriminate].
  destruct (set_round h1 s1 r1 x) as [h2|] eqn:H1; simpl in H; [|discriminate].
  destruct (set_round h2 s1 r2 y) as [h3|] eqn:H2; simpl in H; [|discriminate].
  injection H as <- <- <-.
  pose proof (round_ref_own _ _ _ _ Hown Hx) as Lx.
  pose proof (round_ref_own _ _ _ _ Hown Hy) as Ly.
  destruct (set_round_frame _ _ _ _ _ Hown Lx H1) as [E1 Hown1].
  destruct (set_round_frame _ _ _ _ _ Hown1 Ly H2) as [E2 Hown2].
  split; [congruence|apply Hown].
Qed.

Lemma move_swap_matches_frame h s r1 i1 r2 i2 h' s' b :
  base = length h → Store.move_swap_matches h s r1 i1 r2 i2 = Some (h', (s', b)) →
  take base h' = h ∧ base ≤ s'.
Proof.
  intros Hbase H. unfold Store.move_swap_matches in H.
  bind_step H. destruct (_ || _) in H; [refused|].
  bind_step H. bind_step H. destruct (_ || _) in H; [refused|].
  bind_step H. bind_step H. destruct (_ || _) in H; [refused|].
  destruct (deepcopy h s) as [[h1 s1]|] eqn:Hd; simpl in H; [|discriminate].
  apply deepcopy_frame in Hd as [E Hown]; [|exact Hbase].
  destruct (Store.swap_items h1 s1 r1 i1 r2 i2) as [h2|] eqn:H1; simpl in H; [|discriminate].
  injection H as <- <- <-.
  destruct (swap_items_frame _ _ _ _ _ _ _ Hown H1) as [E1 Hown1].
  split; [congruence|apply Hown].
Qed.

Lemma move_flip_venue_frame h s r i h' s' b :
  base = length h → Store.move_flip_venue h s r i = Some (h', (s', b)) →
  take base h' = h ∧ base ≤ s'.
Proof.
  intros Hbase H. unfold Store.move_flip_venue in H.
  bind_step H. destruct (_ || _) in H; [refused|].
  bind_step H. destruct (_ || _) in H; [refused|].
  destruct (deepcopy h s) as [[h1 s1]|] eqn:Hd; simpl in H; [|discriminate].
  apply deepcopy_frame in Hd as [E Hown]; [|exact Hbase].
  destruct (item h1 s1 r i) as [[home_id away_id]|]; simpl in H; [|discriminate].
  destruct (set_item h1 s1 r i (away_id, home_id)) as [h2|] eqn:H1;
    simpl in H; [|discriminate].
  injection H as <- <- <-.
  destruct (set_item_frame _ _ _ _ _ _ Hown H1) as [E1 Hown1].
  split; [congruence|apply Hown].
Qed.

Lemma move_swap_pairings_frame h s r1 r2 pairs h' s' b :
  base = length h → Store.move_swap_pairings h s r1 r2 pairs = Some (h', (s', b)) →
  take base h' = h ∧ base ≤ s'.
Proof.
  intros Hbase H. unfold Store.move_swap_pairings in H.
  bind_step H. destruct (_ || _) in H; [refused|].
  bind_step H. bind_step H. bind_step H.
  match type of H with match ?c with _ => _ end = _ => destruct c as [[t1 t2]|] end;
    [|refused].
  destruct (_ || _) in H; [refused|].
  destruct (deepcopy h s) as [[h1 s1]|] eqn:Hd; simpl in H; [|discriminate].
  apply deepcopy_frame in Hd as [E Hown]; [|exact Hbase].
  match type of H with (?m ≫= _) = _ => destruct m as [h2|] eqn:H1 end;
    simpl in H; [|discriminate].
  injection H as <- <- <-.
  destruct (swap_all_frame _ _ _ _ _ _ Hown H1) as [E1 Hown1].
  split; [congruence|apply Hown].
Qed.

Lemma run_frame h s c h' s' b :
  base = length h → run h s c = Some (h', (s', b)) →
  take base h' = h ∧ base ≤ s'.
Proof.
  intros Hbase. destruct c; simpl.
  - apply move_swap_rounds_frame; exact Hbase.
  - apply move_swap_matches_frame; exact Hbase.
  - apply move_flip_venue_frame; exact Hbase.
  - apply move_swap_pairings_frame; exact Hbase.
Qed.

End Frame.

Lemma read_frame (h h' : list Store.obj) s v :
  take (length h) h' = h → Store.read h s = Some v → Store.read h' s = Some v.
Proof.
  intros E.
  assert (Hlook : ∀ l o, h !! l = Some o → h' !! l = Some o).
  { intros l o Hl. rewrite <- E in Hl. apply lookup_take_Some in Hl. tauto. }
  unfold Store.read.
  destruct (Store.outer h s) as [rounds|] eqn:Ho; simpl; [|discriminate].
  apply outer_Some in Ho. apply Hlook in Ho.
  unfold Store.outer at 1. rewrite Ho. simpl.
  intros Hm. apply mapM_Some in Hm. apply mapM_Some.
  eapply Forall2_impl; [exact Hm|]. cbv beta. intros l ms Hi.
  apply inner_Some in Hi. apply Hlook in Hi. unfold Store.inner. rewrite Hi. reflexivity.
Qed.

(** C7: when one of the four move primitives returns, the schedule passed
    to it denotes the value it denoted before the call, every object that
    was in the store is as it was, and the returned schedule is a new
    object. *)
Theorem moves_leave_input_unchanged (h : list Store.obj) (schedule : nat)
    (c : Store.call) (v : Schedule) h' new_schedule feasible :
  Store.read h schedule = Some v →
  Store.run h schedule c = Some (h', (new_schedule, feasible)) →
  Store.read h' schedule = Some v
  ∧ take (length h) h' = h
  ∧ (length h ≤ new_schedule)%nat.
Proof.
  intros Hread Hrun.
  destruct (run_frame (length h) h schedule c h' new_schedule feasible eq_refl Hrun)
    as [E Hnew].
  split; [|split]; [|exact E|exact Hnew].
  eapply read_frame; eauto.
Qed.

Lemma moves_leave_input_unchanged_witness :
  let h' : list Store.obj :=
    [Store.Inner [(0, 1); (2, 3)]; Store.Inner [(1, 2); (3, 0)];
     Store.Inner [(0, 2); (3, 1)]; Store.Outer [0; 1; 2]%nat;
     Store.Outer [5; 6; 7]%nat; Store.Inner [(0, 1); (2, 3)];
     Store.Inner [(1, 2); (0, 3)]; Store.Inner [(0, 2); (3, 1)]] in
  Store.read h' 3%nat = Some sched4
  ∧ take 4 h' = Store.heap4
  ∧ (4 ≤ 4)%nat.
Proof.
  apply (moves_leave_input_unchanged Store.heap4 3%nat (Store.FlipVenue 1 1) sched4
           _ 4%nat true); vm_compute; reflexivity.
Defined.

(** ** The primitives on the store compute what they compute on values *)

Section Refinement.

Local Open Scope nat_scope.

Lemma read_spec (h : list Store.obj) s v :
  Store.read h s = Some v
  ↔ ∃ rounds, Store.outer h s = Some rounds
              ∧ Forall2 (fun l rnd => Store.inner h l = Some rnd) rounds v.
Proof.
  unfold Store.read. destruct (Store.outer h s) as [rounds|]; simpl.
  - rewrite mapM_Some. split; [eauto|]. intros (rs & [= <-] & H). exact H.
  - split; [discriminate|]. intros (rs & [=] & _).
Qed.

Lemma repr_read h s v : Store.repr h s v → Store.read h s = Some v.
Proof. intros (rounds & Ho & _ & Hall). apply read_spec. eauto. Qed.

Lemma inner_app (h ext : list Store.obj) l rnd :
  Store.inner h l = Some rnd → Store.inner (h ++ ext) l = Some rnd.
Proof.
  intros H. apply inner_Some in H. unfold Store.inner.
  rewrite lookup_app_l by (eapply lookup_lt_Some; eauto). rewrite H. reflexivity.
Qed.

Lemma copy_rounds_spec rounds :
  ∀ (h : list Store.obj) memo v,
  Forall2 (fun l rnd => Store.inner h l = Some rnd) rounds v →
  NoDup rounds →
  (∀ l, l ∈ rounds → memo !! l = None) →
  ∃ ext,
    Store.copy_rounds rounds h memo = Some (h ++ ext, seq (length h) (length rounds))
    ∧ Forall2 (fun l rnd => Store.inner (h ++ ext) l = Some rnd)
        (seq (length h) (length rounds)) v.
Proof.
  induction rounds as [|l rest IH]; intros h memo v Hall Hnd Hmemo.
  - apply Forall2_nil_inv_l in Hall as ->. exists []. rewrite app_nil_r. simpl.
    split; [reflexivity|constructor].
  - apply Forall2_cons_inv_l in Hall as (rnd & v' & Hl & Hall & ->).
    apply NoDup_cons in Hnd as [Hnotin Hnd].
    simpl. rewrite (Hmemo l) by left. rewrite Hl. simpl.
    destruct (IH (h ++ [Store.Inner rnd]) (<[l := length h]> memo) v') as (ext & Hc & Hall').
    + eapply Forall2_impl; [exact Hall|]. intros l0 rnd0. apply inner_app.
    + exact Hnd.
    + intros l0 Hin. rewrite lookup_insert_ne; [apply Hmemo; right; exact Hin|].
      intros ->. contradiction.
    + rewrite length_app in Hc, Hall'. simpl in Hc, Hall'.
      replace (length h + 1) with (S (length h)) in Hc, Hall' by lia.
      rewrite <- app_assoc in Hc, Hall'. rewrite Hc. simpl.
      exists ([Store.Inner rnd] ++ ext). split; [reflexivity|].
      constructor; [|exact Hall'].
      unfold Store.inner. rewrite lookup_app_r by lia. rewrite Nat.sub_diag. reflexivity.
Qed.

Lemma deepcopy_spec (h : list Store.obj) s v :
  Store.repr h s v → ∃ h' s', Store.deepcopy h s = Some (h', s') ∧ Store.repr h' s' v.
Proof.
  intros (rounds & Ho & Hnd & Hall). unfold Store.deepcopy, Store.alloc. rewrite Ho. simpl.
  destruct (copy_rounds_spec rounds (h ++ [Store.Outer []]) ∅ v) as (ext & Hc & Hall').
  - eapply Forall2_impl; [exact Hall|]. intros l0 rnd0. apply inner_app.
  - exact Hnd.
  - intros l _. apply lookup_empty.
  - rewrite Hc. simpl. eexists _, _. split; [reflexivity|].
    rewrite length_app in *. simpl in *.
    exists (seq (length h + 1) (length rounds)). split; [|split].
    + unfold Store.outer. rewrite list_lookup_insert_eq; [reflexivity|].
      rewrite !length_app. simpl. lia.
    + apply NoDup_seq.
    + apply Forall2_same_length_lookup. apply Forall2_same_length_lookup in Hall' as [Hlen Hl].
      split; [exact Hlen|]. intros i l rnd Hi Hv.
      pose proof (Hl i l rnd Hi Hv) as Hin. apply lookup_seq in Hi as [-> _].
      unfold Store.inner in *. rewrite list_lookup_insert_ne by lia. exact Hin.
Qed.

Lemma get_rounds_sim (h : list Store.obj) rounds (v : Schedule) r :
  Forall2 (fun l rnd => Store.inner h l = Some rnd) rounds v →
  Py.get rounds r ≫= Store.inner h = Py.get v r.
Proof.
  intros Hall. pose proof (Forall2_length _ _ _ Hall) as Hlen.
  unfold Py.get. rewrite <- Hlen.
  destruct (Py.norm (length rounds) r) as [k|]; simpl; [|reflexivity].
  destruct (rounds !! k) as [l|] eqn:Hl; simpl.
  - destruct (Forall2_lookup_l _ _ _ _ _ Hall Hl) as (rnd & -> & Hi). exact Hi.
  - symmetry. apply lookup_ge_None. apply lookup_ge_None in Hl. lia.
Qed.

Lemma round_ref_sim (h : list Store.obj) s v r :
  Store.repr h s v → Store.round_ref h s r ≫= Store.inner h = Py.get v r.
Proof.
  intros (rounds & Ho & _ & Hall). unfold Store.round_ref. rewrite Ho. simpl.
  apply get_rounds_sim. exact Hall.
Qed.

Lemma item_sim (h : list Store.obj) s v r i :
  Store.repr h s v → Store.item h s r i = Py.get v r ≫= (fun rnd => Py.get rnd i).
Proof.
  intros Hr. rewrite <- (round_ref_sim h s v r Hr). unfold Store.item.
  destruct (Store.round_ref h s r) as [l|]; simpl; reflexivity.
Qed.

Lemma repr_length (h : list Store.obj) s v rounds :
  Store.repr h s v → Store.outer h s = Some rounds → length rounds = length v.
Proof.
  intros (rounds' & Ho & _ & Hall) Ho'. rewrite Ho in Ho'. injection Ho' as <-.
  eapply Forall2_length; eauto.
Qed.

Lemma set_item_sim (h : list Store.obj) s v r i g :
  Store.repr h s v → Store.follows s (Store.set_item h s r i g) (set_item2 v r i g).
Proof.
  intros Hr. pose proof Hr as (rounds & Ho & Hnd & Hall).
  pose proof (Forall2_length _ _ _ Hall) as Hlen.
  unfold Store.follows, Store.set_item, set_item2, Store.round_ref. rewrite Ho. simpl.
  unfold Py.get. rewrite <- Hlen.
  destruct (Py.norm (length rounds) r) as [k|] eqn:Hk; simpl; [|reflexivity].
  destruct (rounds !! k) as [l|] eqn:Hl; simpl.
  2:{ assert (v !! k = None) as ->; [|reflexivity].
      apply lookup_ge_None. apply lookup_ge_None in Hl. lia. }
  destruct (Forall2_lookup_l _ _ _ _ _ Hall Hl) as (rnd & Hv & Hi).
  rewrite Hv, Hi. simpl.
  destruct (Py.set rnd i g) as [rnd'|] eqn:Hs; simpl; [|reflexivity].
  assert (Py.set v r rnd' = Some (<[k := rnd']> v)) as ->.
  { apply set_Some. exists k. rewrite <- Hlen. auto. }
  eexists. split; [reflexivity|].
  pose proof (inner_Some _ _ _ Hi) as Hhl.
  pose proof (lookup_lt_Some _ _ _ Hhl) as Hlt.
  exists rounds. split; [|split; [exact Hnd|]].
  - unfold Store.outer. rewrite list_lookup_insert_ne.
    + apply outer_Some in Ho. rewrite Ho. reflexivity.
    + intros ->. apply outer_Some in Ho. congruence.
  - apply Forall2_same_length_lookup. split; [rewrite length_insert; exact Hlen|].
    intros k' l' rnd0 Hl' Hv'. unfold Store.inner.
    destruct (decide (k' = k)) as [->|Hne].
    + rewrite Hl in Hl'. injection Hl' as <-.
      rewrite list_lookup_insert_eq in Hv' by (apply lookup_lt_Some in Hv; exact Hv).
      injection Hv' as <-. rewrite list_lookup_insert_eq by exact Hlt. reflexivity.
    + rewrite list_lookup_insert_ne in Hv' by auto.
      assert (l' ≠ l) as Hll.
      { intros ->. apply Hne. eapply NoDup_lookup; eauto. }
      rewrite list_lookup_insert_ne by auto.
      pose proof (Forall2_lookup_lr _ _ _ _ _ _ Hall Hl' Hv') as Hin. exact Hin.
Qed.

Lemma swap_items_sim (h : list Store.obj) s v r1 i1 r2 i2 :
  Store.repr h s v →
  Store.follows s (Store.swap_items h s r1 i1 r2 i2) (swap_items v r1 i1 r2 i2).
Proof.
  intros Hr. unfold Store.swap_items, swap_items.
  rewrite (item_sim h s v r2 i2 Hr), (item_sim h s v r1 i1 Hr).
  destruct (Py.get v r2) as [rnd2|]; simpl; [|reflexivity].
  destruct (Py.get rnd2 i2) as [x|]; simpl; [|reflexivity].
  destruct (Py.get v r1) as [rnd1|]; simpl; [|reflexivity].
  destruct (Py.get rnd1 i1) as [y|]; simpl; [|reflexivity].
  pose proof (set_item_sim h s v r1 i1 x Hr) as H1. unfold Store.follows in H1.
  destruct (set_item2 v r1 i1 x) as [v1|]; simpl.
  - destruct H1 as (h1 & -> & Hr1). simpl. apply set_item_sim. exact Hr1.
  - rewrite H1. reflexivity.
Qed.

Lemma swap_all_sim s r1 r2 pairs :
  ∀ (h : list Store.obj) v, Store.repr h s v →
  Store.follows s (Py.for_each (fun h p => Store.swap_items h s r1 p.1 r2 p.2) pairs h)
            (Py.for_each (fun v p => swap_items v r1 p.1 r2 p.2) pairs v).
Proof.
  induction pairs as [|p pairs IH]; intros h v Hr; simpl.
  - eexists. eauto.
  - pose proof (swap_items_sim h s v r1 p.1 r2 p.2 Hr) as H1. unfold Store.follows in H1.
    destruct (swap_items v r1 p.1 r2 p.2) as [v1|]; simpl.
    + destruct H1 as (h1 & -> & Hr1). simpl. apply IH. exact Hr1.
    + rewrite H1. reflexivity.
Qed.

Lemma follows_agrees s (res : option (list Store.obj)) (vres : option Schedule) :
  Store.follows s res vres →
  agrees (h ← res; Some (h, (s, true))) (new_schedule ← vres; Some (new_schedule, true)).
Proof.
  unfold Store.follows, agrees. destruct vres as [v'|]; simpl.
  - intros (h' & -> & Hr). simpl. split; [reflexivity|]. apply repr_read. exact Hr.
  - intros ->. exact I.
Qed.

Lemma refuse_agrees (h : list Store.obj) s v :
  Store.repr h s v → agrees (Store.refuse h s) (Some (v, false)).
Proof.
  intros Hr. unfold Store.refuse.
  destruct (deepcopy_spec h s v Hr) as (h' & s' & -> & Hr'). simpl.
  split; [reflexivity|]. apply repr_read. exact Hr'.
Qed.

Lemma set_round_read (h : list Store.obj) s rounds (v : Schedule) r l rnd :
  Store.outer h s = Some rounds →
  Forall2 (fun l rnd => Store.inner h l = Some rnd) rounds v →
  Store.inner h l = Some rnd →
  (0 ≤ r < Z.of_nat (length rounds))%Z →
  ∃ h', Store.set_round h s r l = Some h'
        ∧ Store.outer h' s = Some (<[Z.to_nat r := l]> rounds)
        ∧ Forall2 (fun l rnd => Store.inner h' l = Some rnd)
            (<[Z.to_nat r := l]> rounds) (<[Z.to_nat r := rnd]> v)
        ∧ ∀ l0 rnd0, Store.inner h l0 = Some rnd0 → Store.inner h' l0 = Some rnd0.
Proof.
  intros Ho Hall Hl Hr. unfold Store.set_round. rewrite Ho. simpl.
  rewrite set_in_range by exact Hr. simpl. eexists. split; [reflexivity|].
  pose proof (outer_Some _ _ _ Ho) as Hs. pose proof (lookup_lt_Some _ _ _ Hs) as Hlt.
  assert (Hkeep : ∀ l0 rnd0, Store.inner h l0 = Some rnd0 →
            Store.inner (<[s := Store.Outer (<[Z.to_nat r := l]> rounds)]> h) l0
            = Some rnd0).
  { intros l0 rnd0 H0. unfold Store.inner. rewrite list_lookup_insert_ne.
    - exact H0.
    - intros ->. apply inner_Some in H0. congruence. }
  split; [|split; [|exact Hkeep]].
  - unfold Store.outer. rewrite list_lookup_insert_eq by exact Hlt. reflexivity.
  - apply Forall2_insert; [|apply Hkeep; exact Hl].
    eapply Forall2_impl; [exact Hall|]. exact Hkeep.
Qed.

Lemma move_swap_rounds_agrees (h : list Store.obj) s v r1 r2 :
  Store.repr h s v →
  agrees (Store.move_swap_rounds h s r1 r2) (move_swap_rounds v r1 r2).
Proof.
  intros Hr. pose proof Hr as (rounds & Ho & _ & Hall).
  unfold Store.move_swap_rounds, move_swap_rounds. rewrite Ho. simpl.
  rewrite (Forall2_length _ _ _ Hall).
  destruct (_ || _) eqn:G; [apply refuse_agrees; exact Hr|].
  apply round_guard in G as [H1 H2].
  destruct (deepcopy_spec h s v Hr) as (h1 & s1 & -> & rounds1 & Ho1 & _ & Hall1). simpl.
  pose proof (Forall2_length _ _ _ Hall1) as Hlen1.
  unfold Store.round_ref. rewrite Ho1. simpl.
  destruct (get_in_range rounds1 r2) as (x & -> & Hx); [lia|].
  destruct (get_in_range rounds1 r1) as (y & -> & Hy); [lia|]. simpl.
  destruct (get_in_range v r2 H2) as (vx & -> & Hvx).
  destruct (get_in_range v r1 H1) as (vy & -> & Hvy). simpl.
  pose proof (Forall2_lookup_lr _ _ _ _ _ _ Hall1 Hx Hvx) as Hix.
  pose proof (Forall2_lookup_lr _ _ _ _ _ _ Hall1 Hy Hvy) as Hiy.
  destruct (set_round_read h1 s1 rounds1 v r1 x vx Ho1 Hall1 Hix ltac:(lia))
    as (h2 & -> & Ho2 & Hall2 & Hkeep2). simpl.
  destruct (set_round_read h2 s1 _ _ r2 y vy Ho2 Hall2 (Hkeep2 _ _ Hiy))
    as (h3 & -> & Ho3 & Hall3 & _); [rewrite length_insert; lia|]. simpl.
  rewrite set_in_range by exact H1. simpl.
  rewrite set_in_range by (rewrite length_insert; exact H2). simpl.
  split; [reflexivity|]. apply read_spec. eauto.
Qed.

Lemma move_swap_matches_agrees (h : list Store.obj) s v r1 i1 r2 i2 :
  Store.repr h s v →
  agrees (Store.move_swap_matches h s r1 i1 r2 i2) (move_swap_matches v r1 i1 r2 i2).
Proof.
  intros Hr. pose proof Hr as (rounds & Ho & _ & Hall).
  unfold Store.move_swap_matches, move_swap_matches. rewrite Ho. simpl.
  rewrite (Forall2_length _ _ _ Hall).
  destruct (_ || _); [apply refuse_agrees; exact Hr|].
  rewrite !(round_ref_sim h s v _ Hr).
  destruct (Py.get v r1) as [round1|]; simpl; [|exact I].
  destruct (Py.get v r2) as [round2|]; simpl; [|exact I].
  destruct (_ || _); [apply refuse_agrees; exact Hr|].
  destruct (Py.get round1 i1) as [m1|]; simpl; [|exact I].
  destruct (Py.get round2 i2) as [m2|]; simpl; [|exact I].
  destruct (_ || _); [apply refuse_agrees; exact Hr|].
  destruct (deepcopy_spec h s v Hr) as (h1 & s1 & -> & Hr1). simpl.
  apply follows_agrees. apply swap_items_sim. exact Hr1.
Qed.

Lemma move_flip_venue_agrees (h : list Store.obj) s v round_idx match_idx :
  Store.repr h s v →
  agrees (Store.move_flip_venue h s round_idx match_idx)
         (move_flip_venue v round_idx match_idx).
Proof.
  intros Hr. pose proof Hr as (rounds & Ho & _ & Hall).
  unfold Store.move_flip_venue, move_flip_venue. rewrite Ho. simpl.
  rewrite (Forall2_length _ _ _ Hall).
  destruct (_ || _); [apply refuse_agrees; exact Hr|].
  rewrite (round_ref_sim h s v _ Hr).
  destruct (Py.get v round_idx) as [rnd|] eqn:Hg; simpl; [|exact I].
  destruct (_ || _); [apply refuse_agrees; exact Hr|].
  destruct (deepcopy_spec h s v Hr) as (h1 & s1 & -> & Hr1). simpl.
  rewrite (item_sim h1 s1 v _ _ Hr1), Hg. simpl.
  destruct (Py.get rnd match_idx) as [[home_id away_id]|]; simpl; [|exact I].
  apply follows_agrees. apply set_item_sim. exact Hr1.
Qed.

Lemma move_swap_pairings_agrees (h : list Store.obj) s v r1 r2 pairs :
  Store.repr h s v →
  agrees (Store.move_swap_pairings h s r1 r2 pairs) (move_swap_pairings v r1 r2 pairs).
Proof.
  intros Hr. pose proof Hr as (rounds & Ho & _ & Hall).
  unfold Store.move_swap_pairings, move_swap_pairings. rewrite Ho. simpl.
  rewrite (Forall2_length _ _ _ Hall).
  destruct (_ || _); [apply refuse_agrees; exact Hr|].
  rewrite !(round_ref_sim h s v _ Hr).
  destruct (Py.get v r1) as [round1|]; simpl; [|exact I].
  destruct (Py.get v r2) as [round2|]; simpl; [|exact I].
  destruct (collect_swap_teams round1 round2 pairs (∅, ∅)) as [[[t1 t2]|]|]; simpl;
    [|apply refuse_agrees; exact Hr|exact I].
  destruct (_ || _); [apply refuse_agrees; exact Hr|].
  destruct (deepcopy_spec h s v Hr) as (h1 & s1 & -> & Hr1). simpl.
  apply follows_agrees. apply swap_all_sim. exact Hr1.
Qed.

End Refinement.

(** On a store where the schedule denotes [v] and no round object occurs
    twice in it, a primitive does what it does on the value [v]. *)
Lemma run_agrees (h : list Store.obj) (s : nat) (v : Schedule) (c : Store.call) :
  Store.repr h s v → agrees (Store.run h s c) (run_value v c).
Proof.
  intros Hr. destruct c; simpl.
  - apply move_swap_rounds_agrees. exact Hr.
  - apply move_swap_matches_agrees. exact Hr.
  - apply move_flip_venue_agrees. exact Hr.
  - apply move_swap_pairings_agrees. exact Hr.
Qed.

(** * Further results *)

(** ** Further properties of the move primitives *)

(** *** Which pairs meet, and how often *)

Section Weights.

Context {A : Type}.

(** Writing [x] over [old] moves the total weight of a list by the
    difference of their weights. *)
Lemma weight_insert (f : A → nat) (l : list A) k old x :
  l !! k = Some old →
  (list_sum (map f (<[k := x]> l)) + f old = list_sum (map f l) + f x)%nat.
Proof.
  revert k. induction l as [|y l IH]; intros [|k] Hk; simpl in *; try discriminate.
  - injection Hk as ->. lia.
  - specialize (IH k Hk). lia.
Qed.

End Weights.

(** The number of matches of a round, and of a schedule, that oppose
    [a] and [b]. *)
Lemma pair_count_rounds a b (s : Schedule) :
  pair_count a b s
  = list_sum (map (fun rnd : Round => length (List.filter (meets a b) rnd)) s).
Proof.
  unfold pair_count. rewrite <- (map_id s) at 1.
  apply filter_concat_map_length.
Qed.














(** *** Refusals *)

(** X2: [move_swap_rounds], [move_swap_matches] and [move_flip_venue] answer
    an index outside [0, len) with the schedule as it is and feasibility
    false; none of them raises. *)
Theorem three_moves_refuse_out_of_range (s : Schedule) (r1 i1 r2 i2 : Z) :
  (¬ (0 ≤ r1 < Z.of_nat (length s) ∧ 0 ≤ r2 < Z.of_nat (length s)) →
   move_swap_rounds s r1 r2 = Some (s, false))
  ∧ (¬ (slot_in_range s r1 i1 ∧ slot_in_range s r2 i2) →
     move_swap_matches s r1 i1 r2 i2 = Some (s, false))
  ∧ (¬ slot_in_range s r1 i1 → move_flip_venue s r1 i1 = Some (s, false)).
Proof.
  split; [|split].
  - apply move_swap_rounds_out_of_range.
  - apply move_swap_matches_out_of_range.
  - apply move_flip_venue_out_of_range.
Qed.

Lemma three_moves_refuse_out_of_range_witness :
  move_swap_rounds sched4 3 0 = Some (sched4, false)
  ∧ move_swap_matches sched4 0 (-1) 1 0 = Some (sched4, false)
  ∧ move_flip_venue sched4 0 2 = Some (sched4, false).
Proof.
  split; [|split].
  - apply (proj1 (three_moves_refuse_out_of_range sched4 3 0 0 0)). simpl. lia.
  - apply (proj1 (proj2 (three_moves_refuse_out_of_range sched4 0 (-1) 1 0))).
    intros [(rnd & _ & _ & H) _]. lia.
  - apply (proj2 (proj2 (three_moves_refuse_out_of_range sched4 0 2 0 0))).
    intros (rnd & _ & Hl & H). simpl in Hl. injection Hl as <-. simpl in H. lia.
Defined.

(** Every path of a primitive that reports feasibility false returns the
    copy of its argument. *)
Lemma move_swap_rounds_refused (s : Schedule) r1 r2 s' :
  move_swap_rounds s r1 r2 = Some (s', false) → s' = s.
Proof.
  unfold move_swap_rounds.
  destruct (_ || _); [intros [= <-]; reflexivity|].
  destruct (Py.get s r2); simpl; [|discriminate].
  destruct (Py.get s r1); simpl; [|discriminate].
  destruct (Py.set s r1 _) as [s1|]; simpl; [|discriminate].
  destruct (Py.set s1 r2 _); simpl; discriminate.
Qed.

Lemma move_swap_matches_refused (s : Schedule) r1 i1 r2 i2 s' :
  move_swap_matches s r1 i1 r2 i2 = Some (s', false) → s' = s.
Proof.
  unfold move_swap_matches.
  destruct (_ || _); [intros [= <-]; reflexivity|].
  destruct (Py.get s r1) as [round1|]; simpl; [|discriminate].
  destruct (Py.get s r2) as [round2|]; simpl; [|discriminate].
  destruct (_ || _); [intros [= <-]; reflexivity|].
  destruct (Py.get round1 i1) as [m1|]; simpl; [|discriminate].
  destruct (Py.get round2 i2) as [m2|]; simpl; [|discriminate].
  destruct (_ || _); [intros [= <-]; reflexivity|].
  destruct (swap_items s r1 i1 r2 i2); simpl; discriminate.
Qed.

Lemma move_flip_venue_refused (s : Schedule) round_idx match_idx s' :
  move_flip_venue s round_idx match_idx = Some (s', false) → s' = s.
Proof.
  unfold move_flip_venue.
  destruct (_ || _); [intros [= <-]; reflexivity|].
  destruct (Py.get s round_idx) as [rnd|]; simpl; [|discriminate].
  destruct (_ || _); [intros [= <-]; reflexivity|].
  destruct (Py.get rnd match_idx) as [[home_id away_id]|]; simpl; [|discriminate].
  destruct (set_item2 s round_idx match_idx _); simpl; discriminate.
Qed.

Lemma move_swap_pairings_refused (s : Schedule) r1 r2 pairs s' :
  move_swap_pairings s r1 r2 pairs = Some (s', false) → s' = s.
Proof.
  unfold move_swap_pairings.
  destruct (_ || _); [intros [= <-]; reflexivity|].
  destruct (Py.get s r1) as [round1|]; simpl; [|discriminate].
  destruct (Py.get s r2) as [round2|]; simpl; [|discriminate].
  destruct (collect_swap_teams round1 round2 pairs (∅, ∅)) as [[[t1 t2]|]|];
    simpl; [| intros [= <-]; reflexivity | discriminate].
  destruct (_ || _); [intros [= <-]; reflexivity|].
  destruct (Py.for_each _ pairs s); simpl; discriminate.
Qed.

(** X3: a primitive that reports feasibility false returns a schedule equal
    to its argument: a refused move changes nothing. *)
Theorem refused_move_changes_nothing (s : Schedule) (c : Store.call) s' :
  run_value s c = Some (s', false) → s' = s.
Proof.
  destruct c; simpl.
  - apply move_swap_rounds_refused.
  - apply move_swap_matches_refused.
  - apply move_flip_venue_refused.
  - apply move_swap_pairings_refused.
Qed.

Lemma refused_move_changes_nothing_witness : sched4 = sched4.
Proof.
  apply (refused_move_changes_nothing sched4 (Store.SwapMatches 0 0 1 0) sched4).
  vm_compute. reflexivity.
Defined.

(** *** Moves that undo themselves *)

Lemma insert_insert_back {A} (l : list A) k1 k2 x y :
  l !! k1 = Some y → l !! k2 = Some x →
  <[k2 := x]> (<[k1 := y]> (<[k2 := y]> (<[k1 := x]> l))) = l.
Proof.
  intros H1 H2.
  pose proof (lookup_lt_Some _ _ _ H1) as L1.
  pose proof (lookup_lt_Some _ _ _ H2) as L2.
  apply list_eq. intros i.
  destruct (decide (i = k2)) as [->|E2].
  - rewrite list_lookup_insert_eq by (rewrite !length_insert; exact L2).
    symmetry. exact H2.
  - rewrite list_lookup_insert_ne by congruence.
    destruct (decide (i = k1)) as [->|E1].
    + rewrite list_lookup_insert_eq by (rewrite !length_insert; exact L1).
      symmetry. exact H1.
    + rewrite !list_lookup_insert_ne by congruence. reflexivity.
Qed.

(** Swapping the same two rounds again gives the schedule back. *)
Lemma move_swap_rounds_undo (s : Schedule) (r1 r2 : Z) s' :
  move_swap_rounds s r1 r2 = Some (s', true) →
  move_swap_rounds s' r1 r2 = Some (s, true).
Proof.
  unfold move_swap_rounds.
  destruct (_ || _) eqn:G; [discriminate|].
  apply round_guard in G as [G1 G2].
  destruct (get_in_range s r2 G2) as (x & -> & Hx).
  destruct (get_in_range s r1 G1) as (y & -> & Hy). simpl.
  rewrite set_in_range by exact G1. simpl.
  rewrite set_in_range by (rewrite length_insert; exact G2). simpl.
  intros [= <-]. rewrite !length_insert.
  destruct (_ || _) eqn:G'.
  { exfalso. rewrite !orb_true_iff, !Z.ltb_lt, !Z.leb_le in G'. lia. }
  set (k1 := Z.to_nat r1) in *. set (k2 := Z.to_nat r2) in *.
  assert (L1 : (k1 < length s)%nat) by (eapply lookup_lt_Some; eauto).
  assert (L2 : (k2 < length s)%nat) by (eapply lookup_lt_Some; eauto).
  assert (Hg2 : Py.get (<[k2 := y]> (<[k1 := x]> s)) r2 = Some y).
  { apply get_Some. exists k2. rewrite !length_insert.
    split; [apply norm_in_range; exact G2|].
    apply list_lookup_insert_eq. rewrite length_insert. exact L2. }
  assert (Hg1 : Py.get (<[k2 := y]> (<[k1 := x]> s)) r1
                = Some (if decide (k1 = k2) then y else x)).
  { apply get_Some. exists k1. rewrite !length_insert.
    split; [apply norm_in_range; exact G1|].
    destruct (decide (k1 = k2)) as [->|E].
    - apply list_lookup_insert_eq. rewrite length_insert. exact L2.
    - rewrite list_lookup_insert_ne by congruence.
      apply list_lookup_insert_eq. exact L1. }
  rewrite Hg2, Hg1. simpl.
  rewrite set_in_range by (rewrite !length_insert; exact G1). simpl.
  rewrite set_in_range by (rewrite !length_insert; exact G2). simpl.
  fold k1 k2. f_equal. f_equal.
  destruct (decide (k1 = k2)) as [E|E].
  - rewrite <- E in *. rewrite Hx in Hy. injection Hy as ->.
    rewrite !list_insert_insert_eq. apply list_insert_id. exact Hx.
  - apply insert_insert_back; assumption.
Qed.

(** The flip of a match that exists. *)
Lemma move_flip_venue_in_range (s : Schedule) round_idx match_idx rnd home_id away_id :
  0 ≤ round_idx → s !! Z.to_nat round_idx = Some rnd →
  0 ≤ match_idx → rnd !! Z.to_nat match_idx = Some (home_id, away_id) →
  move_flip_venue s round_idx match_idx
  = Some (<[Z.to_nat round_idx := <[Z.to_nat match_idx := (away_id, home_id)]> rnd]> s,
          true).
Proof.
  intros Hr Hl Hi Hm.
  pose proof (lookup_lt_Some _ _ _ Hl) as Lk.
  pose proof (lookup_lt_Some _ _ _ Hm) as Lj.
  unfold move_flip_venue.
  replace ((round_idx <? 0) || (Z.of_nat (length s) <=? round_idx)) with false
    by (symmetry; rewrite orb_false_iff, Z.ltb_ge, Z.leb_gt; lia).
  destruct (get_in_range s round_idx) as (rnd' & -> & Hl'); [lia|].
  rewrite Hl in Hl'. injection Hl' as <-. cbn [mbind option_bind].
  replace ((match_idx <? 0) || (Z.of_nat (length rnd) <=? match_idx)) with false
    by (symmetry; rewrite orb_false_iff, Z.ltb_ge, Z.leb_gt; lia).
  destruct (get_in_range rnd match_idx) as (m & -> & Hm'); [lia|].
  rewrite Hm in Hm'. injection Hm' as <-. cbn [mbind option_bind].
  rewrite (set_item2_in_range s round_idx match_idx _ rnd) by (auto; lia).
  reflexivity.
Qed.

Lemma move_flip_venue_feasible (s : Schedule) round_idx match_idx s' :
  move_flip_venue s round_idx match_idx = Some (s', true) →
  ∃ rnd home_id away_id,
    0 ≤ round_idx ∧ s !! Z.to_nat round_idx = Some rnd
    ∧ 0 ≤ match_idx ∧ rnd !! Z.to_nat match_idx = Some (home_id, away_id).
Proof.
  unfold move_flip_venue.
  destruct (_ || _) eqn:G; [discriminate|].
  rewrite orb_false_iff, Z.ltb_ge, Z.leb_gt in G.
  destruct (get_in_range s round_idx) as (rnd & -> & Hl); [lia|].
  cbn [mbind option_bind].
  destruct (_ || _) eqn:G2; [discriminate|].
  rewrite orb_false_iff, Z.ltb_ge, Z.leb_gt in G2.
  destruct (get_in_range rnd match_idx) as ([home_id away_id] & _ & Hlm); [lia|].
  intros _. exists rnd, home_id, away_id. repeat split; try assumption; lia.
Qed.

(** Flipping the venue of the same match again gives the schedule back. *)
Lemma move_flip_venue_undo (s : Schedule) (round_idx match_idx : Z) s' :
  move_flip_venue s round_idx match_idx = Some (s', true) →
  move_flip_venue s' round_idx match_idx = Some (s, true).
Proof.
  intros H.
  destruct (move_flip_venue_feasible _ _ _ _ H)
    as (rnd & home_id & away_id & Hr & Hl & Hi & Hm).
  rewrite (move_flip_venue_in_range _ _ _ _ _ _ Hr Hl Hi Hm) in H.
  injection H as <-.
  pose proof (lookup_lt_Some _ _ _ Hl) as Lk.
  pose proof (lookup_lt_Some _ _ _ Hm) as Lj.
  rewrite (move_flip_venue_in_range _ round_idx match_idx
             (<[Z.to_nat match_idx := (away_id, home_id)]> rnd) away_id home_id).
  - f_equal. f_equal. rewrite !list_insert_insert_eq.
    rewrite (list_insert_id rnd _ (home_id, away_id)) by exact Hm.
    apply list_insert_id. exact Hl.
  - exact Hr.
  - apply list_lookup_insert_eq. exact Lk.
  - exact Hi.
  - apply list_lookup_insert_eq. exact Lj.
Qed.

(** X4: a feasible swap of two rounds, and a feasible flip of a venue, is
    undone by making the same move again on its result, which is feasible
    too. *)
Theorem swap_rounds_and_flip_venue_undo (s s' : Schedule) (i j : Z) :
  (move_swap_rounds s i j = Some (s', true) → move_swap_rounds s' i j = Some (s, true))
  ∧ (move_flip_venue s i j = Some (s', true) → move_flip_venue s' i j = Some (s, true)).
Proof.
  split.
  - apply move_swap_rounds_undo.
  - apply move_flip_venue_undo.
Qed.

Lemma swap_rounds_and_flip_venue_undo_witness :
  move_swap_rounds [[(0, 2); (3, 1)]; [(1, 2); (3, 0)]; [(0, 1); (2, 3)]] 0 2
  = Some (sched4, true)
  ∧ move_flip_venue [[(0, 1); (2, 3)]; [(1, 2); (0, 3)]; [(0, 2); (3, 1)]] 1 1
    = Some (sched4, true).
Proof.
  split.
  - apply (proj1 (swap_rounds_and_flip_venue_undo sched4 _ 0 2)). vm_compute. reflexivity.
  - apply (proj2 (swap_rounds_and_flip_venue_undo sched4 _ 1 1)). vm_compute. reflexivity.
Defined.

(** *** No team twice in a round *)

(** X5: [move_swap_rounds], [move_swap_matches] and [move_flip_venue] keep
    a schedule free of repeated teams: when no round of the input holds a
    team twice, no round of the returned schedule does, whether the move
    was made or refused. *)
Theorem three_moves_keep_no_repeat (s : Schedule) (r1 i1 r2 i2 : Z) :
  no_repeat s →
  (∀ s' ok, move_swap_rounds s r1 r2 = Some (s', ok) → no_repeat s')
  ∧ (∀ s' ok, move_swap_matches s r1 i1 r2 i2 = Some (s', ok) → no_repeat s')
  ∧ (∀ s' ok, move_flip_venue s r1 i1 = Some (s', ok) → no_repeat s').
Proof.
  intros Hok. split; [|split]; intros s' ok H.
  - eapply move_swap_rounds_no_repeat; eauto.
  - eapply move_swap_matches_no_repeat; eauto.
  - eapply move_flip_venue_no_repeat; eauto.
Qed.

Lemma three_moves_keep_no_repeat_witness :
  no_repeat [[(4, 5)]; [(2, 3)]; [(0, 1)]]
  ∧ no_repeat [[(2, 3)]; [(0, 1)]; [(4, 5)]]
  ∧ no_repeat [[(1, 0)]; [(2, 3)]; [(4, 5)]].
Proof.
  assert (H : no_repeat [[(0, 1)]; [(2, 3)]; [(4, 5)]]).
  { apply (bool_decide_unpack _). vm_compute. reflexivity. }
  split; [|split].
  - apply (proj1 (three_moves_keep_no_repeat _ 0 0 2 0 H) _ true). vm_compute. reflexivity.
  - apply (proj1 (proj2 (three_moves_keep_no_repeat _ 0 0 1 0 H)) _ true).
    vm_compute. reflexivity.
  - apply (proj2 (proj2 (three_moves_keep_no_repeat _ 0 0 2 0 H)) _ true).
    vm_compute. reflexivity.
Defined.

(** ** Further properties of the optimizers *)

(** X6: the best score returned by [hill_climb] is at most the baseline, the
    total travel of the initial schedule. *)
Theorem hill_climb_best_at_most_baseline schedule teams D moves max_iters
    max_no_improve validate tp pos per base best score lg pos' :
  evaluate_schedule_travel schedule teams D = Some (per, base) →
  hill_climb schedule teams D moves max_iters max_no_improve validate tp pos
    = Some ((best, score, lg), pos') →
  (score <= base)%Q.
Proof.
  intros Hbase H.
  eapply (hill_climb_tracked (fun _ => True)) in H; [|auto|exact I|exact Hbase].
  destruct H as (_ & _ & Hle). exact Hle.
Qed.

Lemma hill_climb_best_at_most_baseline_witness : (180 <= 185)%Q.
Proof.
  apply (hill_climb_best_at_most_baseline sched4 (mk_teams 4) D4 None 6 100 true
           counting_tape 0%nat [60; 70; 45; 10]%Q 185%Q
           [[(0, 1); (2, 3)]; [(0, 2); (3, 1)]; [(1, 2); (3, 0)]] 180%Q
           (Log 180%Q 6 [(1%nat, 0%Q)] None) 18%nat).
  - vm_compute. reflexivity.
  - vm_compute. reflexivity.
Defined.

(** X7: when the initial schedule passes the four validators for the team
    count, the best schedule returned by [simulated_annealing] with
    [validate=True] passes them too. *)
Theorem annealing_keeps_validators schedule teams D moves T0 decay max_iters
    tp pos best score lg pos' :
  passes_all schedule (Z.of_nat (length teams)) →
  simulated_annealing schedule teams D moves T0 decay max_iters true tp pos
    = Some ((best, score, lg), pos') →
  passes_all best (Z.of_nat (length teams)).
Proof.
  intros Hok H.
  destruct (simulated_annealing_baseline _ _ _ _ _ _ _ _ _ _ _ _ H) as (per & base & Hbase).
  eapply (simulated_annealing_tracked (fun s => passes_all s (Z.of_nat (length teams)))) in H;
    [|intros cand new; apply vet_candidate_passes|exact Hok|exact Hbase].
  destruct H as (Hv & _). exact Hv.
Qed.

Lemma annealing_keeps_validators_witness :
  passes_all [[(1, 2); (3, 0)]; [(0, 2); (3, 1)]; [(0, 1); (2, 3)]] 4.
Proof.
  apply (annealing_keeps_validators sched4 (mk_teams 4) D4 None 1 (1 # 2) 6
           counting_tape 0%nat _ 180%Q
           (Log 180%Q 6 [(2%nat, 0%Q)] (Some (1 # 64)%Q)) 25%nat).
  - vm_compute. repeat split; reflexivity.
  - vm_compute. reflexivity.
Defined.

(** *** An empty iteration budget *)

(** X8: with [max_iters <= 0] the loop body never runs, [iteration] is never
    bound, and both optimizers raise at [iteration + 1] instead of
    returning the initial schedule. *)
Theorem optimizers_raise_without_iterations schedule teams D moves max_iters
    max_no_improve T0 decay validate tp pos :
  max_iters ≤ 0 →
  hill_climb schedule teams D moves max_iters max_no_improve validate tp pos = None
  ∧ simulated_annealing schedule teams D moves T0 decay max_iters validate tp pos = None.
Proof.
  intros Hm.
  assert (Hr : Py.range max_iters = []).
  { unfold Py.range. replace (Z.to_nat max_iters) with 0%nat by lia. reflexivity. }
  unfold hill_climb, simulated_annealing. rewrite Hr.
  unfold mbind, rand_bind, Rand.bind, Rand.lift.
  destruct (evaluate_schedule_travel schedule teams D) as [[per cur]|]; split; reflexivity.
Qed.

Lemma optimizers_raise_without_iterations_witness :
  hill_climb sched4 (mk_teams 4) D4 None 0 100 true counting_tape 0%nat = None
  ∧ simulated_annealing sched4 (mk_teams 4) D4 None 1 (1 # 2) 0 true counting_tape 0%nat
    = None.
Proof.
  apply (optimizers_raise_without_iterations sched4 (mk_teams 4) D4 None 0 100 1 (1 # 2)
           true counting_tape 0%nat).
  lia.
Defined.

(** X9: with [max_no_improve <= 0] and a budget of at least one iteration,
    [hill_climb] leaves the loop before the first move: it draws nothing,
    and returns the initial schedule with its travel as the score, one
    iteration logged and no improvement. *)
Theorem hill_climb_without_patience schedule teams D moves max_iters max_no_improve
    validate tp pos per base :
  1 ≤ max_iters → max_no_improve ≤ 0 →
  evaluate_schedule_travel schedule teams D = Some (per, base) →
  hill_climb schedule teams D moves max_iters max_no_improve validate tp pos
  = Some ((schedule, base, Log base 1 [] None), pos).
Proof.
  intros Hm Hn Hev. unfold hill_climb. rewrite Hev.
  unfold Py.range. destruct (Z.to_nat max_iters) as [|k] eqn:Hk; [lia|].
  cbn [seq hc_loop hc_no_improve_count].
  replace (max_no_improve <=? 0) with true by (symmetry; apply Z.leb_le; exact Hn).
  reflexivity.
Qed.

Lemma hill_climb_without_patience_witness :
  hill_climb sched4 (mk_teams 4) D4 None 6 0 true counting_tape 0%nat
  = Some ((sched4, 185%Q, Log 185%Q 1 [] None), 0%nat).
Proof.
  apply (hill_climb_without_patience sched4 (mk_teams 4) D4 None 6 0 true counting_tape
           0%nat [60; 70; 45; 10]%Q 185%Q).
  - lia.
  - lia.
  - vm_compute. reflexivity.
Defined.

(** *** When the optimizers return *)

(** X10: on a non-empty schedule whose ids index the team list, with a square
    distance matrix, a non-empty move list and a budget of at least one
    iteration, both optimizers return a result, whatever the random draws
    and the other parameters. *)
Theorem optimizers_return schedule teams D moves max_iters max_no_improve T0 decay
    validate tp pos :
  schedule ≠ [] → ids_in_range (length teams) schedule → square (length teams) D →
  default default_moves moves ≠ [] → 1 ≤ max_iters →
  (∃ res pos',
     hill_climb schedule teams D moves max_iters max_no_improve validate tp pos
     = Some (res, pos'))
  ∧ (∃ res pos',
       simulated_annealing schedule teams D moves T0 decay max_iters validate tp pos
       = Some (res, pos')).
Proof.
  intros Hne Hids HD Hmoves Hm. split.
  - apply hill_climb_returns; assumption.
  - apply simulated_annealing_returns; assumption.
Qed.

Lemma optimizers_return_witness :
  (∃ res pos',
     hill_climb sched4 (mk_teams 4) D4 None 6 100 true counting_tape 0%nat
     = Some (res, pos'))
  ∧ (∃ res pos',
       simulated_annealing sched4 (mk_teams 4) D4 None 1 (1 # 2) 6 true counting_tape 0%nat
       = Some (res, pos')).
Proof.
  apply (optimizers_return sched4 (mk_teams 4) D4 None 6 100 1 (1 # 2) true
           counting_tape 0%nat).
  - discriminate.
  - repeat constructor; simpl; lia.
  - split; [reflexivity|]. repeat constructor.
  - discriminate.
  - lia.
Defined.

(** *** What the moves keep, the search keeps *)

Lemma vet_candidate_inv validate n cand new :
  vet_candidate validate n cand = Some (Some new) → ∃ b, cand = Some (new, b).
Proof.
  unfold vet_candidate. destruct cand as [[s valid]|]; [|discriminate].
  destruct valid; simpl; [|discriminate].
  destruct validate.
  - destruct (_validate_schedule_constraints s n) as [[ok rs]|]; simpl; [|discriminate].
    destruct ok; simpl; [|discriminate]. intros [= <-]. eauto.
  - intros [= <-]. eauto.
Qed.

Section MovesKeep.

(** [good] is any property of schedules that the three default primitives
    keep. *)
Variable good : Schedule → Prop.
Hypothesis good_swap_rounds : ∀ s r1 r2 s' b,
  good s → move_swap_rounds s r1 r2 = Some (s', b) → good s'.
Hypothesis good_swap_matches : ∀ s r1 i1 r2 i2 s' b,
  good s → move_swap_matches s r1 i1 r2 i2 = Some (s', b) → good s'.
Hypothesis good_flip_venue : ∀ s r i s' b,
  good s → move_flip_venue s r i = Some (s', b) → good s'.

Variables (teams : list Team) (D : list (list Q)) (validate : bool).

Lemma propose_good cur move tp pos new b pos' :
  good cur → propose cur move tp pos = Some (Some (new, b), pos') → good new.
Proof.
  intros Hg. unfold propose.
  destruct (move_func_eqb move MoveSwapRounds).
  { destruct (_ <? _)%nat; [intros H; apply ret_Some in H as [[=] _]|].
    intros H. apply bind_Some in H as ([r1 r2] & p1 & _ & H).
    apply bind_Some in H as (res & p2 & Hm & H).
    apply lift_Some in Hm as [Hm _]. apply ret_Some in H as [[= <-] _].
    eapply good_swap_rounds; eauto. }
  destruct (move_func_eqb move MoveSwapMatches).
  { destruct (_ <? _)%nat; [intros H; apply ret_Some in H as [[=] _]|].
    intros H. apply bind_Some in H as ([r1 r2] & p1 & _ & H).
    apply bind_Some in H as (round1 & p2 & _ & H).
    apply bind_Some in H as (round2 & p3 & _ & H).
    destruct (_ || _); [apply ret_Some in H as [[=] _]|].
    apply bind_Some in H as (i1 & p4 & _ & H).
    apply bind_Some in H as (i2 & p5 & _ & H).
    apply bind_Some in H as (res & p6 & Hm & H).
    apply lift_Some in Hm as [Hm _]. apply ret_Some in H as [[= <-] _].
    eapply good_swap_matches; eauto. }
  destruct (move_func_eqb move MoveFlipVenue).
  { intros H. apply bind_Some in H as (r & p1 & _ & H).
    apply bind_Some in H as (rnd & p2 & _ & H).
    destruct (_ =? _)%nat; [apply ret_Some in H as [[=] _]|].
    apply bind_Some in H as (i & p3 & _ & H).
    apply bind_Some in H as (res & p4 & Hm & H).
    apply lift_Some in Hm as [Hm _]. apply ret_Some in H as [[= <-] _].
    eapply good_flip_venue; eauto. }
  intros H. apply ret_Some in H as [[=] _].
Qed.

Lemma hc_step_good moves st iteration tp pos st' pos' :
  hc_step teams D moves validate st iteration tp pos = Some (st', pos') →
  good (hc_current_schedule st) ∧ good (hc_best_schedule st) →
  good (hc_current_schedule st') ∧ good (hc_best_schedule st').
Proof.
  unfold hc_step. intros H [Hc Hb].
  apply bind_Some in H as (move & p1 & _ & H).
  apply bind_Some in H as (cand & p2 & Hp & H).
  apply bind_Some in H as (accepted & p3 & Hvet & H).
  apply lift_Some in Hvet as [Hvet _].
  destruct accepted as [new|]; [|apply ret_Some in H as [-> _]; auto].
  apply vet_candidate_inv in Hvet as [b ->].
  pose proof (propose_good _ _ _ _ _ _ _ Hc Hp) as Hn.
  apply bind_Some in H as ([per new_score] & p4 & _ & H).
  destruct (Qltb new_score (hc_current_score st - eps));
    [|apply ret_Some in H as [-> _]; auto].
  destruct (Qltb new_score (hc_best_score st - eps));
    apply ret_Some in H as [-> _]; simpl; auto.
Qed.

Lemma hc_loop_good moves max_no_improve iters :
  ∀ st last tp pos st' last' pos',
  hc_loop teams D moves max_no_improve validate iters st last tp pos
    = Some ((st', last'), pos') →
  good (hc_current_schedule st) ∧ good (hc_best_schedule st) →
  good (hc_current_schedule st') ∧ good (hc_best_schedule st').
Proof.
  induction iters as [|iteration rest IH]; simpl; intros st last tp pos st' last' pos' H Hinv.
  - apply ret_Some in H as [[= -> ->] _]. assumption.
  - destruct (max_no_improve <=? hc_no_improve_count st).
    + apply ret_Some in H as [[= -> ->] _]. assumption.
    + apply bind_Some in H as (st1 & p1 & Hstep & H).
      eapply IH; [eassumption|]. eapply hc_step_good; eauto.
Qed.

Lemma sa_step_good moves decay st iteration tp pos st' pos' :
  sa_step teams D moves decay validate st iteration tp pos = Some (st', pos') →
  good (sa_current_schedule st) ∧ good (sa_best_schedule st) →
  good (sa_current_schedule st') ∧ good (sa_best_schedule st').
Proof.
  unfold sa_step. intros H [Hc Hb].
  apply bind_Some in H as (move & p1 & _ & H).
  apply bind_Some in H as (cand & p2 & Hp & H).
  apply bind_Some in H as (accepted & p3 & Hvet & H).
  apply lift_Some in Hvet as [Hvet _].
  destruct accepted as [new|]; [|apply ret_Some in H as [-> _]; auto].
  apply vet_candidate_inv in Hvet as [b ->].
  pose proof (propose_good _ _ _ _ _ _ _ Hc Hp) as Hn.
  apply bind_Some in H as ([per new_score] & p4 & _ & H).
  apply bind_Some in H as (accept & p5 & _ & H).
  destruct accept; [|apply ret_Some in H as [-> _]; auto].
  destruct (Qltb new_score (sa_best_score st - eps));
    apply ret_Some in H as [-> _]; simpl; auto.
Qed.

Lemma sa_loop_good moves decay iters :
  ∀ st last tp pos st' last' pos',
  sa_loop teams D moves decay validate iters st last tp pos
    = Some ((st', last'), pos') →
  good (sa_current_schedule st) ∧ good (sa_best_schedule st) →
  good (sa_current_schedule st') ∧ good (sa_best_schedule st').
Proof.
  induction iters as [|iteration rest IH]; simpl; intros st last tp pos st' last' pos' H Hinv.
  - apply ret_Some in H as [[= -> ->] _]. assumption.
  - apply bind_Some in H as (st1 & p1 & Hstep & H).
    eapply IH; [eassumption|]. eapply sa_step_good; eauto.
Qed.

Lemma hill_climb_good schedule moves max_iters max_no_improve tp pos best score lg pos' :
  good schedule →
  hill_climb schedule teams D moves max_iters max_no_improve validate tp pos
    = Some ((best, score, lg), pos') →
  good best.
Proof.
  intros Hok H. unfold hill_climb in H.
  apply bind_Some in H as ([per0 cur] & p1 & _ & H).
  apply bind_Some in H as ([st last] & p2 & Hloop & H).
  apply bind_Some in H as (iteration & p3 & _ & H).
  apply ret_Some in H as [[= -> -> ->] _].
  eapply hc_loop_good in Hloop; [apply Hloop|]. simpl. auto.
Qed.

Lemma simulated_annealing_good schedule moves T0 decay max_iters tp pos best score lg pos' :
  good schedule →
  simulated_annealing schedule teams D moves T0 decay max_iters validate tp pos
    = Some ((best, score, lg), pos') →
  good best.
Proof.
  intros Hok H. unfold simulated_annealing in H.
  apply bind_Some in H as ([per0 cur] & p1 & _ & H).
  apply bind_Some in H as ([st last] & p2 & Hloop & H).
  apply bind_Some in H as (iteration & p3 & _ & H).
  apply ret_Some in H as [[= -> -> ->] _].
  eapply sa_loop_good in Hloop; [apply Hloop|]. simpl. auto.
Qed.

End MovesKeep.

(** X11: with or without validation, and whatever the list of moves, the best
    schedule returned by either optimizer has no team twice in a round when
    the initial schedule has none. *)
Theorem optimizers_keep_no_repeat schedule teams D moves max_iters max_no_improve
    T0 decay validate tp pos best score lg pos' :
  no_repeat schedule →
  hill_climb schedule teams D moves max_iters max_no_improve validate tp pos
    = Some ((best, score, lg), pos')
  ∨ simulated_annealing schedule teams D moves T0 decay max_iters validate tp pos
    = Some ((best, score, lg), pos') →
  no_repeat best.
Proof.
  intros Hok [H|H].
  - eapply (hill_climb_good no_repeat); [| | |exact Hok|exact H].
    + intros; eapply move_swap_rounds_no_repeat; eauto.
    + intros; eapply move_swap_matches_no_repeat; eauto.
    + intros; eapply move_flip_venue_no_repeat; eauto.
  - eapply (simulated_annealing_good no_repeat); [| | |exact Hok|exact H].
    + intros; eapply move_swap_rounds_no_repeat; eauto.
    + intros; eapply move_swap_matches_no_repeat; eauto.
    + intros; eapply move_flip_venue_no_repeat; eauto.
Qed.

Lemma optimizers_keep_no_repeat_witness :
  no_repeat [[(0, 1); (2, 3)]; [(0, 2); (3, 1)]; [(1, 2); (3, 0)]]
  ∧ no_repeat [[(1, 2); (3, 0)]; [(0, 2); (3, 1)]; [(0, 1); (2, 3)]].
Proof.
  assert (H4 : no_repeat sched4).
  { apply (bool_decide_unpack _). vm_compute. reflexivity. }
  split.
  - apply (optimizers_keep_no_repeat sched4 (mk_teams 4) D4 None 6 100 1 (1 # 2) false
             counting_tape 0%nat _ 180%Q (Log 180%Q 6 [(1%nat, 0%Q)] None) 18%nat H4).
    left. vm_compute. reflexivity.
  - apply (optimizers_keep_no_repeat sched4 (mk_teams 4) D4 None 6 100 1 (1 # 2) true
             counting_tape 0%nat _ 180%Q
             (Log 180%Q 6 [(2%nat, 0%Q)] (Some (1 # 64)%Q)) 25%nat H4).
    right. vm_compute. reflexivity.
Defined.



(** *** The telemetry *)

Lemma last_cons_default {A} (l : list A) (a d : A) :
  List.last (a :: l) d = List.last l a.
Proof.
  revert a d. induction l as [|b l IH]; intros a d; [reflexivity|].
  change (List.last (a :: b :: l) d) with (List.last (b :: l) d).
  rewrite (IH b d), (IH b a). reflexivity.
Qed.

Section Telemetry.

Variables (teams : list Team) (D : list (list Q)) (validate : bool).

Lemma hc_step_logged schedule moves st iteration tp pos st' pos' :
  hc_step teams D moves validate st iteration tp pos = Some (st', pos') →
  hc_logged schedule st → hc_logged schedule st'.
Proof.
  unfold hc_step. intros H Hinv.
  apply bind_Some in H as (move & p1 & _ & H).
  apply bind_Some in H as (cand & p2 & _ & H).
  apply bind_Some in H as (accepted & p3 & _ & H).
  destruct accepted as [new|]; [|apply ret_Some in H as [-> _]; assumption].
  apply bind_Some in H as ([per new_score] & p4 & _ & H).
  destruct (Qltb new_score (hc_current_score st - eps));
    [|apply ret_Some in H as [-> _]; exact Hinv].
  destruct (Qltb new_score (hc_best_score st - eps));
    apply ret_Some in H as [-> _]; [|exact Hinv].
  destruct Hinv as [Hz _]. split; simpl.
  - apply Forall_app. split; [exact Hz|]. constructor; [|constructor].
    simpl. unfold Qminus. apply Qplus_opp_r.
  - intros E. destruct (hc_improvements st); discriminate.
Qed.

Lemma hc_loop_logged schedule moves max_no_improve iters :
  ∀ st last tp pos st' last' pos',
  hc_loop teams D moves max_no_improve validate iters st last tp pos
    = Some ((st', last'), pos') →
  hc_logged schedule st →
  hc_logged schedule st'
  ∧ (last' = last ∨ ∃ i, last' = Some i ∧ i ∈ iters).
Proof.
  induction iters as [|iteration rest IH]; simpl; intros st last tp pos st' last' pos' H Hinv.
  - apply ret_Some in H as [[= -> ->] _]. auto.
  - destruct (max_no_improve <=? hc_no_improve_count st).
    + apply ret_Some in H as [[= -> ->] _]. split; [assumption|].
      right. exists iteration. split; [reflexivity|]. constructor.
    + apply bind_Some in H as (st1 & p1 & Hstep & H).
      apply IH in H as [Hl Hlast]; [|eapply hc_step_logged; eauto].
      split; [exact Hl|]. right. destruct Hlast as [->|(i & -> & Hi)].
      * exists iteration. split; [reflexivity|]. constructor.
      * exists i. split; [reflexivity|]. constructor. exact Hi.
Qed.

Lemma sa_step_logged schedule moves decay st iteration tp pos st' pos' :
  sa_step teams D moves decay validate st iteration tp pos = Some (st', pos') →
  sa_logged schedule st →
  sa_logged schedule st' ∧ sa_T st' = (sa_T st * decay)%Q.
Proof.
  unfold sa_step. intros H Hinv.
  apply bind_Some in H as (move & p1 & _ & H).
  apply bind_Some in H as (cand & p2 & _ & H).
  apply bind_Some in H as (accepted & p3 & _ & H).
  destruct accepted as [new|]; [|apply ret_Some in H as [-> _]; auto].
  apply bind_Some in H as ([per new_score] & p4 & _ & H).
  apply bind_Some in H as (accept & p5 & _ & H).
  destruct accept; [|apply ret_Some in H as [-> _]; auto].
  destruct (Qltb new_score (sa_best_score st - eps));
    apply ret_Some in H as [-> _]; [|auto].
  destruct Hinv as [Hz _]. split; [|reflexivity]. split; simpl.
  - apply Forall_app. split; [exact Hz|]. constructor; [|constructor].
    simpl. unfold Qminus. apply Qplus_opp_r.
  - intros E. destruct (sa_improvements st); discriminate.
Qed.

Lemma sa_loop_logged schedule moves decay iters :
  ∀ st last tp pos st' last' pos',
  sa_loop teams D moves decay validate iters st last tp pos
    = Some ((st', last'), pos') →
  sa_logged schedule st →
  sa_logged schedule st'
  ∧ sa_T st' = Nat.iter (length iters) (fun T => (T * decay)%Q) (sa_T st)
  ∧ last' = match iters with [] => last | i :: rest => Some (List.last rest i) end.
Proof.
  induction iters as [|iteration rest IH]; simpl; intros st last tp pos st' last' pos' H Hinv.
  - apply ret_Some in H as [[= -> ->] _]. auto.
  - apply bind_Some in H as (st1 & p1 & Hstep & H).
    apply (sa_step_logged schedule) in Hstep as [Hl1 HT1]; [|exact Hinv].
    apply IH in H as (Hl & HT & Hlast); [|exact Hl1].
    split; [exact Hl|]. split.
    + rewrite HT, HT1. symmetry.
      apply (Nat.iter_succ_r (length rest) (fun T => (T * decay)%Q)).
    + rewrite Hlast. destruct rest as [|i rest]; [reflexivity|].
      rewrite last_cons_default. reflexivity.
Qed.

End Telemetry.

Lemma last_range (k : nat) : List.last (seq 1 k) 0%nat = k.
Proof.
  induction k as [|k IH]; [reflexivity|].
  rewrite seq_S. rewrite last_last. reflexivity.
Qed.

(** X13: the telemetry of [hill_climb]: the iteration count lies between one
    and [max_iters], every recorded improvement carries the difference
    zero (it is computed after both scores are set to the new one), and
    when none is recorded the best schedule is the initial schedule. *)
Theorem hill_climb_telemetry schedule teams D moves max_iters max_no_improve validate
    tp pos best score lg pos' :
  hill_climb schedule teams D moves max_iters max_no_improve validate tp pos
    = Some ((best, score, lg), pos') →
  1 ≤ log_iter lg ≤ max_iters
  ∧ log_best_score lg = score
  ∧ Forall (fun p : nat * Q => (p.2 == 0)%Q) (log_improvements lg)
  ∧ (log_improvements lg = [] → best = schedule).
Proof.
  intros H. unfold hill_climb in H.
  apply bind_Some in H as ([per0 cur] & p1 & _ & H).
  apply bind_Some in H as ([st last] & p2 & Hloop & H).
  apply bind_Some in H as (iteration & p3 & Hlast & H).
  apply lift_Some in Hlast as [-> _].
  apply ret_Some in H as [[= -> -> ->] _].
  apply (hc_loop_logged teams D validate schedule) in Hloop as [[Hz Hb] Hl].
  - simpl. split; [|auto].
    destruct Hl as [Hl|(i & [= <-] & Hi)]; [discriminate|].
    unfold Py.range in Hi. apply elem_of_seq in Hi. lia.
  - split; simpl; [constructor|reflexivity].
Qed.

Lemma hill_climb_telemetry_witness :
  1 ≤ 6 ≤ 6
  ∧ 180%Q = 180%Q
  ∧ Forall (fun p : nat * Q => (p.2 == 0)%Q) [(1%nat, 0%Q)]
  ∧ ([(1%nat, 0%Q)] = [] →
     [[(0, 1); (2, 3)]; [(0, 2); (3, 1)]; [(1, 2); (3, 0)]] = sched4).
Proof.
  apply (hill_climb_telemetry sched4 (mk_teams 4) D4 None 6 100 true counting_tape
           0%nat _ 180%Q (Log 180%Q 6 [(1%nat, 0%Q)] None) 18%nat).
  vm_compute. reflexivity.
Defined.

(** X14: the telemetry of [simulated_annealing]: the run never stops early, so
    the iteration count is [max_iters] and the final temperature is [T0]
    multiplied [max_iters] times by [decay]; every recorded improvement
    carries the difference zero, and when none is recorded the best
    schedule is the initial schedule. *)
Theorem annealing_telemetry schedule teams D moves T0 decay max_iters validate
    tp pos best score lg pos' :
  simulated_annealing schedule teams D moves T0 decay max_iters validate tp pos
    = Some ((best, score, lg), pos') →
  log_iter lg = max_iters
  ∧ log_final_temperature lg
    = Some (Nat.iter (Z.to_nat max_iters) (fun T => (T * decay)%Q) T0)
  ∧ Forall (fun p : nat * Q => (p.2 == 0)%Q) (log_improvements lg)
  ∧ (log_improvements lg = [] → best = schedule).
Proof.
  intros H. unfold simulated_annealing in H.
  apply bind_Some in H as ([per0 cur] & p1 & _ & H).
  apply bind_Some in H as ([st last] & p2 & Hloop & H).
  apply bind_Some in H as (iteration & p3 & Hlast & H).
  apply lift_Some in Hlast as [-> _].
  apply ret_Some in H as [[= -> -> ->] _].
  apply (sa_loop_logged teams D validate schedule) in Hloop as ([Hz Hb] & HT & Hl).
  - simpl. unfold Py.range in HT, Hl. rewrite length_seq in HT.
    split; [|split; [rewrite HT; reflexivity|auto]].
    destruct (Z.to_nat max_iters) as [|k] eqn:Hk; [discriminate|].
    simpl in Hl. injection Hl as ->. rewrite last_range. lia.
  - split; simpl; [constructor|reflexivity].
Qed.

Lemma annealing_telemetry_witness :
  6 = 6
  ∧ Some (1 # 64)%Q = Some (Nat.iter (Z.to_nat 6) (fun T => (T * (1 # 2))%Q) 1%Q)
  ∧ Forall (fun p : nat * Q => (p.2 == 0)%Q) [(2%nat, 0%Q)]
  ∧ ([(2%nat, 0%Q)] = [] →
     [[(1, 2); (3, 0)]; [(0, 2); (3, 1)]; [(0, 1); (2, 3)]] = sched4).
Proof.
  apply (annealing_telemetry sched4 (mk_teams 4) D4 None 1 (1 # 2) 6 true counting_tape
           0%nat _ 180%Q (Log 180%Q 6 [(2%nat, 0%Q)] (Some (1 # 64)%Q)) 25%nat).
  vm_compute. reflexivity.
Defined.

(** ** What the validators accept *)

(** *** [validate_schedule] *)

Lemma real_ids_cons (g : Z * Z) (rnd : Round) :
  real_ids (g :: rnd) = real_ids [g] ++ real_ids rnd.
Proof. exact (real_ids_app [g] rnd). Qed.

Lemma real_ids_one (home_id away_id : Z) :
  real_ids [(home_id, away_id)]
  = (if decide (home_id ≠ -1) then [home_id] else [])
    ++ (if decide (away_id ≠ -1) then [away_id] else []).
Proof.
  unfold real_ids. cbn [flat_map fst snd app].
  rewrite !filter_cons, filter_nil.
  destruct (decide (home_id ≠ -1)), (decide (away_id ≠ -1)); reflexivity.
Qed.

Ltac to_prop :=
  repeat match goal with
  | H : _ && _ = true |- _ => apply andb_true_iff in H as [? ?]
  | H : _ && _ = false |- _ => apply andb_false_iff in H as [?|?]
  | H : _ || _ = true |- _ => apply orb_true_iff in H as [?|?]
  | H : _ || _ = false |- _ => apply orb_false_iff in H as [? ?]
  | H : negb _ = true |- _ => apply negb_true_iff in H
  | H : negb _ = false |- _ => apply negb_false_iff in H
  | H : (_ =? _) = true |- _ => apply Z.eqb_eq in H
  | H : (_ =? _) = false |- _ => apply Z.eqb_neq in H
  | H : (_ <? _) = true |- _ => apply Z.ltb_lt in H
  | H : (_ <? _) = false |- _ => apply Z.ltb_ge in H
  | H : (_ <=? _) = true |- _ => apply Z.leb_le in H
  | H : (_ <=? _) = false |- _ => apply Z.leb_gt in H
  | H : bool_decide _ = true |- _ => apply bool_decide_eq_true in H
  | H : bool_decide _ = false |- _ => apply bool_decide_eq_false in H
  end.

(** The real ids of one match are distinct and unseen. *)
Lemma real_one_fresh (T : gset Z) (home_id away_id : Z) :
  NoDup (real_ids [(home_id, away_id)])
  ∧ (∀ t, t ∈ real_ids [(home_id, away_id)] → t ∉ T)
  ↔ (home_id ≠ -1 → home_id ∉ T) ∧ (away_id ≠ -1 → away_id ∉ T)
    ∧ (home_id ≠ -1 → away_id ≠ -1 → home_id ≠ away_id).
Proof.
  rewrite real_ids_one.
  destruct (decide (home_id ≠ -1)) as [Dh|Dh], (decide (away_id ≠ -1)) as [Da|Da];
    cbn [app].
  - rewrite NoDup_cons, list_elem_of_singleton. split.
    + intros ([Hne _] & Hf). split; [intros _; apply Hf; left|].
      split; [intros _; apply Hf; right; left|auto].
    + intros (Hh & Ha & Hne). split.
      * split; [auto|]. repeat constructor. inversion 1.
      * intros t Ht. apply elem_of_cons in Ht as [->|Ht]; [auto|].
        apply list_elem_of_singleton in Ht as ->. auto.
  - split.
    + intros (_ & Hf). split; [intros _; apply Hf; left|]. split; intros; contradiction.
    + intros (Hh & _). split; [repeat constructor; inversion 1|].
      intros t Ht. apply list_elem_of_singleton in Ht as ->. auto.
  - split.
    + intros (_ & Hf). split; [intros; contradiction|].
      split; [intros _; apply Hf; left|intros; contradiction].
    + intros (_ & Ha & _). split; [repeat constructor; inversion 1|].
      intros t Ht. apply list_elem_of_singleton in Ht as ->. auto.
  - split.
    + intros _. repeat split; intros; contradiction.
    + intros _. split; [constructor|]. intros t Ht. inversion Ht.
Qed.

Lemma real_one_elem (home_id away_id t : Z) :
  t ∈ real_ids [(home_id, away_id)] ↔ t ≠ -1 ∧ (t = home_id ∨ t = away_id).
Proof.
  rewrite real_ids_one.
  destruct (decide (home_id ≠ -1)) as [Dh|Dh], (decide (away_id ≠ -1)) as [Da|Da];
    cbn [app]; rewrite ?elem_of_cons, ?elem_of_nil; intuition congruence.
Qed.

(** One match: the set grows by the real ids of the match, the reasons
    only grow, and they stay as they are exactly when the ids are valid,
    the match does not oppose a team to itself, and none of its teams has
    been seen in the round. *)
Lemma validate_match_step n_teams round_idx (T : gset Z) rs match_idx home_id away_id :
  let res := validate_match n_teams round_idx (T, rs) (match_idx, (home_id, away_id)) in
  (∀ t, t ∈ res.1 ↔ t ∈ T ∨ t ∈ real_ids [(home_id, away_id)])
  ∧ (length rs ≤ length res.2)%nat
  ∧ (length res.2 = length rs ↔
     (valid_id n_teams home_id ∧ valid_id n_teams away_id)
     ∧ NoDup (real_ids [(home_id, away_id)])
     ∧ ∀ t, t ∈ real_ids [(home_id, away_id)] → t ∉ T).
Proof.
  cbv zeta. rewrite real_one_fresh. unfold validate_match, valid_id.
  split.
  { intros t. rewrite real_one_elem.
    destruct (Z.eqb_spec home_id (-1)) as [Eh|Eh], (Z.eqb_spec away_id (-1)) as [Ea|Ea];
      cbn [negb fst snd]; rewrite ?elem_of_union, ?elem_of_singleton;
      intuition congruence. }
  destruct (Z.eqb_spec home_id (-1)) as [->|Eh], (Z.eqb_spec away_id (-1)) as [->|Ea];
    cbn [negb andb orb fst snd];
    repeat match goal with
           | |- context [if ?b then _ else _] => destruct b eqn:?
           end;
    cbn [fst snd]; rewrite ?length_app; cbn [length]; to_prop;
    (split; [lia|]);
    repeat match goal with
           | H : _ ∈ _ ∪ _ |- _ => rewrite elem_of_union, elem_of_singleton in H
           | H : ¬ (_ ∈ _ ∪ _) |- _ => rewrite elem_of_union, elem_of_singleton in H
           end;
    intuition (try lia; try congruence).
Qed.

(** The matches of a round, taken in order. *)
Lemma validate_round_fold n_teams round_idx (rnd : Round) :
  ∀ a (T : gset Z) rs,
  let res := fold_left (validate_match n_teams round_idx)
               (zip (seq a (length rnd)) rnd) (T, rs) in
  (length rs ≤ length res.2)%nat
  ∧ (length res.2 = length rs ↔
     Forall (fun g : Z * Z => valid_id n_teams g.1 ∧ valid_id n_teams g.2) rnd
     ∧ NoDup (real_ids rnd)
     ∧ ∀ t, t ∈ real_ids rnd → t ∉ T).
Proof.
  induction rnd as [|[home_id away_id] rnd IH]; intros a T rs; cbv zeta.
  - simpl. split; [lia|]. split; [intros _|reflexivity].
    split; [constructor|]. split; [constructor|]. intros t Ht. inversion Ht.
  - cbn [length seq zip zip_with fold_left].
    destruct (validate_match_step n_teams round_idx T rs a home_id away_id)
      as (Hset & Hmono & Hsame).
    destruct (validate_match n_teams round_idx (T, rs) (a, (home_id, away_id)))
      as [T1 rs1] eqn:E.
    cbn [fst snd] in Hset, Hmono, Hsame.
    destruct (IH (S a) T1 rs1) as (Hmono' & Hsame'). cbv zeta in Hmono', Hsame'.
    split; [lia|].
    rewrite real_ids_cons, NoDup_app, Forall_cons. cbn [fst snd].
    split.
    + intros Hlen.
      assert (H1 : length rs1 = length rs) by lia.
      assert (H2 : length
                (fold_left (validate_match n_teams round_idx)
                   (zip (seq (S a) (length rnd)) rnd) (T1, rs1)).2 = length rs1) by lia.
      apply Hsame in H1 as (Hv & Hnd & Hf).
      apply Hsame' in H2 as (Hv' & Hnd' & Hf').
      split; [auto|]. split.
      * split; [exact Hnd|]. split; [|exact Hnd'].
        intros t Ht Ht'. apply (Hf' t Ht'). apply Hset. auto.
      * intros t Ht. apply elem_of_app in Ht as [Ht|Ht]; [auto|].
        intros HT. apply (Hf' t Ht). apply Hset. auto.
    + intros ([Hv Hv'] & (Hnd & Hdis & Hnd') & Hf).
      assert (H1 : length rs1 = length rs).
      { apply Hsame. split; [exact Hv|]. split; [exact Hnd|].
        intros t Ht. apply Hf. apply elem_of_app. auto. }
      assert (H2 : length
                (fold_left (validate_match n_teams round_idx)
                   (zip (seq (S a) (length rnd)) rnd) (T1, rs1)).2 = length rs1).
      { apply Hsame'. split; [exact Hv'|]. split; [exact Hnd'|].
        intros t Ht HT. apply Hset in HT as [HT|HT].
        - apply (Hf t); [apply elem_of_app; auto|exact HT].
        - exact (Hdis t HT Ht). }
      lia.
Qed.

(** The rounds of a schedule, taken in order. *)
Lemma validate_schedule_fold n_teams (s : Schedule) :
  ∀ a rs,
  let rs' := fold_left (validate_round n_teams) (zip (seq a (length s)) s) rs in
  (length rs ≤ length rs')%nat
  ∧ (length rs' = length rs ↔ valid_ids n_teams s ∧ no_repeat s).
Proof.
  unfold valid_ids, no_repeat.
  induction s as [|rnd s IH]; intros a rs; cbv zeta.
  - simpl. split; [lia|]. split; [intros _; split; constructor|reflexivity].
  - cbn [length seq zip zip_with fold_left]. unfold validate_round at 2 4.
    destruct (validate_round_fold n_teams a rnd 0%nat ∅ rs) as (Hmono & Hsame).
    cbv zeta in Hmono, Hsame. unfold Py.enumerate.
    set (rs1 := (fold_left (validate_match n_teams a)
                   (zip (seq 0 (length rnd)) rnd) (∅, rs)).2) in *.
    destruct (IH (S a) rs1) as (Hmono' & Hsame'). cbv zeta in Hmono', Hsame'.
    split; [lia|]. rewrite !Forall_cons. split.
    + intros Hlen.
      assert (H1 : length rs1 = length rs) by lia.
      apply Hsame in H1 as (Hv & Hnd & _).
      assert (H2 : length (fold_left (validate_round n_teams)
                             (zip (seq (S a) (length s)) s) rs1) = length rs1) by lia.
      apply Hsame' in H2 as (Hv' & Hnd'). auto.
    + intros ([Hv Hv'] & [Hnd Hnd']).
      assert (H1 : length rs1 = length rs).
      { apply Hsame. split; [exact Hv|]. split; [exact Hnd|].
        intros t _. apply not_elem_of_empty. }
      assert (H2 : length (fold_left (validate_round n_teams)
                             (zip (seq (S a) (length s)) s) rs1) = length rs1).
      { apply Hsame'. auto. }
      lia.
Qed.

(** A schedule that has the three properties is accepted without a
    reason, and an accepted schedule has them. *)
Lemma validate_schedule_ok (s : Schedule) (n_teams : Z) :
  s ≠ [] → valid_ids n_teams s → no_repeat s →
  validate_schedule s n_teams = (true, []).
Proof.
  intros Hne Hv Hnd. unfold validate_schedule. destruct s as [|rnd s]; [contradiction|].
  destruct (validate_schedule_fold n_teams (rnd :: s) 0%nat []) as (_ & Hsame).
  cbv zeta in Hsame. unfold Py.enumerate.
  destruct (fold_left _ _ []) as [|x rs]; [reflexivity|].
  exfalso. assert (H : length (x :: rs) = length (@nil reason)) by (apply Hsame; auto).
  discriminate.
Qed.

Lemma validate_schedule_true (s : Schedule) (n_teams : Z) :
  (validate_schedule s n_teams).1 = true →
  s ≠ [] ∧ valid_ids n_teams s ∧ no_repeat s.
Proof.
  unfold validate_schedule. destruct s as [|rnd s]; [discriminate|].
  destruct (validate_schedule_fold n_teams (rnd :: s) 0%nat []) as (_ & Hsame).
  cbv zeta in Hsame. unfold Py.enumerate. cbn [fst].
  rewrite Nat.eqb_eq. intros H. split; [discriminate|]. apply Hsame. exact H.
Qed.

(** X15: [validate_schedule] accepts exactly the non-empty schedules in which
    every id is a team id below [n_teams] or the bye marker, and no real
    team appears twice in a round (a match of a team against itself counts
    as twice); it then returns no reason. *)
Theorem validate_schedule_accepts (s : Schedule) (n_teams : Z) :
  ((validate_schedule s n_teams).1 = true
   ↔ s ≠ [] ∧ valid_ids n_teams s ∧ no_repeat s)
  ∧ ((validate_schedule s n_teams).1 = true → (validate_schedule s n_teams).2 = []).
Proof.
  split; [split|].
  - apply validate_schedule_true.
  - intros (Hne & Hv & Hnd). rewrite validate_schedule_ok by assumption. reflexivity.
  - intros H. apply validate_schedule_true in H as (Hne & Hv & Hnd).
    rewrite validate_schedule_ok by assumption. reflexivity.
Qed.

(** *** [check_repeaters] *)

Lemma elem_add_pairs (rnd : Round) (home_id away_id : Z) :
  ∀ acc : gset (Z * Z),
  (home_id, away_id) ∈ fold_left add_pair rnd acc
  ↔ (home_id, away_id) ∈ acc
    ∨ ((home_id, away_id) ∈ rnd ∧ home_id ≠ -1 ∧ away_id ≠ -1).
Proof.
  induction rnd as [|[h a] rnd IH]; intros acc; simpl.
  - rewrite elem_of_nil. tauto.
  - rewrite IH, elem_of_cons. unfold add_pair.
    destruct (Z.eqb_spec h (-1)), (Z.eqb_spec a (-1)); cbn [negb andb];
      rewrite ?elem_of_union, ?elem_of_singleton;
      intuition (try congruence).
Qed.

Lemma repeater_fold (round_idx : nat) (cp : gset (Z * Z)) (nxt : Round) :
  ∀ rs,
  let rs' := fold_left (repeater_match round_idx cp) nxt rs in
  (length rs ≤ length rs')%nat
  ∧ (length rs' = length rs ↔
     ∀ home_id away_id, (home_id, away_id) ∈ nxt → home_id ≠ -1 → away_id ≠ -1 →
                        (away_id, home_id) ∉ cp).
Proof.
  induction nxt as [|[h a] nxt IH]; intros rs; cbv zeta.
  - simpl. split; [lia|]. split; [|reflexivity].
    intros _ ? ? Hin. inversion Hin.
  - cbn [fold_left]. unfold repeater_match at 2 4.
    destruct (negb (h =? -1) && negb (a =? -1) && bool_decide ((a, h) ∈ cp)) eqn:Hit.
    + destruct (IH (rs ++ [RepeaterDetected round_idx h a])) as (Hmono & _).
      cbv zeta in Hmono. rewrite length_app in Hmono. simpl in Hmono.
      split; [lia|]. split; [lia|]. intros Hall. exfalso. to_prop.
      apply (Hall h a); [left|assumption..].
    + destruct (IH rs) as (Hmono & Hsame). cbv zeta in Hmono, Hsame.
      split; [exact Hmono|]. rewrite Hsame. split.
      * intros Hall home_id away_id Hin Hh Ha.
        apply elem_of_cons in Hin as [[= -> ->]|Hin]; [|auto].
        to_prop; congruence.
      * intros Hall home_id away_id Hin. apply Hall. right. exact Hin.
Qed.

Lemma repeaters_fold (s : Schedule) k :
  ∀ a rs,
  let rs' := fold_left (repeater_round s) (seq a k) rs in
  (length rs ≤ length rs')%nat
  ∧ (length rs' = length rs ↔
     ∀ r home_id away_id, (a ≤ r < a + k)%nat →
       (home_id, away_id) ∈ nth (r + 1) s [] → home_id ≠ -1 → away_id ≠ -1 →
       (away_id, home_id) ∉ nth r s []).
Proof.
  induction k as [|k IH]; intros a rs; cbv zeta.
  - simpl. split; [lia|]. split; [intros; lia|reflexivity].
  - cbn [seq fold_left]. unfold repeater_round at 2 4.
    destruct (repeater_fold a (fold_left add_pair (nth a s []) ∅) (nth (a + 1) s []) rs)
      as (Hmono & Hsame). cbv zeta in Hmono, Hsame.
    set (rs1 := fold_left (repeater_match a (fold_left add_pair (nth a s []) ∅))
                  (nth (a + 1) s []) rs) in *.
    destruct (IH (S a) rs1) as (Hmono' & Hsame'). cbv zeta in Hmono', Hsame'.
    split; [lia|]. split.
    + intros Hlen r home_id away_id Hr Hin Hh Ha.
      destruct (decide (r = a)) as [->|Hne].
      * assert (H1 : length rs1 = length rs) by lia.
        intros Hrev. eapply (proj1 Hsame H1); eauto.
        apply elem_add_pairs. right. auto.
      * assert (H2 : length (fold_left (repeater_round s) (seq (S a) k) rs1)
                     = length rs1) by lia.
        eapply (proj1 Hsame' H2); eauto. lia.
    + intros Hall.
      assert (H1 : length rs1 = length rs).
      { apply Hsame. intros home_id away_id Hin Hh Ha Hrev.
        apply elem_add_pairs in Hrev as [Hrev|(Hrev & _)];
          [exact (not_elem_of_empty _ Hrev)|].
        eapply (Hall a); eauto. lia. }
      assert (H2 : length (fold_left (repeater_round s) (seq (S a) k) rs1)
                   = length rs1).
      { apply Hsame'. intros r home_id away_id Hr. apply Hall. lia. }
      lia.
Qed.

Lemma check_repeaters_true (s : Schedule) :
  (check_repeaters s).1 = true → ¬ has_repeater s.
Proof.
  unfold check_repeaters, has_repeater.
  destruct (Nat.ltb_spec (length s) 2) as [Hlt|Hge].
  { intros _ (r & rnd & nxt & h & a & Hr & Hn & _).
    apply lookup_lt_Some in Hr, Hn. lia. }
  destruct (repeaters_fold s (length s - 1) 0%nat []) as (_ & Hsame).
  cbv zeta in Hsame. cbn [fst]. rewrite Nat.eqb_eq.
  intros Hlen (r & rnd & nxt & h & a & Hr & Hn & Hin & Hh & Ha & Hrev).
  apply (proj1 Hsame Hlen r h a).
  - apply lookup_lt_Some in Hn. lia.
  - replace (r + 1)%nat with (S r) by lia.
    rewrite (nth_lookup_Some _ _ _ _ Hn). exact Hin.
  - exact Hh.
  - exact Ha.
  - rewrite (nth_lookup_Some _ _ _ _ Hr). exact Hrev.
Qed.

Lemma check_repeaters_ok (s : Schedule) :
  ¬ has_repeater s → check_repeaters s = (true, []).
Proof.
  unfold check_repeaters, has_repeater. intros Hnone.
  destruct (Nat.ltb_spec (length s) 2) as [Hlt|Hge]; [reflexivity|].
  destruct (repeaters_fold s (length s - 1) 0%nat []) as (_ & Hsame).
  cbv zeta in Hsame.
  destruct (fold_left _ _ []) as [|x rs]; [reflexivity|].
  exfalso. assert (H : length (x :: rs) = length (@nil reason)); [|discriminate].
  apply Hsame. intros r h a Hr Hin Hh Ha Hrev. apply Hnone.
  destruct (lookup_lt_is_Some_2 s r) as [rnd Hrnd]; [lia|].
  destruct (lookup_lt_is_Some_2 s (S r)) as [nxt Hnxt]; [lia|].
  exists r, rnd, nxt, h, a.
  replace (r + 1)%nat with (S r) in Hin by lia.
  rewrite (nth_lookup_Some _ _ _ _ Hnxt) in Hin.
  rewrite (nth_lookup_Some _ _ _ _ Hrnd) in Hrev. auto 10.
Qed.

(** X16: [check_repeaters] accepts exactly the schedules in which no round
    holds a match of two real teams that the round before it holds with
    the venue reversed; it then returns no reason. *)
Theorem check_repeaters_accepts (s : Schedule) :
  ((check_repeaters s).1 = true ↔ ¬ has_repeater s)
  ∧ ((check_repeaters s).1 = true → (check_repeaters s).2 = []).
Proof.
  split; [split|].
  - apply check_repeaters_true.
  - intros H. rewrite check_repeaters_ok by exact H. reflexivity.
  - intros H. apply check_repeaters_true in H.
    rewrite check_repeaters_ok by exact H. reflexivity.
Qed.

(** *** [check_home_away_balance] *)

Lemma for_each_app {S B} (f : S → B → option S) (xs ys : list B) (st : S) :
  Py.for_each f (xs ++ ys) st = Py.for_each f xs st ≫= Py.for_each f ys.
Proof.
  revert st. induction xs as [|x xs IH]; intros st; simpl; [reflexivity|].
  destruct (f st x) as [st1|]; simpl; [apply IH|reflexivity].
Qed.

Lemma for_each_concat {S B} (f : S → B → option S) (xss : list (list B)) (st : S) :
  Py.for_each (fun st xs => Py.for_each f xs st) xss st = Py.for_each f (concat xss) st.
Proof.
  revert st. induction xss as [|xs xss IH]; intros st; simpl; [reflexivity|].
  rewrite for_each_app. destruct (Py.for_each f xs st) as [st1|]; simpl; [apply IH|reflexivity].
Qed.

Lemma bump_at (count : list Z) (i : Z) (c : Z) :
  0 ≤ i → count !! Z.to_nat i = Some c →
  bump count i = Some (<[Z.to_nat i := c + 1]> count).
Proof.
  intros Hi Hc. pose proof (lookup_lt_Some _ _ _ Hc) as Hlt. unfold bump.
  destruct (get_in_range count i) as (c' & -> & Hc'); [lia|].
  rewrite Hc in Hc'. injection Hc' as <-. simpl. apply set_in_range. lia.
Qed.

Section Balance.

Variable n : nat.

Lemma balance_match_counted (st : list Z * list Z) h0 a0 (games : list (Z * Z)) (g : Z * Z) :
  counted n st h0 a0 games →
  valid_id (Z.of_nat n) g.1 ∧ valid_id (Z.of_nat n) g.2 →
  ∃ st', balance_match (Z.of_nat n) st g = Some st'
         ∧ counted n st' h0 a0 (games ++ [g]).
Proof.
  destruct st as [hc ac], g as [home_id away_id]. cbn [fst snd].
  intros (Hl1 & Hl2 & Hc) [Hvh Hva]. cbn [fst snd] in Hl1, Hl2, Hc.
  unfold balance_match.
  assert (Hcount : ∀ (p : Z * Z → bool),
            Z.of_nat (length (List.filter p (games ++ [(home_id, away_id)])))
            = Z.of_nat (length (List.filter p games))
              + (if p (home_id, away_id) then 1 else 0)).
  { intros p. rewrite List.filter_app, length_app. simpl.
    destruct (p (home_id, away_id)); simpl; lia. }
  (* the home count *)
  assert (Hh : ∃ hc',
            (if negb (home_id =? -1) && (home_id <? Z.of_nat n)
             then bump hc home_id else Some hc) = Some hc'
            ∧ length hc' = n
            ∧ ∀ t, (t < n)%nat →
                hc' !! t = Some (h0 t + home_games (Z.of_nat t)
                                          (games ++ [(home_id, away_id)]))).
  { unfold home_games. destruct Hvh as [->|Hv].
    - simpl. exists hc. split; [reflexivity|]. split; [exact Hl1|].
      intros t Ht. rewrite Hcount. cbn [fst].
      replace (-1 =? Z.of_nat t) with false by (symmetry; apply Z.eqb_neq; lia).
      rewrite Z.add_0_r. apply Hc. exact Ht.
    - replace (negb (home_id =? -1) && (home_id <? Z.of_nat n)) with true
        by (symmetry; apply andb_true_iff; split;
            [apply negb_true_iff, Z.eqb_neq; lia|apply Z.ltb_lt; lia]).
      destruct (Hc (Z.to_nat home_id)) as [Hcur _]; [lia|].
      rewrite (bump_at hc home_id _ ltac:(lia) Hcur).
      eexists. split; [reflexivity|]. split; [rewrite length_insert; exact Hl1|].
      intros t Ht. rewrite Hcount. cbn [fst].
      destruct (Z.eqb_spec home_id (Z.of_nat t)) as [E|E].
      + replace (Z.to_nat home_id) with t by lia.
        rewrite list_lookup_insert_eq by lia. unfold home_games.
        f_equal. rewrite ?E, ?Nat2Z.id. lia.
      + rewrite list_lookup_insert_ne by lia. rewrite Z.add_0_r. apply Hc. exact Ht. }
  assert (Ha : ∃ ac',
            (if negb (away_id =? -1) && (away_id <? Z.of_nat n)
             then bump ac away_id else Some ac) = Some ac'
            ∧ length ac' = n
            ∧ ∀ t, (t < n)%nat →
                ac' !! t = Some (a0 t + away_games (Z.of_nat t)
                                          (games ++ [(home_id, away_id)]))).
  { unfold away_games. destruct Hva as [->|Hv].
    - simpl. exists ac. split; [reflexivity|]. split; [exact Hl2|].
      intros t Ht. rewrite Hcount. cbn [snd].
      replace (-1 =? Z.of_nat t) with false by (symmetry; apply Z.eqb_neq; lia).
      rewrite Z.add_0_r. apply Hc. exact Ht.
    - replace (negb (away_id =? -1) && (away_id <? Z.of_nat n)) with true
        by (symmetry; apply andb_true_iff; split;
            [apply negb_true_iff, Z.eqb_neq; lia|apply Z.ltb_lt; lia]).
      destruct (Hc (Z.to_nat away_id)) as [_ Hcur]; [lia|].
      rewrite (bump_at ac away_id _ ltac:(lia) Hcur).
      eexists. split; [reflexivity|]. split; [rewrite length_insert; exact Hl2|].
      intros t Ht. rewrite Hcount. cbn [snd].
      destruct (Z.eqb_spec away_id (Z.of_nat t)) as [E|E].
      + replace (Z.to_nat away_id) with t by lia.
        rewrite list_lookup_insert_eq by lia. unfold away_games.
        f_equal. rewrite ?E, ?Nat2Z.id. lia.
      + rewrite list_lookup_insert_ne by lia. rewrite Z.add_0_r. apply Hc. exact Ht. }
  destruct Hh as (hc' & -> & Hl1' & Hh). destruct Ha as (ac' & -> & Hl2' & Ha).
  simpl. eexists. split; [reflexivity|]. split; [exact Hl1'|]. split; [exact Hl2'|].
  intros t Ht. cbn [fst snd]. auto.
Qed.

Lemma balance_all_counted (more : list (Z * Z)) :
  Forall (fun g : Z * Z => valid_id (Z.of_nat n) g.1 ∧ valid_id (Z.of_nat n) g.2) more →
  ∀ (st : list Z * list Z) h0 a0 (games : list (Z * Z)),
  counted n st h0 a0 games →
  ∃ st', Py.for_each (balance_match (Z.of_nat n)) more st = Some st'
         ∧ counted n st' h0 a0 (games ++ more).
Proof.
  induction 1 as [|g more Hg _ IH]; intros st h0 a0 games Hst.
  - exists st. rewrite app_nil_r. auto.
  - destruct (balance_match_counted st h0 a0 games g Hst Hg) as (st1 & H1 & Hst1).
    destruct (IH st1 h0 a0 _ Hst1) as (st' & H' & Hst').
    exists st'. simpl. rewrite H1. simpl. split; [exact H'|].
    rewrite <- app_assoc in Hst'. exact Hst'.
Qed.

(** The reasons of the teams below [k]. *)
Lemma balance_teams (hc ac : list Z) (h a : nat → Z) k :
  (∀ t, (t < k)%nat → hc !! t = Some (h t) ∧ ac !! t = Some (a t)) →
  ∀ rs, ∃ rs',
    Py.for_each (balance_team hc ac) (seq 0 k) rs = Some rs'
    ∧ (length rs ≤ length rs')%nat
    ∧ (length rs' = length rs ↔ ∀ t, (t < k)%nat → Z.abs (h t - a t) ≤ 1).
Proof.
  induction k as [|k IH]; intros Hc rs.
  - exists rs. simpl. split; [reflexivity|]. split; [lia|]. split; [intros; lia|reflexivity].
  - destruct (IH (fun t Ht => Hc t (Nat.lt_lt_succ_r _ _ Ht)) rs) as (rs1 & H1 & Hm1 & Hs1).
    rewrite seq_S, for_each_app, H1. simpl.
    destruct (Hc k) as [Hh Ha]; [lia|].
    unfold balance_team. rewrite Hh, Ha. simpl.
    eexists. split; [reflexivity|].
    destruct (Z.ltb_spec 1 (Z.abs (h k - a k))) as [Hbad|Hgood].
    + rewrite length_app. simpl. split; [lia|]. split; [lia|].
      intros Hall. specialize (Hall k ltac:(lia)). lia.
    + split; [exact Hm1|]. rewrite Hs1. split.
      * intros Hall t Ht. destruct (decide (t = k)) as [->|Hne]; [exact Hgood|].
        apply Hall. lia.
      * intros Hall t Ht. apply Hall. lia.
Qed.

Lemma check_home_away_balance_counts (s : Schedule) :
  valid_ids (Z.of_nat n) s →
  ∃ ok rs,
    check_home_away_balance s (Z.of_nat n) = Some (ok, rs)
    ∧ (ok = true ↔
       ∀ t, (t < n)%nat →
         Z.abs (home_games (Z.of_nat t) (concat s) - away_games (Z.of_nat t) (concat s)) ≤ 1)
    ∧ (ok = true → rs = []).
Proof.
  intros Hv. unfold check_home_away_balance. destruct s as [|rnd s].
  { exists true, []. split; [reflexivity|]. split; [|reflexivity].
    split; [|reflexivity]. intros _ t _. unfold home_games, away_games. simpl. lia. }
  set (s0 := rnd :: s) in *.
  rewrite for_each_concat, Nat2Z.id.
  destruct (balance_all_counted (concat s0)) with
    (st := (replicate n 0, replicate n 0)) (h0 := fun _ : nat => 0) (a0 := fun _ : nat => 0)
    (games := @nil (Z * Z)) as (st & -> & Hl1 & Hl2 & Hc).
  { apply Forall_concat. exact Hv. }
  { split; [apply length_replicate|]. split; [apply length_replicate|].
    intros t Ht. cbn [fst snd]. rewrite !lookup_replicate_2 by exact Ht.
    split; reflexivity. }
  simpl. unfold Py.range. rewrite Nat2Z.id.
  destruct (balance_teams st.1 st.2
              (fun t => 0 + home_games (Z.of_nat t) (concat s0))
              (fun t => 0 + away_games (Z.of_nat t) (concat s0)) n Hc [])
    as (rs & -> & _ & Hsame).
  simpl. exists (length rs =? 0)%nat, rs. split; [reflexivity|].
  rewrite Nat.eqb_eq. split.
  - change (length rs = 0%nat) with (length rs = length (@nil reason)).
    rewrite Hsame. split; intros Hall t Ht; specialize (Hall t Ht);
      change (concat s0) with (rnd ++ concat s) in *; lia.
  - intros H. destruct rs; [reflexivity|discriminate].
Qed.

End Balance.

(** X17: on a schedule whose ids are team ids below [n_teams] or the bye
    marker, [check_home_away_balance] returns, and accepts exactly when
    for every team the number of matches it plays at home and the number
    it plays away, over the whole schedule, differ by at most one; it
    then returns no reason. *)
Theorem check_home_away_balance_accepts (s : Schedule) (n_teams : Z) :
  0 ≤ n_teams → valid_ids n_teams s →
  ∃ ok rs,
    check_home_away_balance s n_teams = Some (ok, rs)
    ∧ (ok = true ↔
       ∀ t, 0 ≤ t < n_teams →
         Z.abs (home_games t (concat s) - away_games t (concat s)) ≤ 1)
    ∧ (ok = true → rs = []).
Proof.
  intros Hn Hv. rewrite <- (Z2Nat.id n_teams Hn) in Hv |- *.
  destruct (check_home_away_balance_counts (Z.to_nat n_teams) s Hv)
    as (ok & rs & Hc & Hiff & Hnil).
  exists ok, rs. split; [exact Hc|]. split; [|exact Hnil].
  rewrite Hiff. split.
  - intros Hall t Ht. rewrite <- (Z2Nat.id t) by lia. apply Hall. lia.
  - intros Hall t Ht. apply Hall. lia.
Qed.

Lemma check_home_away_balance_accepts_witness :
  ∃ ok rs,
    check_home_away_balance sched4 4 = Some (ok, rs)
    ∧ (ok = true ↔
       ∀ t, 0 ≤ t < 4 →
         Z.abs (home_games t (concat sched4) - away_games t (concat sched4)) ≤ 1)
    ∧ (ok = true → rs = []).
Proof.
  apply (check_home_away_balance_accepts sched4 4).
  - lia.
  - repeat first [apply Forall_nil | apply Forall_cons; split | split];
      right; simpl; lia.
Defined.

(** *** [check_max_consecutive_aways] *)

(** A loop that only ever appends reasons adds none exactly when no item
    makes it add one. *)
Section Appending.

Context {B : Type} (f : list reason → B → list reason) (P : B → Prop).

Hypothesis f_grows : ∀ rs x, (length rs ≤ length (f rs x))%nat.
Hypothesis f_same : ∀ rs x, length (f rs x) = length rs ↔ P x.

Lemma appending_fold (xs : list B) :
  ∀ rs, (length rs ≤ length (fold_left f xs rs))%nat
        ∧ (length (fold_left f xs rs) = length rs ↔ Forall P xs).
Proof.
  induction xs as [|x xs IH]; intros rs; simpl.
  - split; [lia|]. split; [constructor|reflexivity].
  - destruct (IH (f rs x)) as [Hm Hs]. pose proof (f_grows rs x) as Hg.
    split; [lia|]. rewrite Forall_cons. rewrite <- Hs, <- (f_same rs x). lia.
Qed.

End Appending.

Section Aways.

Variables (team_id : nat) (k : Z).
Hypothesis Hk : 0 ≤ k.

Lemma away_fold (rounds : list Round) :
  ∀ a st, 0 ≤ consecutive_aways st ≤ k →
    let st' := fold_left (away_round team_id k) (zip (seq a (length rounds)) rounds) st in
    (length (away_reasons st) ≤ length (away_reasons st'))%nat
    ∧ (length (away_reasons st') = length (away_reasons st)
       ↔ consecutive_aways st + Z.of_nat (away_streak (Z.of_nat team_id) rounds) ≤ k
         ∧ ∀ i, Z.of_nat (away_streak (Z.of_nat team_id) (drop i rounds)) ≤ k).
Proof.
  induction rounds as [|rnd rest IH]; intros a st Hc; cbn zeta.
  - simpl. split; [lia|]. split; [|reflexivity]. intros _. split; [lia|].
    intros i. rewrite drop_nil. simpl. lia.
  - cbn [length seq zip zip_with fold_left].
    set (st1 := away_round team_id k st (a, rnd)).
    assert (Hdrop : ∀ P : nat → Prop,
              (∀ i, P (away_streak (Z.of_nat team_id) (drop i (rnd :: rest))))
              ↔ P (away_streak (Z.of_nat team_id) (rnd :: rest))
                ∧ ∀ i, P (away_streak (Z.of_nat team_id) (drop i rest))).
    { intros P. split.
      - intros H. split; [exact (H 0%nat)|]. intros i. exact (H (S i)).
      - intros [H0 H] [|i]; [exact H0|exact (H i)]. }
    rewrite (Hdrop (fun m => Z.of_nat m ≤ k)).
    cbn [away_streak].
    unfold away_round in st1.
    destruct (is_away_in (Z.of_nat team_id) rnd) eqn:Haway; cbn [consecutive_aways] in st1.
    + destruct (Z.ltb_spec k (consecutive_aways st + 1)) as [Hbad|Hgood].
      * destruct (IH (S a) st1) as [Hm _]; [subst st1; simpl; lia|].
        subst st1.
        cbn [away_reasons consecutive_aways max_consecutive violation_start_round] in *.
        rewrite length_app in Hm. cbn [length] in Hm.
        split; [lia|]. split; [lia|]. intros [Hle _]. lia.
      * destruct (IH (S a) st1) as [Hm Hs]; [subst st1; simpl; lia|].
        subst st1.
        cbn [away_reasons consecutive_aways max_consecutive violation_start_round] in *.
        split; [exact Hm|]. rewrite Hs. split.
        -- intros [H1 H2]. split; [lia|]. split; [lia|exact H2].
        -- intros [H1 [H2 H3]]. split; [lia|exact H3].
    + destruct (Z.ltb_spec k 0) as [Hbad|Hgood]; [lia|].
      destruct (IH (S a) st1) as [Hm Hs]; [subst st1; simpl; lia|].
      subst st1.
      cbn [away_reasons consecutive_aways max_consecutive violation_start_round] in *.
      split; [exact Hm|]. rewrite Hs. split.
      * intros [H1 H2]. split; [lia|]. split; [simpl; lia|exact H2].
      * intros [H1 [H2 H3]]. split; [|exact H3]. specialize (H3 0%nat).
        rewrite drop_0 in H3. lia.
Qed.

Lemma away_team_fold (s : Schedule) (rs : list reason) :
  (length rs ≤ length (away_team s k rs team_id))%nat
  ∧ (length (away_team s k rs team_id) = length rs
     ↔ ∀ i, Z.of_nat (away_streak (Z.of_nat team_id) (drop i s)) ≤ k).
Proof.
  unfold away_team, Py.enumerate.
  destruct (away_fold s 0%nat (AwayState 0 0 None rs)) as [Hm Hs]; [simpl; lia|].
  cbn zeta in Hm, Hs. cbn [away_reasons consecutive_aways] in Hm, Hs.
  split; [exact Hm|]. rewrite Hs. split.
  - intros [_ H]. exact H.
  - intros H. split; [|exact H]. specialize (H 0%nat). rewrite drop_0 in H. lia.
Qed.

End Aways.

(** The scan for the largest id sees every id that is not the bye marker. *)
Lemma max_id_round (rnd : Round) :
  ∀ acc, acc ≤ fold_left max_id_match rnd acc
         ∧ ∀ g : Z * Z, g ∈ rnd → g.2 ≠ -1 → g.2 ≤ fold_left max_id_match rnd acc.
Proof.
  induction rnd as [|[home_id away_id] rnd IH]; intros acc; cbn [fold_left].
  - split; [lia|]. intros g Hg. apply elem_of_nil in Hg as [].
  - destruct (IH (max_id_match acc (home_id, away_id))) as [Hm Hall].
    assert (Hstep : acc ≤ max_id_match acc (home_id, away_id)
                    ∧ (away_id ≠ -1 → away_id ≤ max_id_match acc (home_id, away_id))).
    { unfold max_id_match.
      destruct (Z.eqb_spec home_id (-1)), (Z.eqb_spec away_id (-1)); simpl; lia. }
    split; [lia|]. intros g Hg Hreal. apply elem_of_cons in Hg as [->|Hg].
    + cbn [snd] in *. destruct Hstep as [_ Hstep]. specialize (Hstep Hreal). lia.
    + apply Hall; assumption.
Qed.

Lemma max_id_schedule (s : Schedule) :
  ∀ acc,
    let m := fold_left (fun acc round_matches => fold_left max_id_match round_matches acc)
               s acc in
    acc ≤ m ∧ ∀ (rnd : Round) (g : Z * Z), rnd ∈ s → g ∈ rnd → g.2 ≠ -1 → g.2 ≤ m.
Proof.
  induction s as [|rnd0 s IH]; intros acc; cbn zeta; cbn [fold_left].
  - split; [lia|]. intros rnd g Hr. apply elem_of_nil in Hr as [].
  - destruct (max_id_round rnd0 acc) as [Hm0 Hall0].
    destruct (IH (fold_left max_id_match rnd0 acc)) as [Hm Hall]. cbn zeta in Hm, Hall.
    split; [lia|]. intros rnd g Hr Hg Hreal. apply elem_of_cons in Hr as [->|Hr].
    + specialize (Hall0 g Hg Hreal). lia.
    + apply (Hall rnd); assumption.
Qed.

Lemma is_away_in_elem (t : Z) (rnd : Round) :
  is_away_in t rnd = true → ∃ g : Z * Z, g ∈ rnd ∧ g.2 = t.
Proof.
  induction rnd as [|[home_id away_id] rnd IH]; simpl; [discriminate|].
  destruct (Z.eqb_spec away_id t) as [E|E].
  - intros _. exists (home_id, away_id). split; [left|exact E].
  - destruct (home_id =? t); [discriminate|]. intros H.
    destruct (IH H) as (g & Hg & Eg). exists g. split; [right; exact Hg|exact Eg].
Qed.

(** A team that no match names as the away side has no away round. *)
Lemma away_streak_absent (t : Z) (s : Schedule) :
  (∀ (rnd : Round) (g : Z * Z), rnd ∈ s → g ∈ rnd → g.2 ≠ t) →
  ∀ i, away_streak t (drop i s) = 0%nat.
Proof.
  intros Habs i. destruct (drop i s) as [|rnd rest] eqn:E; [reflexivity|].
  simpl. destruct (is_away_in t rnd) eqn:Ha; [|reflexivity].
  apply is_away_in_elem in Ha as (g & Hg & Eg).
  exfalso. apply (Habs rnd g); [|exact Hg|exact Eg].
  apply (subseteq_drop i s). rewrite E. left.
Qed.

Lemma check_max_consecutive_aways_streaks (s : Schedule) (k : Z) :
  0 ≤ k →
  (length (check_max_consecutive_aways s k).2 = 0%nat
   ↔ ∀ (t i : nat), Z.of_nat (away_streak (Z.of_nat t) (drop i s)) ≤ k)
  ∧ (check_max_consecutive_aways s k).1
    = (length (check_max_consecutive_aways s k).2 =? 0)%nat.
Proof.
  intros Hk. unfold check_max_consecutive_aways. destruct s as [|rnd0 rest].
  { simpl. split; [|reflexivity]. split; [|reflexivity].
    intros _ t i. rewrite drop_nil. simpl. lia. }
  set (s := rnd0 :: rest).
  destruct (max_id_schedule s (-1)) as [Hm Hall]. cbn zeta in Hm, Hall.
  set (m := fold_left _ s (-1)) in *.
  set (n_teams := if 0 <=? m then m + 1 else 0).
  assert (Hn : 0 ≤ n_teams ∧ m < n_teams).
  { subst n_teams. destruct (Z.leb_spec 0 m); lia. }
  assert (Hout : ∀ (t i : nat), n_teams ≤ Z.of_nat t →
            away_streak (Z.of_nat t) (drop i s) = 0%nat).
  { intros t i Ht. apply away_streak_absent. intros rnd g Hr Hg Eg.
    specialize (Hall rnd g Hr Hg). lia. }
  destruct (Z.eqb_spec n_teams 0) as [E0|E0].
  { simpl. split; [|reflexivity]. split; [|reflexivity].
    intros _ t i. rewrite Hout by lia. lia. }
  cbn [fst snd]. split; [|reflexivity].
  destruct (appending_fold (away_team s k)
              (fun t : nat => ∀ i, Z.of_nat (away_streak (Z.of_nat t) (drop i s)) ≤ k)
              (fun rs t => proj1 (away_team_fold t k Hk s rs))
              (fun rs t => proj2 (away_team_fold t k Hk s rs))
              (Py.range n_teams) []) as [_ Hs].
  change (length (@nil reason)) with 0%nat in Hs. rewrite Hs.
  rewrite Forall_forall. unfold Py.range. split.
  - intros Hin t i. destruct (Z.lt_ge_cases (Z.of_nat t) n_teams) as [Hlt|Hge].
    + apply Hin. apply elem_of_seq. lia.
    + rewrite Hout by lia. lia.
  - intros Hall' t _. apply Hall'.
Qed.

(** X18: for a bound [k] that is not negative, [check_max_consecutive_aways]
    accepts exactly when no team with an id from 0 upwards is away in more
    than [k] rounds in a row (in a round, the first match naming the team
    decides whether it is away); it then returns no reason. *)
Theorem check_max_consecutive_aways_accepts (s : Schedule) (k : Z) :
  0 ≤ k →
  ((check_max_consecutive_aways s k).1 = true
   ↔ ∀ (t i : nat), Z.of_nat (away_streak (Z.of_nat t) (drop i s)) ≤ k)
  ∧ ((check_max_consecutive_aways s k).1 = true
     → (check_max_consecutive_aways s k).2 = []).
Proof.
  intros Hk. destruct (check_max_consecutive_aways_streaks s k Hk) as [Hiff ->].
  rewrite Nat.eqb_eq. split; [exact Hiff|].
  intros H. destruct (check_max_consecutive_aways s k).2; [reflexivity|discriminate].
Qed.

Lemma check_max_consecutive_aways_accepts_witness :
  ((check_max_consecutive_aways [[(0, 1)]; [(2, 1)]; [(1, 0)]] 1).1 = true
   ↔ ∀ (t i : nat),
       Z.of_nat (away_streak (Z.of_nat t) (drop i [[(0, 1)]; [(2, 1)]; [(1, 0)]])) ≤ 1)
  ∧ ((check_max_consecutive_aways [[(0, 1)]; [(2, 1)]; [(1, 0)]] 1).1 = true
     → (check_max_consecutive_aways [[(0, 1)]; [(2, 1)]; [(1, 0)]] 1).2 = []).
Proof.
  apply (check_max_consecutive_aways_accepts [[(0, 1)]; [(2, 1)]; [(1, 0)]] 1). lia.
Defined.

(** ** The generated schedule and the validators *)

Lemma real_ids_flat_map {A} (f : A → Round) (l : list A) :
  real_ids (flat_map f l) = flat_map (fun x => real_ids (f x)) l.
Proof.
  induction l as [|x l IH]; [reflexivity|].
  cbn [flat_map]. rewrite real_ids_app, IH. reflexivity.
Qed.

Lemma NoDup_flat_map {A B} (g : A → list B) (l : list A) :
  NoDup l →
  (∀ x, x ∈ l → NoDup (g x)) →
  (∀ x y t, x ∈ l → y ∈ l → x ≠ y → t ∈ g x → t ∈ g y → False) →
  NoDup (flat_map g l).
Proof.
  induction 1 as [|x l Hx Hnd IH]; intros Hg Hdis; cbn [flat_map].
  - constructor.
  - apply NoDup_app. split; [apply Hg; left|]. split.
    + intros t Ht Hin. apply list_elem_of_In, in_flat_map in Hin as (y & Hy & Hty).
      apply list_elem_of_In in Hy, Hty.
      apply (Hdis x y t); [left|right; exact Hy| |exact Ht|exact Hty].
      intros ->. contradiction.
    + apply IH.
      * intros y Hy. apply Hg. right. exact Hy.
      * intros y z t Hy Hz. apply Hdis; right; assumption.
Qed.

Section Weights2.

Context {A : Type} (f : A → nat) (z : A).
Hypothesis f_z : f z = 0%nat.

Lemma weight_one (l : list A) i x :
  l !! i = Some x → (f x ≤ list_sum (map f l))%nat.
Proof.
  intros Hi. pose proof (weight_insert f l i x z Hi) as W. lia.
Qed.

Lemma weight_two (l : list A) i j x y :
  i ≠ j → l !! i = Some x → l !! j = Some y →
  (f x + f y ≤ list_sum (map f l))%nat.
Proof.
  intros Hne Hi Hj. pose proof (weight_insert f l i x z Hi) as W.
  assert (Hj' : <[i := z]> l !! j = Some y)
    by (rewrite list_lookup_insert_ne by exact Hne; exact Hj).
  pose proof (weight_one _ _ _ Hj'). lia.
Qed.

End Weights2.

Lemma round_count_pos a b (g : Z * Z) (rnd : Round) :
  g ∈ rnd → meets a b g = true → (1 ≤ length (List.filter (meets a b) rnd))%nat.
Proof.
  intros Hin Hm.
  assert (Hf : In g (List.filter (meets a b) rnd))
    by (apply filter_In; split; [apply list_elem_of_In; exact Hin|exact Hm]).
  destruct (List.filter (meets a b) rnd); [inversion Hf|simpl; lia].
Qed.

(** Two rounds that each hold a match opposing [a] and [b]. *)
Lemma pair_count_two a b (s : Schedule) r r' rnd rnd' g g' :
  r ≠ r' → s !! r = Some rnd → s !! r' = Some rnd' →
  g ∈ rnd → g' ∈ rnd' → meets a b g = true → meets a b g' = true →
  (2 ≤ pair_count a b s)%nat.
Proof.
  intros Hne Hr Hr' Hg Hg' Hm Hm'. rewrite pair_count_rounds.
  pose proof (weight_two (fun rnd : Round => length (List.filter (meets a b) rnd)) []
                eq_refl s r r' rnd rnd' Hne Hr Hr') as W. cbv beta in W.
  pose proof (round_count_pos a b g rnd Hg Hm).
  pose proof (round_count_pos a b g' rnd' Hg' Hm'). lia.
Qed.

Section Generated.

Local Open Scope nat_scope.

Variables (n h : nat).
Hypothesis Hn : n = (2 * h)%nat ∨ n = (2 * h - 1)%nat.
Hypothesis H2 : (2 ≤ n)%nat.

Let M := (2 * h - 1)%nat.

(** A slot holds at most the one match of the two positions it pairs. *)
Lemma slot_games r i (g : Z * Z) :
  r < M → i < h → g ∈ slot n M r i →
  ∃ p q, (p = i ∧ q = M - i ∨ p = M - i ∧ q = i)
         ∧ src M r p < n ∧ src M r q < n
         ∧ g = (Z.of_nat (src M r p), Z.of_nat (src M r q)).
Proof.
  intros Hr Hi Hg.
  destruct (slot_view n h Hn H2 r i) as [(Ha & Hb & [E|E])|[_ E]];
    fold M in E; rewrite E in Hg.
  - apply list_elem_of_singleton in Hg as ->. exists i, (M - i). auto.
  - apply list_elem_of_singleton in Hg as ->. exists (M - i), i. auto.
  - inversion Hg.
Qed.

Lemma slot_real_ids r i (t : Z) :
  r < M → i < h → t ∈ real_ids (slot n M r i) →
  ∃ p, (p = i ∨ p = M - i) ∧ src M r p < n ∧ t = Z.of_nat (src M r p).
Proof.
  intros Hr Hi Ht. apply elem_real_ids in Ht as (_ & j & m & Hj & Hm).
  apply list_elem_of_lookup_2 in Hj.
  destruct (slot_games r i m Hr Hi Hj) as (p & q & Hpq & Hp & Hq & ->).
  simpl in Hm. destruct Hm as [->| ->]; [exists p|exists q]; intuition.
Qed.

Lemma slot_no_repeat r i : r < M → i < h → NoDup (real_ids (slot n M r i)).
Proof.
  intros Hr Hi.
  assert (Hdiff : src M r i ≠ src M r (M - i)).
  { intros E. apply (src_inj n h Hn H2) in E; subst M; lia. }
  destruct (slot_view n h Hn H2 r i) as [(Ha & Hb & [E|E])|[_ E]];
    fold M in E; rewrite E.
  - apply (real_one_fresh ∅). repeat split; intros; try apply not_elem_of_empty. lia.
  - apply (real_one_fresh ∅). repeat split; intros; try apply not_elem_of_empty. lia.
  - constructor.
Qed.

Lemma round_no_repeat r :
  r < M → NoDup (real_ids (flat_map (slot n M r) (seq 0 h))).
Proof.
  intros Hr. rewrite real_ids_flat_map. apply NoDup_flat_map.
  - apply NoDup_seq.
  - intros i Hi. apply elem_of_seq in Hi. apply slot_no_repeat; [exact Hr|lia].
  - intros i i' t Hi Hi' Hne Ht Ht'.
    apply elem_of_seq in Hi, Hi'.
    apply slot_real_ids in Ht as (p & Hp & _ & ->); [|exact Hr|lia].
    apply slot_real_ids in Ht' as (p' & Hp' & _ & E); [|exact Hr|lia].
    apply Nat2Z.inj in E.
    apply (src_inj n h Hn H2) in E; subst M; lia.
Qed.

Lemma generated_no_repeat (teams : list Team) :
  length teams = n → no_repeat (round_robin_pairs teams).
Proof.
  intros Hlen. rewrite (schedule_closed n h Hn H2 teams Hlen). fold M.
  unfold no_repeat. apply List.Forall_forall. intros rnd Hin.
  apply in_map_iff in Hin as (r & <- & Hr). apply in_seq in Hr.
  apply round_no_repeat. lia.
Qed.

(** Every match opposes two different teams of [0, n): the bye marker is
    never written. *)
Lemma generated_ids (teams : list Team) :
  length teams = n →
  Forall (Forall (fun g : Z * Z =>
                    (0 ≤ g.1 < Z.of_nat n ∧ 0 ≤ g.2 < Z.of_nat n ∧ g.1 ≠ g.2)%Z))
    (round_robin_pairs teams).
Proof.
  intros Hlen. rewrite (schedule_closed n h Hn H2 teams Hlen). fold M.
  apply List.Forall_forall. intros rnd Hin.
  apply in_map_iff in Hin as (r & <- & Hr). apply in_seq in Hr.
  apply List.Forall_forall. intros g Hg.
  apply in_flat_map in Hg as (i & Hi & Hg). apply in_seq in Hi.
  apply list_elem_of_In in Hg.
  destruct (slot_games r i g) as (p & q & Hpq & Hp & Hq & ->); [lia|lia|exact Hg|].
  simpl. split; [lia|]. split; [lia|].
  intros E. apply Nat2Z.inj in E.
  apply (src_inj n h Hn H2) in E; subst M; lia.
Qed.

Lemma generated_nonempty (teams : list Team) :
  length teams = n → round_robin_pairs teams ≠ [].
Proof.
  intros Hlen. rewrite (schedule_closed n h Hn H2 teams Hlen).
  destruct (2 * h - 1) as [|k] eqn:E; [lia|]. discriminate.
Qed.

Lemma generated_no_repeater (teams : list Team) :
  length teams = n → ¬ has_repeater (round_robin_pairs teams).
Proof.
  intros Hlen (r & rnd & nxt & home_id & away_id & Hr & Hnx & Hin & _ & _ & Hrev).
  pose proof (generated_ids teams Hlen) as Hids.
  pose proof (Forall_lookup_1 _ _ _ _ Hids Hnx) as Hnxt. cbv beta in Hnxt.
  rewrite Forall_forall in Hnxt. specialize (Hnxt _ Hin). simpl in Hnxt.
  destruct Hnxt as (Hh & Ha & Hne).
  pose proof (count_in_schedule n h Hn H2 teams (Z.to_nat home_id) (Z.to_nat away_id)
                Hlen ltac:(lia) ltac:(lia) ltac:(lia)) as Hone.
  rewrite !Z2Nat.id in Hone by lia.
  assert (Htwo : 2 ≤ pair_count home_id away_id (round_robin_pairs teams)).
  { apply (pair_count_two home_id away_id _ r (S r) rnd nxt
             (away_id, home_id) (home_id, away_id)); auto.
    - unfold meets. simpl. rewrite !Z.eqb_refl. apply orb_true_r.
    - unfold meets. simpl. rewrite !Z.eqb_refl. reflexivity. }
  lia.
Qed.

End Generated.

(** X19: for at least two teams, every match written by [round_robin_pairs]
    opposes two different team ids of [0, N); the bye marker never appears
    in the schedule, and no team appears twice in a round. *)
Theorem round_robin_matches (teams : list Team) :
  (2 ≤ length teams)%nat →
  Forall (Forall (fun g : Z * Z =>
                    0 ≤ g.1 < Z.of_nat (length teams)
                    ∧ 0 ≤ g.2 < Z.of_nat (length teams) ∧ g.1 ≠ g.2))
    (round_robin_pairs teams)
  ∧ no_repeat (round_robin_pairs teams).
Proof.
  intros H2. destruct (half_split _ H2) as (h & Hn & _). split.
  - apply (generated_ids _ h Hn H2). reflexivity.
  - apply (generated_no_repeat _ h Hn H2). reflexivity.
Qed.

Lemma round_robin_matches_witness :
  Forall (Forall (fun g : Z * Z =>
                    0 ≤ g.1 < Z.of_nat (length (mk_teams 5))
                    ∧ 0 ≤ g.2 < Z.of_nat (length (mk_teams 5)) ∧ g.1 ≠ g.2))
    (round_robin_pairs (mk_teams 5))
  ∧ no_repeat (round_robin_pairs (mk_teams 5)).
Proof.
  apply (round_robin_matches (mk_teams 5)). vm_compute. lia.
Defined.

(** X20: for at least two teams the schedule of [round_robin_pairs] passes
    [validate_schedule] for the team count and passes [check_repeaters],
    each with an empty list of reasons. *)
Theorem round_robin_passes_validation (teams : list Team) :
  (2 ≤ length teams)%nat →
  validate_schedule (round_robin_pairs teams) (Z.of_nat (length teams)) = (true, [])
  ∧ check_repeaters (round_robin_pairs teams) = (true, []).
Proof.
  intros H2. destruct (half_split _ H2) as (h & Hn & _).
  pose proof (generated_ids _ h Hn H2 teams eq_refl) as Hids.
  pose proof (generated_no_repeat _ h Hn H2 teams eq_refl) as Hnd.
  pose proof (generated_nonempty _ h Hn H2 teams eq_refl) as Hne.
  pose proof (generated_no_repeater _ h Hn H2 teams eq_refl) as Hrep.
  split.
  - apply validate_schedule_ok; [exact Hne| |exact Hnd].
    eapply Forall_impl; [exact Hids|]. intros rnd Hr.
    eapply Forall_impl; [exact Hr|]. intros g (H1 & H3 & _).
    split; right; assumption.
  - apply check_repeaters_ok. exact Hrep.
Qed.

Lemma round_robin_passes_validation_witness :
  validate_schedule (round_robin_pairs (mk_teams 5)) (Z.of_nat (length (mk_teams 5)))
  = (true, [])
  ∧ check_repeaters (round_robin_pairs (mk_teams 5)) = (true, []).
Proof.
  apply (round_robin_passes_validation (mk_teams 5)). vm_compute. lia.
Defined.

(** ** The travel evaluation *)

(** *** When it raises *)

Lemma place_match_in_range (rl rl' : list (option Z)) (g : Z * Z) :
  place_match rl g = Some rl' →
  length rl' = length rl ∧ in_range (length rl) g.1 ∧ in_range (length rl) g.2.
Proof.
  destruct g as [home away]. unfold place_match, in_range.
  destruct (Py.set rl home (Some home)) as [rl1|] eqn:H1; simpl; [|discriminate].
  intros H2.
  apply set_Some in H1 as (k1 & Hk1 & ->). apply set_Some in H2 as (k2 & Hk2 & ->).
  rewrite length_insert in Hk2. rewrite !length_insert.
  split; [reflexivity|].
  unfold Py.norm in Hk1, Hk2.
  split.
  - destruct ((0 <=? home) && (home <? Z.of_nat (length rl))) eqn:A; [to_prop; lia|].
    destruct ((home <? 0) && (- Z.of_nat (length rl) <=? home)) eqn:B; [|discriminate].
    to_prop; lia.
  - destruct ((0 <=? away) && (away <? Z.of_nat (length rl))) eqn:A; [to_prop; lia|].
    destruct ((away <? 0) && (- Z.of_nat (length rl) <=? away)) eqn:B; [|discriminate].
    to_prop; lia.
Qed.

Lemma place_all_in_range (rnd : Round) :
  ∀ (rl rl' : list (option Z)),
  Py.for_each place_match rnd rl = Some rl' →
  Forall (fun g : Z * Z => in_range (length rl) g.1 ∧ in_range (length rl) g.2) rnd.
Proof.
  induction rnd as [|g rnd IH]; intros rl rl' H; [constructor|].
  simpl in H. destruct (place_match rl g) as [rl1|] eqn:H1; simpl in H; [|discriminate].
  apply place_match_in_range in H1 as (Hlen & Hg).
  constructor; [exact Hg|]. rewrite <- Hlen. eapply IH; eauto.
Qed.

Lemma travel_rounds_in_range n (D : list (list Q)) (s : Schedule) :
  ∀ st st', Py.for_each (travel_round n D) s st = Some st' → ids_in_range n s.
Proof.
  unfold ids_in_range.
  induction s as [|rnd s IH]; intros st st' H; [constructor|].
  simpl in H. destruct (travel_round n D st rnd) as [st1|] eqn:H1; simpl in H; [|discriminate].
  constructor; [|eapply IH; eauto].
  unfold travel_round in H1.
  destruct (Py.for_each place_match rnd (replicate n None)) as [rl|] eqn:Hp;
    simpl in H1; [|discriminate].
  apply place_all_in_range in Hp. rewrite length_replicate in Hp. exact Hp.
Qed.

(** X21: with an [n] by [n] matrix and [n] teams, [evaluate_schedule_travel]
    returns exactly when every id of the schedule is a valid Python index
    into a list of [n] entries, that is lies in [-n, n); on any other id
    it raises. *)
Theorem evaluate_returns_iff (s : Schedule) (teams : list Team) (D : list (list Q)) :
  square (length teams) D →
  (∃ per total, evaluate_schedule_travel s teams D = Some (per, total))
  ↔ ids_in_range (length teams) s.
Proof.
  intros HD. split.
  - intros (per & total & H). unfold evaluate_schedule_travel in H.
    destruct (Py.for_each (travel_round (length teams) D) s _) as [st|] eqn:Hr;
      simpl in H; [|discriminate].
    eapply travel_rounds_in_range; eauto.
  - intros Hids. eapply evaluate_returns; eauto.
Qed.

Lemma evaluate_returns_iff_witness :
  (∃ per total, evaluate_schedule_travel sched4 (mk_teams 4) D4 = Some (per, total))
  ↔ ids_in_range (length (mk_teams 4)) sched4.
Proof.
  apply (evaluate_returns_iff sched4 (mk_teams 4) D4).
  split; [reflexivity|]. repeat constructor.
Defined.

(** *** What it computes *)

Lemma for_each_ext_in {S B} (f g : S → B → option S) (xs : list B) :
  (∀ st x, x ∈ xs → f st x = g st x) →
  ∀ st, Py.for_each f xs st = Py.for_each g xs st.
Proof.
  induction xs as [|x xs IH]; intros Hfg st; [reflexivity|].
  simpl. rewrite Hfg by left. destruct (g st x) as [st1|]; simpl; [|reflexivity].
  apply IH. intros st2 y Hy. apply Hfg. right. exact Hy.
Qed.

Section Tours.

Variables (n : nat) (D : list (list Q)).
Hypothesis HD : square n D.

Lemma dist_entry l dest :
  0 ≤ l < Z.of_nat n → 0 ≤ dest < Z.of_nat n →
  ∃ row d, Py.get D l = Some row ∧ Py.get row dest = Some d ∧ dist D l dest = d.
Proof.
  intros Hl Hd.
  destruct (matrix_entry n D HD l dest) as (row & d & Hr & Hg);
    [unfold in_range; lia..|].
  exists row, d. split; [exact Hr|]. split; [exact Hg|].
  unfold dist. rewrite Hr. simpl. rewrite Hg. reflexivity.
Qed.

(** The venue list after the matches of the round. *)
Lemma place_match_lookup (rl : list (option Z)) (g : Z * Z) :
  length rl = n → 0 ≤ g.1 < Z.of_nat n → 0 ≤ g.2 < Z.of_nat n →
  ∃ rl', place_match rl g = Some rl' ∧ length rl' = n
    ∧ ∀ t o, rl !! t = Some o → rl' !! t = Some (venue_step (Z.of_nat t) o g).
Proof.
  destruct g as [home away]. simpl. intros Hlen Hh Ha. unfold place_match.
  rewrite set_in_range by lia. simpl.
  rewrite set_in_range by (rewrite length_insert; lia). simpl.
  eexists. split; [reflexivity|]. split; [rewrite !length_insert; exact Hlen|].
  intros t o Ho. pose proof (lookup_lt_Some _ _ _ Ho) as Hlt.
  unfold venue_step. simpl.
  destruct (Z.eqb_spec away (Z.of_nat t)) as [Ea|Ea]; simpl.
  - replace (Z.to_nat away) with t by lia.
    apply list_lookup_insert_eq. rewrite length_insert. exact Hlt.
  - rewrite list_lookup_insert_ne by lia.
    destruct (Z.eqb_spec home (Z.of_nat t)) as [Eh|Eh].
    + replace (Z.to_nat home) with t by lia.
      apply list_lookup_insert_eq. exact Hlt.
    + rewrite list_lookup_insert_ne by lia. exact Ho.
Qed.

Lemma place_all_lookup (rnd : Round) :
  Forall (fun g : Z * Z => 0 ≤ g.1 < Z.of_nat n ∧ 0 ≤ g.2 < Z.of_nat n) rnd →
  ∀ rl : list (option Z), length rl = n →
  ∃ rl', Py.for_each place_match rnd rl = Some rl' ∧ length rl' = n
    ∧ ∀ t o, rl !! t = Some o → rl' !! t = Some (fold_left (venue_step (Z.of_nat t)) rnd o).
Proof.
  induction 1 as [|g rnd [Hg1 Hg2] _ IH]; intros rl Hlen.
  - exists rl. simpl. auto.
  - destruct (place_match_lookup rl g Hlen Hg1 Hg2) as (rl1 & H1 & Hlen1 & Hl1).
    destruct (IH rl1 Hlen1) as (rl' & H' & Hlen' & Hl').
    exists rl'. simpl. rewrite H1. simpl. split; [exact H'|]. split; [exact Hlen'|].
    intros t o Ho. apply Hl', Hl1, Ho.
Qed.

Lemma venue_in_range (t : Z) (rnd : Round) :
  Forall (fun g : Z * Z => 0 ≤ g.1 < Z.of_nat n ∧ 0 ≤ g.2 < Z.of_nat n) rnd →
  ∀ o d, (∀ d0, o = Some d0 → 0 ≤ d0 < Z.of_nat n) →
  fold_left (venue_step t) rnd o = Some d → 0 ≤ d < Z.of_nat n.
Proof.
  induction 1 as [|g rnd [Hg1 Hg2] _ IH]; intros o d Ho; simpl.
  - intros ->. apply Ho. reflexivity.
  - apply IH. unfold venue_step. intros d0.
    destruct (_ || _); [intros [= <-]; exact Hg1|apply Ho].
Qed.

(** Teams without a match stay where they are. *)
Lemma stay_all (loc : list Z) (rl : list (option Z)) :
  length loc = n → length rl = n →
  ∃ rl', Py.for_each (stay_put loc) (seq 0 n) rl = Some rl' ∧ length rl' = n
    ∧ ∀ t o l, rl !! t = Some o → loc !! t = Some l →
        rl' !! t = Some (Some (default l o)).
Proof.
  intros Hloc Hrl.
  destruct (for_each_seq_inv (stay_put loc)
    (fun k cur => length cur = n
       ∧ ∀ t o l, rl !! t = Some o → loc !! t = Some l →
           cur !! t = Some (if (t <? k)%nat then Some (default l o) else o)) n 0%nat rl)
    as (rl' & H' & Hlen' & Hl').
  - split; [exact Hrl|]. intros t o l Ho _. exact Ho.
  - intros t cur Ht (Hlen & Hcur).
    destruct (lookup_lt_is_Some_2 rl t) as [o Ho]; [lia|].
    destruct (lookup_lt_is_Some_2 loc t) as [l Hl]; [lia|].
    pose proof (Hcur t o l Ho Hl) as Hc. rewrite Nat.ltb_irrefl in Hc.
    unfold stay_put. rewrite Hc. simpl.
    destruct o as [d|].
    + eexists. split; [reflexivity|]. split; [exact Hlen|].
      intros u o' l' Ho' Hl'. rewrite (Hcur u o' l' Ho' Hl').
      destruct (Nat.ltb_spec u t), (Nat.ltb_spec u (S t)); try lia; try reflexivity.
      assert (u = t) by lia. subst u.
      rewrite Ho in Ho'. injection Ho' as <-. reflexivity.
    + rewrite Hl. simpl.
      eexists. split; [reflexivity|]. split; [rewrite length_insert; exact Hlen|].
      intros u o' l' Ho' Hl'.
      destruct (decide (u = t)) as [->|Hne].
      * rewrite list_lookup_insert_eq by lia.
        rewrite Ho in Ho'. injection Ho' as <-.
        rewrite Hl in Hl'. injection Hl' as <-.
        destruct (Nat.ltb_spec t (S t)); [reflexivity|lia].
      * rewrite list_lookup_insert_ne by congruence.
        rewrite (Hcur u o' l' Ho' Hl').
        destruct (Nat.ltb_spec u t), (Nat.ltb_spec u (S t)); try lia; reflexivity.
  - exists rl'. split; [exact H'|]. split; [exact Hlen'|].
    intros t o l Ho Hl. pose proof (lookup_lt_Some _ _ _ Ho) as Hlt.
    rewrite (Hl' t o l Ho Hl). simpl.
    destruct (Nat.ltb_spec t n); [reflexivity|lia].
Qed.

(** Every team moves to its venue of the round. *)
Lemma move_all (rl : list (option Z)) (st : list Z * list Q) (F : nat → Z * Q)
    (dest : nat → Z) :
  on_tour n st F →
  (∀ t, (t < n)%nat → rl !! t = Some (Some (dest t)) ∧ 0 ≤ dest t < Z.of_nat n) →
  ∃ st', Py.for_each (move_team D rl) (seq 0 n) st = Some st'
    ∧ on_tour n st' (fun t => leg D (F t) (dest t)).
Proof.
  intros (Hl1 & Hl2 & HF) Hrl.
  destruct (for_each_seq_inv (move_team D rl)
    (fun k cur => on_tour n cur
       (fun t => if (t <? k)%nat then leg D (F t) (dest t) else F t)) n 0%nat st)
    as (st' & H' & Hl1' & Hl2' & HF').
  - split; [exact Hl1|]. split; [exact Hl2|]. intros t Ht. apply HF. exact Ht.
  - intros t [cl ct] Ht (Hc1 & Hc2 & Hcur). simpl in Hc1, Hc2.
    destruct (Hcur t) as (Hloc & Htot & Hin); [lia|].
    rewrite Nat.ltb_irrefl in Hloc, Htot, Hin. simpl in Hloc, Htot.
    destruct (Hrl t) as (Hd & Hdin); [lia|].
    unfold move_team. rewrite Hloc. simpl. rewrite Hd. simpl.
    assert (Hnew : ∀ x : list Z * list Q,
              length x.1 = n → length x.2 = n →
              x.1 !! t = Some (leg D (F t) (dest t)).1 →
              x.2 !! t = Some (leg D (F t) (dest t)).2 →
              (∀ u, u ≠ t → x.1 !! u = cl !! u ∧ x.2 !! u = ct !! u) →
              on_tour n x (fun u => if (u <? S t)%nat then leg D (F u) (dest u) else F u)).
    { intros x Hx1 Hx2 Hxl Hxt Hother. split; [exact Hx1|]. split; [exact Hx2|].
      intros u Hu. destruct (decide (u = t)) as [->|Hne].
      - destruct (Nat.ltb_spec t (S t)); [|lia].
        split; [exact Hxl|]. split; [exact Hxt|].
        unfold leg. destruct (_ =? _); simpl; [exact Hin|exact Hdin].
      - destruct (Hother u Hne) as [-> ->].
        destruct (Hcur u Hu) as (Hu1 & Hu2 & Hu3).
        destruct (Nat.ltb_spec u t), (Nat.ltb_spec u (S t)); try lia; auto. }
    unfold leg in Hnew. simpl in Hnew.
    destruct (Z.eqb_spec (F t).1 (dest t)) as [E|E].
    + eexists. split; [reflexivity|]. apply Hnew; auto.
    + destruct (dist_entry (F t).1 (dest t) Hin Hdin) as (row & d & Hr & Hg & Hdist).
      rewrite Hr. simpl. rewrite Hg. simpl. rewrite Htot. simpl.
      eexists. split; [reflexivity|]. apply Hnew; simpl.
      * rewrite length_insert. exact Hc1.
      * rewrite length_insert. exact Hc2.
      * apply list_lookup_insert_eq. lia.
      * rewrite Hdist. apply list_lookup_insert_eq. lia.
      * intros u Hne. rewrite !list_lookup_insert_ne by congruence. auto.
  - exists st'. split; [exact H'|]. split; [exact Hl1'|]. split; [exact Hl2'|].
    intros t Ht. specialize (HF' t Ht). simpl in HF'.
    destruct (Nat.ltb_spec t n); [exact HF'|lia].
Qed.

Lemma travel_round_tours (st : list Z * list Q) (F : nat → Z * Q) (rnd : Round) :
  on_tour n st F →
  Forall (fun g : Z * Z => 0 ≤ g.1 < Z.of_nat n ∧ 0 ≤ g.2 < Z.of_nat n) rnd →
  ∃ st', travel_round n D st rnd = Some st'
    ∧ on_tour n st' (fun t => after_round D (Z.of_nat t) (F t) rnd).
Proof.
  intros Hst Hrnd. pose proof Hst as (Hl1 & Hl2 & HF).
  destruct (place_all_lookup rnd Hrnd (replicate n None)) as (rl1 & Hp & Hlen1 & Hrl1);
    [apply length_replicate|].
  destruct (stay_all st.1 rl1 Hl1 Hlen1) as (rl2 & Hs & Hlen2 & Hrl2).
  destruct (move_all rl2 st F
              (fun t => default (F t).1 (venue (Z.of_nat t) rnd)) Hst) as (st' & Hm & Hst').
  - intros t Ht. destruct (HF t Ht) as (Hloc & _ & Hin).
    assert (Hv : rl1 !! t = Some (venue (Z.of_nat t) rnd)).
    { apply Hrl1. apply lookup_replicate_2. exact Ht. }
    split; [apply Hrl2; assumption|].
    destruct (venue (Z.of_nat t) rnd) as [d|] eqn:Ev; simpl; [|exact Hin].
    eapply (venue_in_range _ rnd Hrnd None); [discriminate|exact Ev].
  - exists st'. split; [|exact Hst'].
    unfold travel_round. rewrite Hp. simpl. rewrite Hs. simpl. exact Hm.
Qed.

Lemma travel_rounds_tours (s : Schedule) :
  team_ids n s →
  ∀ (st : list Z * list Q) (F : nat → Z * Q),
  on_tour n st F →
  ∃ st', Py.for_each (travel_round n D) s st = Some st'
    ∧ on_tour n st' (fun t => fold_left (after_round D (Z.of_nat t)) s (F t)).
Proof.
  induction 1 as [|rnd s Hrnd _ IH]; intros st F Hst.
  - exists st. split; [reflexivity|]. exact Hst.
  - destruct (travel_round_tours st F rnd Hst Hrnd) as (st1 & H1 & Hst1).
    destruct (IH st1 _ Hst1) as (st' & H' & Hst').
    exists st'. simpl. rewrite H1. simpl. split; [exact H'|exact Hst'].
Qed.

(** The way home is one more leg, to the team's own stadium. *)
Lemma return_all (st : list Z * list Q) (F : nat → Z * Q) :
  on_tour n st F →
  ∃ st', Py.for_each (return_home D) (seq 0 n) st = Some st'
    ∧ on_tour n st' (fun t => leg D (F t) (Z.of_nat t)).
Proof.
  intros Hst.
  set (rl := map (fun u : nat => Some (Z.of_nat u)) (seq 0 n)).
  assert (Hrl : ∀ t, (t < n)%nat → rl !! t = Some (Some (Z.of_nat t))).
  { intros t Ht. unfold rl. rewrite list_lookup_fmap, lookup_seq_lt by exact Ht.
    reflexivity. }
  destruct (move_all rl st F Z.of_nat Hst) as (st' & Hm & Hst').
  { intros t Ht. split; [apply Hrl; exact Ht|lia]. }
  exists st'. split; [|exact Hst'].
  rewrite <- Hm. apply for_each_ext_in. intros [loc tot] t Ht.
  apply elem_of_seq in Ht. unfold return_home, move_team.
  rewrite Hrl by lia. destruct (loc !! t); reflexivity.
Qed.

Lemma evaluate_tours (s : Schedule) (teams : list Team) :
  length teams = n → team_ids n s →
  evaluate_schedule_travel s teams D
  = Some (map (fun t => tour D (Z.of_nat t) s) (seq 0 n),
          py_sum (map (fun t => tour D (Z.of_nat t) s) (seq 0 n))).
Proof.
  intros Hlen Hids. unfold evaluate_schedule_travel. rewrite Hlen.
  destruct (travel_rounds_tours s Hids
              (map Z.of_nat (seq 0 n), replicate n 0%Q)
              (fun t => (Z.of_nat t, 0%Q))) as (st1 & H1 & Hst1).
  { split; [simpl; rewrite length_map, length_seq; reflexivity|].
    split; [apply length_replicate|]. intros t Ht. simpl.
    rewrite list_lookup_fmap, lookup_seq_lt by exact Ht.
    rewrite lookup_replicate_2 by exact Ht. split; [reflexivity|]. split; [reflexivity|lia]. }
  destruct (return_all st1 _ Hst1) as (st2 & H2 & (_ & Hl2 & Hst2)).
  rewrite H1. simpl. rewrite H2. simpl.
  assert (E : st2.2 = map (fun t => tour D (Z.of_nat t) s) (seq 0 n)).
  { apply list_eq. intros t. destruct (Nat.lt_ge_cases t n) as [Ht|Ht].
    - destruct (Hst2 t Ht) as (_ & -> & _).
      rewrite list_lookup_fmap, lookup_seq_lt by exact Ht. reflexivity.
    - rewrite !lookup_ge_None_2; [reflexivity| |lia].
      rewrite length_map, length_seq. exact Ht. }
  rewrite E. reflexivity.
Qed.

End Tours.

(** X22: on a schedule whose ids are team ids of [0, n), with [n] teams and
    an [n] by [n] matrix, [evaluate_schedule_travel] returns, for every
    team, the length of its tour: from home through the venues of the
    rounds in order (the home team's stadium of its match, or the place it
    is at when it has no match), and home again; a move costs the matrix
    entry from the place left to the place reached, staying costs nothing.
    The total is the sum of the tours. *)
Theorem evaluate_is_tours (s : Schedule) (teams : list Team) (D : list (list Q)) :
  square (length teams) D → team_ids (length teams) s →
  evaluate_schedule_travel s teams D
  = Some (map (fun t => tour D (Z.of_nat t) s) (seq 0 (length teams)),
          py_sum (map (fun t => tour D (Z.of_nat t) s) (seq 0 (length teams)))).
Proof.
  intros HD Hids. apply (evaluate_tours (length teams) D HD); [reflexivity|exact Hids].
Qed.

Lemma evaluate_is_tours_witness :
  evaluate_schedule_travel sched4 (mk_teams 4) D4
  = Some (map (fun t => tour D4 (Z.of_nat t) sched4) (seq 0 (length (mk_teams 4))),
          py_sum (map (fun t => tour D4 (Z.of_nat t) sched4)
                    (seq 0 (length (mk_teams 4))))).
Proof.
  apply (evaluate_is_tours sched4 (mk_teams 4) D4).
  - split; [reflexivity|]. repeat constructor.
  - repeat constructor; simpl; lia.
Defined.

(** *** Consequences for single teams *)

Lemma venue_at_home (t : Z) (rnd : Round) :
  (∀ g : Z * Z, g ∈ rnd → g.2 = t → g.1 = t) →
  ∀ o, (o = None ∨ o = Some t) →
  fold_left (venue_step t) rnd o = None ∨ fold_left (venue_step t) rnd o = Some t.
Proof.
  induction rnd as [|g rnd IH]; intros Hhome o Ho; [exact Ho|].
  simpl. apply IH.
  - intros g' Hg'. apply Hhome. right. exact Hg'.
  - unfold venue_step.
    destruct (Z.eqb_spec g.2 t) as [E2|E2]; simpl.
    + right. f_equal. apply Hhome; [left|exact E2].
    + destruct (Z.eqb_spec g.1 t) as [E1|E1]; [right; f_equal; exact E1|exact Ho].
Qed.

Lemma tour_at_home (D : list (list Q)) (t : Z) (s : Schedule) :
  (∀ (rnd : Round) (g : Z * Z), rnd ∈ s → g ∈ rnd → g.2 = t → g.1 = t) →
  tour D t s = 0%Q.
Proof.
  intros Hhome. unfold tour.
  assert (E : fold_left (after_round D t) s (t, 0%Q) = (t, 0%Q)).
  { induction s as [|rnd s IH]; [reflexivity|].
    simpl. replace (after_round D t (t, 0%Q) rnd) with (t, 0%Q).
    - apply IH. intros rnd' g Hr. apply Hhome. right. exact Hr.
    - unfold after_round, leg. simpl.
      destruct (venue_at_home t rnd) with (o := @None Z) as [E|E].
      + intros g Hg. apply (Hhome rnd); [left|exact Hg].
      + left. reflexivity.
      + unfold venue. rewrite E. simpl. rewrite Z.eqb_refl. reflexivity.
      + unfold venue. rewrite E. simpl. rewrite Z.eqb_refl. reflexivity. }
  rewrite E. unfold leg. simpl. rewrite Z.eqb_refl. reflexivity.
Qed.

(** X23: a team that is never the away side of a match (it plays at home, or
    has no match at all) is charged no travel. *)
Theorem home_team_travels_nothing (s : Schedule) (teams : list Team)
    (D : list (list Q)) (t : nat) :
  square (length teams) D → team_ids (length teams) s →
  (t < length teams)%nat →
  (∀ (rnd : Round) (g : Z * Z),
     rnd ∈ s → g ∈ rnd → g.2 = Z.of_nat t → g.1 = Z.of_nat t) →
  ∃ per total,
    evaluate_schedule_travel s teams D = Some (per, total) ∧ per !! t = Some 0%Q.
Proof.
  intros HD Hids Ht Hhome.
  rewrite (evaluate_tours (length teams) D HD s teams eq_refl Hids).
  eexists _, _. split; [reflexivity|].
  rewrite list_lookup_fmap, lookup_seq_lt by exact Ht. simpl.
  rewrite tour_at_home by exact Hhome. reflexivity.
Qed.

Lemma home_team_travels_nothing_witness :
  ∃ per total,
    evaluate_schedule_travel [[(0, 1)]; [(0, 2)]] (mk_teams 4) D4 = Some (per, total)
    ∧ per !! 3%nat = Some 0%Q.
Proof.
  apply (home_team_travels_nothing [[(0, 1)]; [(0, 2)]] (mk_teams 4) D4 3).
  - split; [reflexivity|]. repeat constructor.
  - repeat constructor; simpl; lia.
  - simpl. lia.
  - intros rnd g Hr Hg E.
    apply elem_of_cons in Hr as [->|Hr].
    + apply list_elem_of_singleton in Hg as ->. discriminate.
    + apply list_elem_of_singleton in Hr as ->.
      apply list_elem_of_singleton in Hg as ->. discriminate.
Defined.

(** *** Distances are not negative *)

Lemma dist_nonneg (D : list (list Q)) (i j : Z) :
  Forall (Forall (fun q => (0 <= q)%Q)) D → (0 <= dist D i j)%Q.
Proof.
  intros Hpos. unfold dist.
  destruct (Py.get D i) as [row|] eqn:Hr; simpl; [|apply Qle_refl].
  destruct (Py.get row j) as [d|] eqn:Hd; simpl; [|apply Qle_refl].
  apply get_elem in Hr, Hd.
  rewrite Forall_forall in Hpos. specialize (Hpos _ Hr).
  rewrite Forall_forall in Hpos. exact (Hpos _ Hd).
Qed.

Lemma leg_nonneg (D : list (list Q)) (st : Z * Q) (dest : Z) :
  Forall (Forall (fun q => (0 <= q)%Q)) D → (0 <= st.2)%Q → (0 <= (leg D st dest).2)%Q.
Proof.
  intros Hpos Hst. unfold leg. destruct (_ =? _); simpl; [exact Hst|].
  rewrite <- (Qplus_0_r 0). apply Qplus_le_compat; [exact Hst|].
  apply dist_nonneg. exact Hpos.
Qed.

Lemma tour_nonneg (D : list (list Q)) (t : Z) (s : Schedule) :
  Forall (Forall (fun q => (0 <= q)%Q)) D → (0 <= tour D t s)%Q.
Proof.
  intros Hpos. unfold tour. apply leg_nonneg; [exact Hpos|].
  assert (H : ∀ st : Z * Q, (0 <= st.2)%Q →
              (0 <= (fold_left (after_round D t) s st).2)%Q).
  { induction s as [|rnd s IH]; intros st Hst; [exact Hst|].
    simpl. apply IH. unfold after_round. apply leg_nonneg; assumption. }
  apply H. simpl. apply Qle_refl.
Qed.

Lemma py_sum_nonneg (xs : list Q) :
  Forall (fun q => (0 <= q)%Q) xs → (0 <= py_sum xs)%Q.
Proof.
  unfold py_sum.
  assert (H : ∀ acc, (0 <= acc)%Q → Forall (fun q => (0 <= q)%Q) xs →
              (0 <= fold_left Qplus xs acc)%Q).
  { induction xs as [|x xs IH]; intros acc Hacc Hxs; [exact Hacc|].
    simpl. apply Forall_cons in Hxs as [Hx Hxs]. apply IH; [|exact Hxs].
    rewrite <- (Qplus_0_r 0). apply Qplus_le_compat; assumption. }
  apply H. apply Qle_refl.
Qed.

(** X24: when no entry of the matrix is negative, no team is charged a
    negative distance and the total is not negative. *)
Theorem travel_is_nonnegative (s : Schedule) (teams : list Team) (D : list (list Q)) :
  square (length teams) D → team_ids (length teams) s →
  Forall (Forall (fun q => (0 <= q)%Q)) D →
  ∃ per total,
    evaluate_schedule_travel s teams D = Some (per, total)
    ∧ Forall (fun q => (0 <= q)%Q) per ∧ (0 <= total)%Q.
Proof.
  intros HD Hids Hpos.
  rewrite (evaluate_tours (length teams) D HD s teams eq_refl Hids).
  eexists _, _. split; [reflexivity|].
  assert (Hper : Forall (fun q => (0 <= q)%Q)
                   (map (fun t => tour D (Z.of_nat t) s) (seq 0 (length teams)))).
  { apply List.Forall_forall. intros q Hq. apply in_map_iff in Hq as (t & <- & _).
    apply tour_nonneg. exact Hpos. }
  split; [exact Hper|]. apply py_sum_nonneg. exact Hper.
Qed.

Lemma travel_is_nonnegative_witness :
  ∃ per total,
    evaluate_schedule_travel sched4 (mk_teams 4) D4 = Some (per, total)
    ∧ Forall (fun q => (0 <= q)%Q) per ∧ (0 <= total)%Q.
Proof.
  apply (travel_is_nonnegative sched4 (mk_teams 4) D4).
  - split; [reflexivity|]. repeat constructor.
  - repeat constructor; simpl; lia.
  - repeat constructor; discriminate.
Defined.

(** ** The greedy swap heuristic *)

Section Until.

Context {S B : Type} (stop : S → bool) (f : S → B → option S) (I : S → Prop).

Lemma for_until_inv (xs : list B) :
  (∀ st x st', x ∈ xs → I st → stop st = false → f st x = Some st' → I st') →
  ∀ st st', I st → stop st = false → for_until stop f xs st = Some st' → I st'.
Proof.
  induction xs as [|x xs IH]; intros Hstep st st' Hst Hgo; simpl.
  - intros [= <-]. exact Hst.
  - destruct (f st x) as [st1|] eqn:E; simpl; [|discriminate].
    assert (H1 : I st1) by (eapply Hstep; eauto; left).
    destruct (stop st1) eqn:Es; [intros [= <-]; exact H1|].
    apply IH; [|exact H1|exact Es].
    intros st2 y st3 Hy. apply Hstep. right. exact Hy.
Qed.

Lemma for_until_returns (xs : list B) :
  (∀ st x, x ∈ xs → I st → stop st = false → ∃ st', f st x = Some st' ∧ I st') →
  ∀ st, I st → stop st = false → ∃ st', for_until stop f xs st = Some st' ∧ I st'.
Proof.
  induction xs as [|x xs IH]; intros Hstep st Hst Hgo; simpl.
  - eauto.
  - destruct (Hstep st x) as (st1 & -> & H1); [left|exact Hst|exact Hgo|]. simpl.
    destruct (stop st1) eqn:Es; [eauto|].
    apply IH; [|exact H1|exact Es].
    intros st2 y Hy. apply Hstep. right. exact Hy.
Qed.

End Until.

Lemma elem_enumerate {A} (l : list A) (i : nat) (x : A) :
  (i, x) ∈ Py.enumerate l → l !! i = Some x.
Proof.
  unfold Py.enumerate. intros H. apply list_elem_of_lookup_1 in H as [k Hk].
  apply lookup_zip_with_Some in Hk as (i' & x' & [= <- <-] & Hs & Hl).
  apply lookup_seq in Hs as [-> _]. exact Hl.
Qed.

(** Writing a match at a position that exists. *)
Lemma set_item2_at (s : Schedule) (r i : nat) (rnd : Round) (g : Z * Z) :
  s !! r = Some rnd → (i < length rnd)%nat →
  set_item2 s (Z.of_nat r) (Z.of_nat i) g = Some (<[r := <[i := g]> rnd]> s).
Proof.
  intros Hr Hi. pose proof (lookup_lt_Some _ _ _ Hr) as Hlt.
  rewrite (set_item2_in_range s (Z.of_nat r) (Z.of_nat i) g rnd).
  - rewrite !Nat2Z.id. reflexivity.
  - lia.
  - rewrite Nat2Z.id. exact Hr.
  - lia.
Qed.

Section Greedy.

Variables (s : Schedule) (D : list (list Q)) (base : Q).

Lemma greedy_try_inv r1 r2 i1 m1 rnd1 rnd2 st im2 st' :
  (r1 < r2)%nat → s !! r1 = Some rnd1 → s !! r2 = Some rnd2 →
  rnd1 !! i1 = Some m1 → im2 ∈ Py.enumerate rnd2 →
  greedy_inv s D base st → g_improved_any st = false →
  greedy_try D (length D) r1 r2 i1 m1 st im2 = Some st' →
  greedy_inv s D base st'.
Proof.
  intros Hlt Hr1 Hr2 Hm1 Hin Hinv Hgo. destruct im2 as [i2 m2].
  apply elem_enumerate in Hin.
  pose proof Hinv as Hinv0. unfold greedy_inv in Hinv. rewrite Hgo in Hinv.
  destruct Hinv as [Hs Hb].
  unfold greedy_try. destruct m1 as [h1 a1], m2 as [h2 a2].
  destruct (truthy _) eqn:Ht; [intros [= <-]; exact Hinv0|].
  apply truthy_false in Ht. rewrite Hs.
  rewrite (set_item2_at s r1 i1 rnd1) by (eauto using lookup_lt_Some). simpl.
  rewrite (set_item2_at _ r2 i2 rnd2);
    [|rewrite list_lookup_insert_ne by lia; exact Hr2|eauto using lookup_lt_Some].
  simpl.
  destruct (evaluate_schedule_travel _ _ D) as [[per cand_total]|] eqn:Ev;
    simpl; [|discriminate].
  destruct (Qltb (cand_total + eps) (g_before_total st)) eqn:Hq;
    intros [= <-]; [|exact Hinv0].
  unfold greedy_inv. simpl. split; [|split].
  - exists r1, r2, i1, i2, rnd1, rnd2, (h1, a1), (h2, a2). auto 10.
  - eauto.
  - apply Qltb_lt in Hq. rewrite <- Hb. exact Hq.
Qed.

Lemma greedy_matches_inv r1 r2 rnd1 st im1 st' :
  (r1 < r2)%nat → s !! r1 = Some rnd1 → im1 ∈ Py.enumerate rnd1 →
  greedy_inv s D base st → g_improved_any st = false →
  greedy_matches D (length D) r1 r2 st im1 = Some st' →
  greedy_inv s D base st'.
Proof.
  intros Hlt Hr1 Hin Hinv Hgo. destruct im1 as [i1 m1].
  apply elem_enumerate in Hin. unfold greedy_matches.
  pose proof Hinv as Hinv0. unfold greedy_inv in Hinv. rewrite Hgo in Hinv.
  destruct Hinv as [Hs Hb]. rewrite Hs.
  destruct (s !! r2) as [rnd2|] eqn:Hr2; simpl; [|discriminate].
  apply for_until_inv; [|exact Hinv0|exact Hgo].
  intros st1 im2 st2 Hin2 H1 Hgo1. eapply greedy_try_inv; eauto.
Qed.

Lemma greedy_rounds_inv r1 r2 st st' :
  (r1 < r2)%nat →
  greedy_inv s D base st → g_improved_any st = false →
  greedy_rounds D (length D) r1 st r2 = Some st' →
  greedy_inv s D base st'.
Proof.
  intros Hlt Hinv Hgo. unfold greedy_rounds.
  pose proof Hinv as Hinv0. unfold greedy_inv in Hinv. rewrite Hgo in Hinv.
  destruct Hinv as [Hs Hb]. rewrite Hs.
  destruct (s !! r1) as [rnd1|] eqn:Hr1; simpl; [|discriminate].
  apply for_until_inv; [|exact Hinv0|exact Hgo].
  intros st1 im1 st2 Hin1 H1 Hgo1. eapply greedy_matches_inv; eauto.
Qed.

End Greedy.

Lemma greedy_result_inv (s : Schedule) (D : list (list Q)) (max_tour_len : Z) s' improved :
  greedy_optimize_tours s D max_tour_len = Some (s', improved) →
  ∃ per base st,
    evaluate_schedule_travel s (mk_teams (length D)) D = Some (per, base)
    ∧ greedy_inv s D base st ∧ g_rounds_new st = s' ∧ g_improved_any st = improved.
Proof.
  unfold greedy_optimize_tours.
  destruct (evaluate_schedule_travel s _ D) as [[per base]|] eqn:Ev; simpl; [|discriminate].
  destruct (for_until _ _ _ _) as [st|] eqn:Hl; simpl; [|discriminate].
  intros [= <- <-]. exists per, base, st. split; [reflexivity|].
  split; [|auto].
  revert Hl. apply for_until_inv; [|split; reflexivity|reflexivity].
  intros st1 r1 st2 Hr1 H1 Hgo1.
  apply for_until_inv; [|exact H1|exact Hgo1].
  intros st3 r2 st4 Hr2 H3 Hgo3. apply elem_of_seq in Hr2.
  apply greedy_rounds_inv; [lia|exact H3|exact Hgo3].
Qed.



(** *** What an exchange keeps, and what it breaks *)


(** Two matches of a round that name the same real team. *)
Lemma twice_in_round (rnd : Round) (i j : nat) (m g : Z * Z) (t : Z) :
  rnd !! i = Some m → rnd !! j = Some g → i ≠ j → t ≠ -1 →
  (t = m.1 ∨ t = m.2) → (t = g.1 ∨ t = g.2) →
  ¬ NoDup (real_ids rnd).
Proof.
  assert (Hlt : ∀ i j m g, rnd !! i = Some m → rnd !! j = Some g → (i < j)%nat →
                t ≠ -1 → (t = m.1 ∨ t = m.2) → (t = g.1 ∨ t = g.2) →
                ¬ NoDup (real_ids rnd)).
  { clear. intros i j m g Hi Hj Hlt Ht Hm Hg Hnd.
    rewrite <- (take_drop_middle rnd i m Hi) in Hnd.
    rewrite real_ids_app, real_ids_cons in Hnd.
    apply NoDup_app in Hnd as (_ & _ & Hnd).
    apply NoDup_app in Hnd as (_ & Hdis & _).
    apply (Hdis t).
    - apply elem_real_ids. split; [exact Ht|]. exists 0%nat, m. auto.
    - apply elem_real_ids. split; [exact Ht|]. exists (j - S i)%nat, g.
      split; [|exact Hg]. rewrite lookup_drop. rewrite <- Hj. f_equal. lia. }
  intros Hi Hj Hne Ht Hm Hg.
  destruct (Nat.lt_ge_cases i j).
  - eapply (Hlt i j); eauto.
  - eapply (Hlt j i); eauto. lia.
Qed.

Lemma plays_lookup (t : Z) (rnd : Round) :
  plays t rnd = true → ∃ j g, rnd !! j = Some g ∧ (t = g.1 ∨ t = g.2).
Proof.
  unfold plays. intros H. apply existsb_exists in H as (g & Hin & Hg).
  apply list_elem_of_In, list_elem_of_lookup_1 in Hin as [j Hj].
  exists j, g. split; [exact Hj|].
  apply orb_true_iff in Hg as [E|E]; apply Z.eqb_eq in E; auto.
Qed.

Lemma exchanged_repeats (n : nat) (s s' : Schedule) :
  team_ids n s →
  (∀ (rnd : Round) (t : Z), rnd ∈ s → 0 ≤ t < Z.of_nat n → plays t rnd = true) →
  exchanged s s' → ¬ no_repeat s'.
Proof.
  intros Hids Hfull (r1 & r2 & i1 & i2 & rnd1 & rnd2 & m1 & m2
                     & Hlt & Hr1 & Hr2 & Hm1 & Hm2 & Hdis & ->) Hnd.
  unfold no_repeat in Hnd.
  assert (Hrow : <[r2 := <[i2 := m1]> rnd2]> (<[r1 := <[i1 := m2]> rnd1]> s) !! r1
                 = Some (<[i1 := m2]> rnd1)).
  { rewrite list_lookup_insert_ne by lia.
    apply list_lookup_insert_eq. eapply lookup_lt_Some; eauto. }
  pose proof (Forall_lookup_1 _ _ _ _ Hnd Hrow) as Hnd1. cbv beta in Hnd1.
  (* the home team of the match moved in already plays in that round *)
  pose proof (Forall_lookup_1 _ _ _ _ Hids Hr2) as Hids2. cbv beta in Hids2.
  pose proof (Forall_lookup_1 _ _ _ _ Hids2 Hm2) as [Hh _]. cbv beta in Hh.
  destruct (plays_lookup m2.1 rnd1) as (j & g & Hj & Hg).
  { apply Hfull; [eapply list_elem_of_lookup_2; eauto|exact Hh]. }
  assert (Hne : j ≠ i1).
  { intros ->. rewrite Hm1 in Hj. injection Hj as <-.
    apply (disjoint_elem (teams_of m1) (teams_of m2) m2.1 Hdis);
      unfold teams_of; rewrite elem_of_union, !elem_of_singleton; auto. }
  apply (twice_in_round (<[i1 := m2]> rnd1) i1 j m2 g m2.1); auto.
  - apply list_lookup_insert_eq. eapply lookup_lt_Some; eauto.
  - rewrite list_lookup_insert_ne by congruence. exact Hj.
  - lia.
Qed.



(** X27: the heuristic tests the two matches it exchanges against each other
    only, not against the rest of their rounds. On a schedule of team ids
    in which every team plays in every round, such as a round robin of
    an even number of teams, every improvement it reports is a schedule
    with a team twice in one round. *)
Theorem greedy_improvement_repeats_team (s : Schedule) (D : list (list Q))
    (max_tour_len : Z) s' :
  team_ids (length D) s →
  (∀ (rnd : Round) (t : Z),
     rnd ∈ s → 0 ≤ t < Z.of_nat (length D) → plays t rnd = true) →
  greedy_optimize_tours s D max_tour_len = Some (s', true) →
  exchanged s s' ∧ ¬ no_repeat s'.
Proof.
  intros Hids Hfull H.
  apply greedy_result_inv in H as (per & base & st & _ & Hinv & <- & Himp).
  unfold greedy_inv in Hinv. rewrite Himp in Hinv. destruct Hinv as (Hx & _).
  split; [exact Hx|]. eapply exchanged_repeats; eauto.
Qed.

Lemma greedy_improvement_repeats_team_witness :
  exchanged (round_robin_pairs (mk_teams 6))
    [[(2, 1); (1, 4); (2, 3)]; [(4, 0); (3, 5); (0, 5)];
     [(0, 3); (4, 2); (5, 1)]; [(2, 0); (1, 3); (5, 4)];
     [(0, 1); (2, 5); (3, 4)]]
  ∧ ¬ no_repeat
        [[(2, 1); (1, 4); (2, 3)]; [(4, 0); (3, 5); (0, 5)];
         [(0, 3); (4, 2); (5, 1)]; [(2, 0); (1, 3); (5, 4)];
         [(0, 1); (2, 5); (3, 4)]].
Proof.
  apply (greedy_improvement_repeats_team (round_robin_pairs (mk_teams 6)) line6 3).
  - replace (round_robin_pairs (mk_teams 6))
      with [[(0, 5); (1, 4); (2, 3)]; [(4, 0); (3, 5); (2, 1)];
            [(0, 3); (4, 2); (5, 1)]; [(2, 0); (1, 3); (5, 4)];
            [(0, 1); (2, 5); (3, 4)]] by (vm_compute; reflexivity).
    repeat constructor; simpl; lia.
  - intros rnd t Hr Ht.
    assert (Hall : forallb (fun rnd : Round =>
                     forallb (fun t => plays (Z.of_nat t) rnd) (seq 0 6))
                     (round_robin_pairs (mk_teams 6)) = true)
      by (vm_compute; reflexivity).
    rewrite forallb_forall in Hall. apply list_elem_of_In in Hr.
    specialize (Hall rnd Hr). rewrite forallb_forall in Hall.
    rewrite <- (Z2Nat.id t) by lia. apply Hall. apply in_seq.
    simpl in Ht. lia.
  - vm_compute. reflexivity.
Defined.

(** *** When it returns *)

Lemma mk_teams_length (n : nat) : length (mk_teams n) = n.
Proof. unfold mk_teams. rewrite length_map, length_seq. reflexivity. Qed.

Section GreedyReturns.

Variables (s : Schedule) (D : list (list Q)).
Hypothesis HD : square (length D) D.
Hypothesis Hids : ids_in_range (length D) s.

(** While no improvement has been made the schedule is the input. *)
Lemma greedy_try_returns r1 r2 i1 m1 rnd1 rnd2 st im2 :
  r1 ≠ r2 → s !! r1 = Some rnd1 → s !! r2 = Some rnd2 →
  rnd1 !! i1 = Some m1 → im2 ∈ Py.enumerate rnd2 →
  (g_improved_any st = false → g_rounds_new st = s) → g_improved_any st = false →
  ∃ st', greedy_try D (length D) r1 r2 i1 m1 st im2 = Some st'
         ∧ (g_improved_any st' = false → g_rounds_new st' = s).
Proof.
  intros Hne Hr1 Hr2 Hm1 Hin Hinv Hgo. destruct im2 as [i2 m2].
  apply elem_enumerate in Hin. specialize (Hinv Hgo).
  unfold greedy_try. destruct m1 as [h1 a1], m2 as [h2 a2].
  destruct (truthy _); [eauto|]. rewrite Hinv.
  rewrite (set_item2_at s r1 i1 rnd1) by (eauto using lookup_lt_Some). simpl.
  rewrite (set_item2_at _ r2 i2 rnd2);
    [|rewrite list_lookup_insert_ne by exact Hne; exact Hr2|eauto using lookup_lt_Some].
  simpl.
  destruct (evaluate_returns (length D) D HD (mk_teams (length D))
              (<[r2 := <[i2 := (h1, a1)]> rnd2]> (<[r1 := <[i1 := (h2, a2)]> rnd1]> s)))
    as (per & cand_total & ->).
  - apply mk_teams_length.
  - unfold ids_in_range in *.
    pose proof (Forall_lookup_1 _ _ _ _ Hids Hr1) as H1.
    pose proof (Forall_lookup_1 _ _ _ _ Hids Hr2) as H2. cbv beta in H1, H2.
    apply Forall_insert; [apply Forall_insert; [exact Hids|]|].
    + apply Forall_insert; [exact H1|]. exact (Forall_lookup_1 _ _ _ _ H2 Hin).
    + apply Forall_insert; [exact H2|]. exact (Forall_lookup_1 _ _ _ _ H1 Hm1).
  - simpl. destruct (Qltb _ _); eexists; (split; [reflexivity|]); simpl; auto.
    discriminate.
Qed.

Lemma greedy_rounds_returns r1 r2 st :
  (r1 < r2 < length s)%nat →
  (g_improved_any st = false → g_rounds_new st = s) → g_improved_any st = false →
  ∃ st', greedy_rounds D (length D) r1 st r2 = Some st'
         ∧ (g_improved_any st' = false → g_rounds_new st' = s).
Proof.
  intros Hr Hinv Hgo. unfold greedy_rounds. rewrite (Hinv Hgo).
  destruct (lookup_lt_is_Some_2 s r1) as [rnd1 Hr1]; [lia|].
  destruct (lookup_lt_is_Some_2 s r2) as [rnd2 Hr2]; [lia|].
  rewrite Hr1. simpl.
  apply for_until_returns; [|exact Hinv|exact Hgo].
  intros st1 [i1 m1] Hin1 H1 Hgo1. apply elem_enumerate in Hin1.
  unfold greedy_matches. rewrite (H1 Hgo1), Hr2. simpl.
  apply for_until_returns; [|exact H1|exact Hgo1].
  intros st2 im2 Hin2 H2 Hgo2.
  eapply greedy_try_returns; eauto. lia.
Qed.

Lemma greedy_returns_some (max_tour_len : Z) :
  ∃ s' improved, greedy_optimize_tours s D max_tour_len = Some (s', improved).
Proof.
  unfold greedy_optimize_tours.
  destruct (evaluate_returns (length D) D HD (mk_teams (length D)) s)
    as (per & base & ->); [apply mk_teams_length|exact Hids|]. simpl.
  destruct (for_until_returns g_improved_any
              (fun st r1 =>
                 for_until g_improved_any (greedy_rounds D (length D) r1)
                   (seq (r1 + 1) (length s - (r1 + 1))) st)
              (fun st => g_improved_any st = false → g_rounds_new st = s)
              (seq 0 (length s)))
    with (st := GreedyState s base false) as (st & -> & _).
  - intros st1 r1 Hr1 H1 Hgo1. apply elem_of_seq in Hr1.
    apply for_until_returns; [|exact H1|exact Hgo1].
    intros st2 r2 Hr2 H2 Hgo2. apply elem_of_seq in Hr2.
    apply greedy_rounds_returns; [lia|exact H2|exact Hgo2].
  - reflexivity.
  - reflexivity.
  - simpl. eauto.
Qed.

End GreedyReturns.

(** X28: [greedy_optimize_tours] returns whenever the matrix is square and
    every id of the schedule is a valid index into it; the team count it
    works with is the size of the matrix. *)
Theorem greedy_returns (s : Schedule) (D : list (list Q)) (max_tour_len : Z) :
  square (length D) D → ids_in_range (length D) s →
  ∃ s' improved, greedy_optimize_tours s D max_tour_len = Some (s', improved).
Proof. intros HD Hids. apply greedy_returns_some; assumption. Qed.

Lemma greedy_returns_witness :
  ∃ s' improved, greedy_optimize_tours sched4 D4 3 = Some (s', improved).
Proof.
  apply (greedy_returns sched4 D4 3).
  - split; [reflexivity|]. repeat constructor.
  - repeat constructor; simpl; lia.
Defined.

(** ** The distance matrix *)

Lemma filled_square n D f : filled n D f → square n D.
Proof.
  intros (Hlen & Hrows). split; [exact Hlen|].
  apply Forall_lookup. intros i row Hi.
  destruct (Hrows i) as (row' & Hi' & Hl & _); [rewrite <- Hlen; eapply lookup_lt_Some; eauto|].
  congruence.
Qed.

Lemma set_entry_filled n D f (i j : nat) (d : Q) :
  filled n D f → (i < n)%nat → (j < n)%nat →
  ∃ D', set_entry D (Z.of_nat i) (Z.of_nat j) d = Some D'
        ∧ filled n D' (fun i' j' => if (i' =? i)%nat && (j' =? j)%nat then d else f i' j').
Proof.
  intros (Hlen & Hrows) Hi Hj.
  destruct (Hrows i Hi) as (row & Hr & Hl & Hcells).
  unfold set_entry.
  destruct (get_in_range D (Z.of_nat i)) as (row0 & -> & Hr0); [lia|].
  rewrite Nat2Z.id in Hr0. rewrite Hr in Hr0. injection Hr0 as <-. simpl.
  rewrite set_in_range by lia. simpl. rewrite set_in_range by lia.
  rewrite !Nat2Z.id. eexists. split; [reflexivity|].
  split; [rewrite length_insert; exact Hlen|].
  intros i' Hi'. destruct (decide (i' = i)) as [->|Hne].
  - exists (<[j := d]> row). split; [apply list_lookup_insert_eq; lia|].
    split; [rewrite length_insert; exact Hl|].
    intros j' Hj'. rewrite Nat.eqb_refl. simpl.
    destruct (Nat.eqb_spec j' j) as [->|Hnj].
    + apply list_lookup_insert_eq. lia.
    + rewrite list_lookup_insert_ne by congruence. apply Hcells. exact Hj'.
  - destruct (Hrows i' Hi') as (row' & Hr' & Hl' & Hcells').
    exists row'. split; [rewrite list_lookup_insert_ne by congruence; exact Hr'|].
    split; [exact Hl'|]. intros j' Hj'.
    destruct (Nat.eqb_spec i' i); [contradiction|]. simpl. apply Hcells'. exact Hj'.
Qed.

Lemma filled_ext n D f g :
  (∀ i j, (i < n)%nat → (j < n)%nat → f i j = g i j) → filled n D f → filled n D g.
Proof.
  intros Hfg (Hlen & Hrows). split; [exact Hlen|].
  intros i Hi. destruct (Hrows i Hi) as (row & Hr & Hl & Hcells).
  exists row. split; [exact Hr|]. split; [exact Hl|].
  intros j Hj. rewrite <- Hfg by assumption. apply Hcells. exact Hj.
Qed.

Section Matrix.

Variables (haversine : Q → Q → Q → Q → Q) (teams : list Team).

Let n := length teams.
Let entry := distance_entry haversine teams.

Lemma distance_row (i : nat) (D : list (list Q)) :
  (i < n)%nat →
  filled n D (fun i' j' => if (i' <? i)%nat then entry i' j' else 0%Q) →
  ∃ D', Py.for_each (distance_cell haversine teams i) (seq 0 n) D = Some D'
        ∧ filled n D' (fun i' j' => if (i' <? S i)%nat then entry i' j' else 0%Q).
Proof.
  intros Hi HD.
  destruct (for_each_seq_inv (distance_cell haversine teams i)
    (fun m D' => filled n D'
       (fun i' j' => if (i' <? i)%nat || ((i' =? i)%nat && (j' <? m)%nat)
                     then entry i' j' else 0%Q)) n 0%nat D)
    as (D' & H' & HD').
  - eapply filled_ext; [|exact HD]. intros i' j' _ _. cbv beta.
    replace (j' <? 0)%nat with false by (symmetry; apply Nat.ltb_ge; lia).
    rewrite andb_false_r, orb_false_r. reflexivity.
  - intros j Dc Hj HDc. unfold distance_cell.
    destruct (Nat.eqb_spec i j) as [->|Hne].
    + exists Dc. split; [reflexivity|]. eapply filled_ext; [|exact HDc].
      intros i' j' _ _. cbv beta.
      destruct (Nat.ltb_spec i' j), (Nat.eqb_spec i' j), (Nat.ltb_spec j' j),
               (Nat.ltb_spec j' (S j)); simpl; try lia; try reflexivity.
      assert (j' = j) by lia. subst. unfold entry, distance_entry.
      rewrite Nat.eqb_refl. reflexivity.
    + destruct (lookup_lt_is_Some_2 teams i) as [ti Hti]; [exact Hi|].
      destruct (lookup_lt_is_Some_2 teams j) as [tj Htj]; [lia|].
      rewrite Hti, Htj. simpl.
      destruct (set_entry_filled n Dc _ i j
                  (haversine (lat ti) (lon ti) (lat tj) (lon tj)) HDc Hi)
        as (D1 & -> & HD1); [lia|].
      exists D1. split; [reflexivity|]. eapply filled_ext; [|exact HD1].
      intros i' j' _ _. cbv beta.
      destruct (Nat.ltb_spec i' i), (Nat.eqb_spec i' i), (Nat.eqb_spec j' j),
               (Nat.ltb_spec j' j), (Nat.ltb_spec j' (S j)); simpl; try lia; try reflexivity.
      subst. unfold entry, distance_entry.
      destruct (Nat.eqb_spec i j); [contradiction|]. rewrite Hti, Htj. reflexivity.
  - exists D'. split; [exact H'|]. eapply filled_ext; [|exact HD'].
    intros i' j' _ Hj'. cbv beta. simpl.
    destruct (Nat.ltb_spec i' i), (Nat.eqb_spec i' i), (Nat.ltb_spec j' n),
             (Nat.ltb_spec i' (S i)); simpl; try lia; reflexivity.
Qed.

Lemma distance_matrix_filled :
  ∃ D, distance_matrix haversine teams = Some D ∧ filled n D entry.
Proof.
  unfold distance_matrix. fold n.
  destruct (for_each_seq_inv
    (fun D i => Py.for_each (distance_cell haversine teams i) (seq 0 n) D)
    (fun k D' => filled n D' (fun i' j' => if (i' <? k)%nat then entry i' j' else 0%Q))
    n 0%nat (replicate n (replicate n 0%Q))) as (D' & H' & HD').
  - split; [apply length_replicate|]. intros i Hi.
    exists (replicate n 0%Q). split; [apply lookup_replicate_2; exact Hi|].
    split; [apply length_replicate|]. intros j Hj. simpl.
    apply lookup_replicate_2. exact Hj.
  - intros i Dc Hi HDc. apply distance_row; [lia|exact HDc].
  - exists D'. split; [exact H'|]. eapply filled_ext; [|exact HD'].
    intros i' j' Hi' _. cbv beta. simpl.
    destruct (Nat.ltb_spec i' n); [reflexivity|lia].
Qed.

End Matrix.

(** X29: for any distance function in the place of [haversine],
    [distance_matrix] returns an [n] by [n] matrix for [n] teams, with
    zero on the diagonal and, off the diagonal, at row [i] and column [j]
    the distance from the coordinates of team [i] to those of team [j]. *)
Theorem distance_matrix_entries (haversine : Q → Q → Q → Q → Q) (teams : list Team) :
  ∃ D, distance_matrix haversine teams = Some D
    ∧ square (length teams) D
    ∧ ∀ i j ti tj, teams !! i = Some ti → teams !! j = Some tj →
        ∃ row, D !! i = Some row
          ∧ row !! j = Some (if decide (i = j) then 0%Q
                             else haversine (lat ti) (lon ti) (lat tj) (lon tj)).
Proof.
  destruct (distance_matrix_filled haversine teams) as (D & HD & Hf).
  exists D. split; [exact HD|]. split; [eapply filled_square; exact Hf|].
  intros i j ti tj Hi Hj. destruct Hf as (_ & Hrows).
  destruct (Hrows i) as (row & Hr & _ & Hcells); [eapply lookup_lt_Some; eauto|].
  exists row. split; [exact Hr|].
  rewrite Hcells by (eapply lookup_lt_Some; eauto).
  unfold distance_entry. rewrite Hi, Hj.
  destruct (Nat.eqb_spec i j), (decide (i = j)); try contradiction; reflexivity.
Qed.

(** ** The pipeline of [example_run] *)

Lemma evaluate_teams_length (s : Schedule) (teams teams' : list Team) (D : list (list Q)) :
  length teams = length teams' →
  evaluate_schedule_travel s teams D = evaluate_schedule_travel s teams' D.
Proof. intros E. unfold evaluate_schedule_travel. rewrite E. reflexivity. Qed.

(** X30: for at least two teams and any distance function in the place of
    [haversine], the steps of [example_run] compose without raising:
    [distance_matrix] returns a matrix, [evaluate_schedule_travel]
    evaluates the schedule of [round_robin_pairs] for it,
    [greedy_optimize_tours] returns on the two, and its result is
    evaluated too, to a total below the baseline by more than the
    tolerance when an improvement is reported, and to the baseline
    otherwise. On the same schedule and matrix [hill_climb] and
    [simulated_annealing] return for any budget of at least one iteration
    and any random draws. *)
Theorem pipeline_returns (haversine : Q → Q → Q → Q → Q) (teams : list Team)
    (max_tour_len max_iters max_no_improve : Z) (T0 decay : Q) (validate : bool)
    (tp : Rand.tape) (pos : nat) :
  (2 ≤ length teams)%nat → 1 ≤ max_iters →
  ∃ D per total rounds2 improved per2 total2,
    distance_matrix haversine teams = Some D
    ∧ evaluate_schedule_travel (round_robin_pairs teams) teams D = Some (per, total)
    ∧ greedy_optimize_tours (round_robin_pairs teams) D max_tour_len
      = Some (rounds2, improved)
    ∧ evaluate_schedule_travel rounds2 teams D = Some (per2, total2)
    ∧ (if improved then (total2 + eps < total)%Q
       else rounds2 = round_robin_pairs teams ∧ total2 = total)
    ∧ (∃ res pos',
         hill_climb (round_robin_pairs teams) teams D None max_iters max_no_improve
           validate tp pos = Some (res, pos'))
    ∧ (∃ res pos',
         simulated_annealing (round_robin_pairs teams) teams D None T0 decay max_iters
           validate tp pos = Some (res, pos')).
Proof.
  intros H2 Hm.
  destruct (distance_matrix_filled haversine teams) as (D & HD & Hf).
  pose proof (filled_square _ _ _ Hf) as Hsq.
  destruct (half_split _ H2) as (h & Hn & _).
  pose proof (generated_ids _ h Hn H2 teams eq_refl) as Hids.
  pose proof (generated_nonempty _ h Hn H2 teams eq_refl) as Hne.
  assert (Hin : ids_in_range (length teams) (round_robin_pairs teams)).
  { eapply Forall_impl; [exact Hids|]. intros rnd Hr.
    eapply Forall_impl; [exact Hr|]. intros g (H1 & H3 & _).
    unfold in_range. lia. }
  pose proof Hsq as [HlenD _].
  assert (Hlen : length teams = length (mk_teams (length D))).
  { rewrite mk_teams_length. symmetry. exact HlenD. }
  destruct (greedy_returns_some (round_robin_pairs teams) D) with (max_tour_len := max_tour_len)
    as (rounds2 & improved & Hg); [rewrite HlenD; exact Hsq|rewrite HlenD; exact Hin|].
  destruct (greedy_result_inv _ _ _ _ _ Hg) as (per & total & st & Hev & Hinv & Hs & Hi).
  rewrite <- (evaluate_teams_length _ teams _ D Hlen) in Hev.
  assert (Hres : ∃ per2 total2,
            evaluate_schedule_travel rounds2 teams D = Some (per2, total2)
            ∧ (if improved then (total2 + eps < total)%Q
               else rounds2 = round_robin_pairs teams ∧ total2 = total)).
  { unfold greedy_inv in Hinv. rewrite Hi, Hs in Hinv. destruct improved.
    - destruct Hinv as (_ & (per2 & Hev2) & Hlt).
      rewrite <- (evaluate_teams_length _ teams _ D Hlen) in Hev2.
      exists per2, (g_before_total st). split; [exact Hev2|exact Hlt].
    - destruct Hinv as [-> Hb]. exists per, total. split; [exact Hev|]. split; reflexivity. }
  destruct Hres as (per2 & total2 & Hev2 & Hcmp).
  exists D, per, total, rounds2, improved, per2, total2.
  split; [exact HD|]. split; [exact Hev|]. split; [exact Hg|]. split; [exact Hev2|].
  split; [exact Hcmp|]. split.
  - apply hill_climb_returns; auto; discriminate.
  - apply simulated_annealing_returns; auto; discriminate.
Qed.

Lemma pipeline_returns_witness :
  ∃ D per total rounds2 improved per2 total2,
    distance_matrix flat_distance (mk_teams 4) = Some D
    ∧ evaluate_schedule_travel (round_robin_pairs (mk_teams 4)) (mk_teams 4) D
      = Some (per, total)
    ∧ greedy_optimize_tours (round_robin_pairs (mk_teams 4)) D 3 = Some (rounds2, improved)
    ∧ evaluate_schedule_travel rounds2 (mk_teams 4) D = Some (per2, total2)
    ∧ (if improved then (total2 + eps < total)%Q
       else rounds2 = round_robin_pairs (mk_teams 4) ∧ total2 = total)
    ∧ (∃ res pos',
         hill_climb (round_robin_pairs (mk_teams 4)) (mk_teams 4) D None 6 100
           true counting_tape 0%nat = Some (res, pos'))
    ∧ (∃ res pos',
         simulated_annealing (round_robin_pairs (mk_teams 4)) (mk_teams 4) D None 1 (1 # 2) 6
           true counting_tape 0%nat = Some (res, pos')).
Proof.
  apply (pipeline_returns flat_distance
           (mk_teams 4) 3 6 100 1 (1 # 2) true counting_tape 0%nat).
  - simpl. lia.
  - lia.
Defined.
